(** * poczytajmy-backend: text heuristics, greeting history and the provider race

    A shallow embedding of the text-shaping functions of [index.js]
    ([normalize], [jaccard], [chooseMostNovel], [parseList],
    [sanitizeNoName], [tightenMotivation], the accuracy score of [POST /asr]),
    of the race helper [withDeadline] over [Promise.any], and of the
    handlers that use them, followed by the properties the specification
    states about them.

    JavaScript strings are sequences of UTF-16 code units: a string is a
    [list N].  Regular expressions without the [u] flag walk over code
    units, those with the [u] flag over code points (a well-formed surrogate
    pair counts as one character).  Each regular expression of the source is
    written as a matcher, a function that tells how many characters the
    pattern consumes at the current position, and is run by one of the
    drivers [replace_all], [replace_first], [replace_start] and [split_re],
    which follow [String.prototype.replace] and [String.prototype.split]. *)

From Stdlib Require Import List NArith ZArith QArith String Ascii Bool Lia.
From Stdlib Require Import DecimalString.
From Stdlib Require Import Qround Lqa.
From stdpp Require Import gmap.
Import ListNotations.

Local Open Scope N_scope.
Local Open Scope list_scope.

(** ** JavaScript strings *)

Module JS.

Abbreviation jsstring := (list N).

(** Literals are written as Rocq strings, whose bytes are the UTF-8 form of
    the text; [lit] turns them into UTF-16 code units. *)

Definition bytes (s : string) : list N :=
  List.map N_of_ascii (list_ascii_of_string s).

Fixpoint utf8_decode (bs : list N) : list N :=
  match bs with
  | [] => []
  | b0 :: r0 =>
      if b0 <? 128 then b0 :: utf8_decode r0
      else
        match r0 with
        | [] => []
        | b1 :: r1 =>
            if b0 <? 224 then ((b0 - 192) * 64 + (b1 - 128)) :: utf8_decode r1
            else
              match r1 with
              | [] => []
              | b2 :: r2 =>
                  if b0 <? 240
                  then ((b0 - 224) * 4096 + (b1 - 128) * 64 + (b2 - 128))
                         :: utf8_decode r2
                  else
                    match r2 with
                    | [] => []
                    | b3 :: r3 =>
                        ((b0 - 240) * 262144 + (b1 - 128) * 4096
                         + (b2 - 128) * 64 + (b3 - 128)) :: utf8_decode r3
                    end
              end
        end
  end.

Definition isHigh (c : N) : bool := (55296 <=? c) && (c <? 56320).
Definition isLow (c : N) : bool := (56320 <=? c) && (c <? 57344).
Definition isSurrogate (c : N) : bool := (55296 <=? c) && (c <? 57344).

(** Code points to code units and back.  A lone surrogate is a character of
    its own, as it is for a [u]-flagged regular expression. *)

Definition encode1 (cp : N) : list N :=
  if cp <? 65536 then [cp]
  else [55296 + (cp - 65536) / 1024; 56320 + (cp - 65536) mod 1024].

Definition encode (cps : list N) : jsstring := List.concat (List.map encode1 cps).

Fixpoint decode (s : jsstring) : list N :=
  match s with
  | [] => []
  | h :: t =>
      match t with
      | l :: rest =>
          if isHigh h && isLow l
          then (65536 + (h - 55296) * 1024 + (l - 56320)) :: decode rest
          else h :: decode t
      | [] => [h]
      end
  end.

Definition lit (s : string) : jsstring := encode (utf8_decode (bytes s)).

(** The code points of a literal, for patterns of [u]-flagged expressions. *)
Definition litcp (s : string) : list N := utf8_decode (bytes s).

Definition inClass (cls : list N) (c : N) : bool := existsb (N.eqb c) cls.

(** [\s], which is also what [trim] strips: WhiteSpace and LineTerminator. *)
Definition isSpace (c : N) : bool :=
  inClass [9; 10; 11; 12; 13; 32; 160; 5760; 8232; 8233; 8239; 8287; 12288; 65279] c
  || ((8192 <=? c) && (c <=? 8202)).

Definition isDigit (c : N) : bool := (48 <=? c) && (c <=? 57).

Fixpoint skip_while (p : N -> bool) (s : list N) : list N :=
  match s with
  | [] => []
  | c :: t => if p c then skip_while p t else s
  end.

Fixpoint run_length (p : N -> bool) (s : list N) : nat :=
  match s with
  | [] => O
  | c :: t => if p c then S (run_length p t) else O
  end.

Definition trimStart (s : jsstring) : jsstring := skip_while isSpace s.
Definition trimEnd (s : jsstring) : jsstring := rev (skip_while isSpace (rev s)).
Definition trim (s : jsstring) : jsstring := trimEnd (trimStart s).

(** Truthiness of a string, [Boolean(s)]. *)
Definition truthy (s : jsstring) : bool :=
  match s with [] => false | _ => true end.

(** [a || b] on strings. *)
Definition or_else (a b : jsstring) : jsstring := if truthy a then a else b.

Definition str_eqb (a b : jsstring) : bool :=
  if decide (a = b) then true else false.

Definition join (sep : jsstring) (l : list jsstring) : jsstring :=
  match l with
  | [] => []
  | x :: r => x ++ List.concat (List.map (fun y => sep ++ y) r)
  end.

(** *** Drivers

    A matcher gets the character before the position ([None] at the start
    of the input: look-behind and [\b] need it) and the input from the
    position on; it answers the number of characters of the match. *)

Definition matcher : Type := option N -> list N -> option nat.

(** [s.replace(re, r)] for a global [re]: matches are found left to right,
    the search resumes after each match and one character further after an
    empty one.  [skip] counts the characters of the current match that are
    still to be consumed. *)
Fixpoint replace_go (m : matcher) (r : list N) (skip : nat)
    (prev : option N) (s : list N) : list N :=
  match s with
  | [] =>
      match skip with
      | O => match m prev [] with Some _ => r | None => [] end
      | S _ => []
      end
  | c :: t =>
      match skip with
      | S k => replace_go m r k (Some c) t
      | O =>
          match m prev s with
          | Some (S n) => r ++ replace_go m r n (Some c) t
          | Some O => r ++ c :: replace_go m r O (Some c) t
          | None => c :: replace_go m r O (Some c) t
          end
      end
  end.

Definition replace_all (m : matcher) (r : list N) (s : list N) : list N :=
  replace_go m r O None s.

(** [s.replace(re, r)] for a non-global [re]: the leftmost match only. *)
Fixpoint replace_first_go (m : matcher) (r : list N)
    (prev : option N) (s : list N) : list N :=
  match m prev s with
  | Some n => r ++ skipn n s
  | None =>
      match s with
      | [] => []
      | c :: t => c :: replace_first_go m r (Some c) t
      end
  end.

Definition replace_first (m : matcher) (r : list N) (s : list N) : list N :=
  replace_first_go m r None s.

(** A pattern that begins with [^] (no [m] flag) can match at index 0 only. *)
Definition replace_start (m : matcher) (r : list N) (s : list N) : list N :=
  match m None s with
  | Some n => r ++ skipn n s
  | None => s
  end.

(** [s.split(re)]: [cur] is the piece being collected. *)
Fixpoint split_go (m : matcher) (skip : nat) (prev : option N)
    (cur : list N) (s : list N) : list (list N) :=
  match s with
  | [] => [cur]
  | c :: t =>
      match skip with
      | S k => split_go m k (Some c) cur t
      | O =>
          match m prev s with
          | Some (S n) => cur :: split_go m n (Some c) [] t
          | Some O =>
              match cur with
              | [] => split_go m O (Some c) [c] t
              | _ => cur :: split_go m O (Some c) [c] t
              end
          | None => split_go m O (Some c) (cur ++ [c]) t
          end
      end
  end.

Definition split_re (m : matcher) (s : list N) : list (list N) :=
  match s with
  | [] => match m None [] with Some _ => [] | None => [[]] end
  | _ => split_go m O None [] s
  end.

(** A literal pattern, as in [s.split(' ')]. *)
Fixpoint starts_with (p s : list N) : bool :=
  match p, s with
  | [], _ => true
  | _ :: _, [] => false
  | a :: p', b :: s' => (a =? b) && starts_with p' s'
  end.

Definition m_literal (p : list N) : matcher :=
  fun _ s => if starts_with p s then Some (length p) else None.

(** [.filter(Boolean)] on an array of strings. *)
Definition filter_Boolean (l : list jsstring) : list jsstring :=
  List.filter truthy l.

(** [Array.from(new Set(items))]: the first occurrence of each string, in
    insertion order. *)
Fixpoint uniq_go (seen : list jsstring) (l : list jsstring) : list jsstring :=
  match l with
  | [] => []
  | x :: r =>
      if existsb (str_eqb x) seen then uniq_go seen r
      else x :: uniq_go (x :: seen) r
  end.

Definition new_Set (l : list jsstring) : list jsstring := uniq_go [] l.

(** [B.has(w)]. *)
Definition has (B : list jsstring) (w : jsstring) : bool := existsb (str_eqb w) B.

End JS.

Import JS.

(** ** Unicode tables

    The functions below consult tables of the Unicode standard that belong
    to the JavaScript engine, not to the repository: they are parameters of
    the development.  [Polish] further down is an excerpt of the tables that
    covers the alphabet and the signs used in the examples. *)

Record Unicode : Type := {
  (** [String.prototype.toLowerCase] *)
  toLowerCase : jsstring -> jsstring;
  (** [String.prototype.toUpperCase] *)
  toUpperCase : jsstring -> jsstring;
  (** simple case folding of a code point: how an [iu]-flagged regular
      expression canonicalizes a character before comparing *)
  scf : N -> N;
  (** [\p{L}] and [\p{M}] *)
  uL : N -> bool;
  uM : N -> bool;
  (** [\p{Extended_Pictographic}] *)
  uExtPict : N -> bool
}.

(** ** Matchers shared by several functions *)

(** One character of a class, [[...]]. *)
Definition m_class (p : N -> bool) : matcher :=
  fun _ s => match s with c :: _ => if p c then Some 1%nat else None | [] => None end.

(** [\s+] *)
Definition m_spaces : matcher :=
  fun _ s => match run_length isSpace s with O => None | n => Some n end.

(** [.replace(/\s+/g, ' ')] *)
Definition collapse_spaces (s : jsstring) : jsstring := replace_all m_spaces [32] s.

Section Text.

Context (U : Unicode).

(** ** Candidate extraction and novelty selection ([index.js], l. 197-264) *)

(** The class of [normalize]: the low and the right double quotation mark,
    the ASCII double quote (34), then [!?.,;:()\-–—[\]{}…]. *)
Definition normalize_class : list N :=
  [8222; 8221; 34; 33; 63; 46; 44; 59; 58; 40; 41; 45; 8211; 8212; 91; 93; 123; 125; 8230].

Definition normalize (text : jsstring) : jsstring :=
  trim (collapse_spaces
          (replace_all (m_class (inClass normalize_class)) []
             (toLowerCase U text))).

(** [normalize(s).split(' ').filter(Boolean)] *)
Definition tokens (s : jsstring) : list jsstring :=
  filter_Boolean (split_re (m_literal [32]) (normalize s)).

(** [for (const w of A) if (B.has(w)) inter++] *)
Definition count_inter (A B : list jsstring) : nat :=
  length (List.filter (has B) A).

(** The quotient of two token counts is kept as the rational it denotes.
    (Counts stay far below 2^26, where binary64 quotients of two counts are
    ordered exactly as the rationals are, and n/n is 1.) *)
Definition ratio (n d : nat) : Q := Qred (Z.of_nat n # Pos.of_nat d).

Definition jaccard (a b : jsstring) : Q :=
  let A := new_Set (tokens a) in
  let B := new_Set (tokens b) in
  if (length A =? 0)%nat && (length B =? 0)%nat then 1%Q
  else
    let inter := count_inter A B in
    ratio inter (length A + length B - inter).

Definition Qltb (x y : Q) : bool := negb (Qle_bool y x).

(** [Math.max(0, ...xs)] *)
Definition Math_max0 (xs : list Q) : Q :=
  fold_left (fun acc x => if Qltb acc x then x else acc) xs 0%Q.

(** [cands[0] || ''] *)
Definition first_or_empty (cands : list jsstring) : jsstring :=
  or_else (hd [] cands) [].

(** One turn of the loop of [chooseMostNovel] on the pair [(best, bestScore)]. *)
Definition novel_step (history : list jsstring)
    (st : jsstring * Q) (c : jsstring) : jsstring * Q :=
  let maxSim := Math_max0 (List.map (fun h => jaccard c h) history) in
  if Qltb maxSim (snd st) then (c, maxSim) else st.

(** [history] is [None] when the argument is [undefined] or [null]. *)
Definition chooseMostNovel (cands : list jsstring)
    (history : option (list jsstring)) : jsstring :=
  match history with
  | None => first_or_empty cands
  | Some [] => first_or_empty cands
  | Some hist =>
      let best := fst (fold_left (novel_step hist) cands ([], 1%Q)) in
      or_else best (first_or_empty cands)
  end.

(** [\r?\n] *)
Definition m_newline : matcher :=
  fun _ s =>
    match s with
    | 13 :: 10 :: _ => Some 2%nat
    | 10 :: _ => Some 1%nat
    | _ => None
    end.

(** [^[-*\d.)]+\s*] *)
Definition isMarker (c : N) : bool := inClass [45; 42; 46; 41] c || isDigit c.

Definition m_marker : matcher :=
  fun _ s =>
    match run_length isMarker s with
    | O => None
    | n => Some (n + run_length isSpace (skipn n s))%nat
    end.

Definition strip_marker (l : jsstring) : jsstring := replace_start m_marker [] l.

Definition wordCount (s : jsstring) : nat := length (tokens s).

Definition wc_ok (s : jsstring) : bool :=
  (5 <=? wordCount s)%nat && (wordCount s <=? 16)%nat.

Definition parse_lines (text : jsstring) : list jsstring :=
  filter_Boolean (List.map trim (split_re m_newline text)).

Definition parse_items (text : jsstring) : list jsstring :=
  filter_Boolean (List.map strip_marker (parse_lines text)).

(** [Array.from(new Set(items)).filter(...)] followed by [slice(0, 20)]. *)
Definition select_candidates (items : list jsstring) : list jsstring :=
  firstn 20 (List.filter wc_ok (new_Set items)).

Definition parseList (text : jsstring) : list jsstring :=
  select_candidates (parse_items text).

(** ** The greeting sanitizer ([index.js], l. 266-279) *)

(** Regular expressions with the [u] flag see the string as code points. *)
Definition on_code_points (f : list N -> list N) (s : jsstring) : jsstring :=
  encode (f (decode s)).

Definition isBasicWord (c : N) : bool :=
  ((65 <=? c) && (c <=? 90)) || ((97 <=? c) && (c <=? 122))
  || isDigit c || (c =? 95).

(** The word characters of [\b] under the flags [iu]: the ASCII ones and the
    characters that fold to one of them (in Unicode, the long s and the
    Kelvin sign).  No accented letter is among them. *)
Definition isWordChar (c : N) : bool := isBasicWord c || isBasicWord (scf U c).

Definition isWordOpt (c : option N) : bool :=
  match c with Some x => isWordChar x | None => false end.

(** [\b] between the character [before] and the character [after]. *)
Definition boundary (before after : option N) : bool :=
  xorb (isWordOpt before) (isWordOpt after).

(** A literal under the [i] flag: characters are compared after folding. *)
Fixpoint ci_starts_with (p s : list N) : bool :=
  match p, s with
  | [], _ => true
  | _ :: _, [] => false
  | a :: p', b :: s' => (scf U a =? scf U b) && ci_starts_with p' s'
  end.

(** The character that precedes index [k] of [s], [prev] when [k] is 0. *)
Definition char_before (prev : option N) (s : list N) (k : nat) : option N :=
  match k with
  | O => prev
  | S j => nth_error s j
  end.

(** [(?:w1|w2|...)\b tail*]: the alternatives are tried in order; one that
    matches but is not followed by a boundary gives way to the next. *)
Fixpoint m_words (ws : list (list N)) (tail : N -> bool)
    (prev : option N) (s : list N) : option nat :=
  match ws with
  | [] => None
  | w :: rest =>
      let n := length w in
      if ci_starts_with w s
         && boundary (char_before prev s n) (nth_error s n)
      then Some (n + run_length tail (skipn n s))%nat
      else m_words rest tail prev s
  end.

Definition FORBIDDEN_HELLOS : list string :=
  ["cześć"; "hej"; "witaj"; "siema"; "halo"]%string.

(** [[\p{L}\p{M}\s,!.?–—-]]; the class is closed under case folding, so
    that the [i] flag adds nothing to it. *)
Definition hello_tail (c : N) : bool :=
  uL U c || uM U c || isSpace c || inClass [44; 33; 46; 63; 8211; 8212; 45] c.

(** [^\s*(?:cześć|hej|witaj|siema|halo)\b[\p{L}\p{M}\s,!.?–—-]*] with the
    flags [iu]: [k] is the number of white-space characters given to [\s*],
    the longest run first. *)
Fixpoint m_hello_from (k : nat) (prev : option N) (s : list N) : option nat :=
  match m_words (List.map litcp FORBIDDEN_HELLOS) hello_tail
          (char_before prev s k) (skipn k s) with
  | Some n => Some (k + n)%nat
  | None =>
      match k with
      | O => None
      | S j => m_hello_from j prev s
      end
  end.

Definition helloRe : matcher :=
  fun prev s => m_hello_from (run_length isSpace s) prev s.

(** [[name, name+'u', name+'o', name+'e', name+'a', name+'ku']]; the
    escaping of [index.js] makes each form stand for itself in the pattern. *)
Definition name_forms (name : jsstring) : list (list N) :=
  List.map (fun suffix => decode (name ++ lit suffix))
    [""; "u"; "o"; "e"; "a"; "ku"]%string.

(** [[\s,!.?]] *)
Definition name_tail (c : N) : bool := isSpace c || inClass [44; 33; 46; 63] c.

(** [\b(?:forms)\b[\s,!.?]*] with the flags [giu]. *)
Definition nameRe (name : jsstring) : matcher :=
  fun prev s =>
    if boundary prev (hd_error s)
    then m_words (name_forms name) name_tail prev s
    else None.

(** [^[,–—\-|:;!.\s]+] with the flag [u]. *)
Definition isLead (c : N) : bool :=
  inClass [44; 8211; 8212; 45; 124; 58; 59; 33; 46] c || isSpace c.

Definition leadRe : matcher :=
  fun _ s => match run_length isLead s with O => None | n => Some n end.

Definition sanitizeNoName (name raw : jsstring) : jsstring :=
  let s := trim raw in
  let s := trim (on_code_points (replace_start helloRe []) s) in
  let s :=
    if truthy name
    then trim (on_code_points (replace_all (nameRe name) []) s)
    else s in
  trim (on_code_points (replace_start leadRe []) s).

(** ** The motivation tightener ([tightenMotivation]) *)

(** The ASCII double quote (34), the left, right and low double quotation
    marks, the apostrophe and the two parentheses. *)
Definition quote_class : list N := [34; 8220; 8221; 8222; 8221; 39; 40; 41].

(** Both guillemets, the low and the right double quotation mark, the
    ASCII double quote and the apostrophe. *)
Definition span_class : list N := [171; 187; 8222; 8221; 34; 39].

(** [.] stops at a line terminator. *)
Definition isLineTerminator (c : N) : bool := inClass [10; 13; 8232; 8233] c.

(** [.*?] followed by a character of [span_class]: the nearest one closes. *)
Fixpoint span_close (s : list N) : option nat :=
  match s with
  | [] => None
  | c :: t =>
      if inClass span_class c then Some 1%nat
      else if isLineTerminator c then None
      else option_map S (span_close t)
  end.

Definition m_quoted : matcher :=
  fun _ s =>
    match s with
    | q :: t => if inClass span_class q then option_map S (span_close t) else None
    | [] => None
    end.

(** [[.!?…]] *)
Definition isTerminal (c : N) : bool := inClass [46; 33; 63; 8230] c.

(** [(?<=[.!?…])\s+] *)
Definition m_sentence_gap : matcher :=
  fun prev s =>
    match prev with
    | Some p => if isTerminal p then m_spaces prev s else None
    | None => None
    end.

Definition sentences (s : jsstring) : list jsstring :=
  filter_Boolean (split_re m_sentence_gap s).

(** [[\p{Extended_Pictographic}\uFE0F]]: a pictograph or the variation
    selector 16. *)
Definition isEmoji (c : N) : bool := uExtPict U c || (c =? 65039).

(** [s.replace(emojiRe, m => (++seen > 1 ? '' : m))] on code points. *)
Fixpoint keep_first_emoji (seen : nat) (cps : list N) : list N :=
  match cps with
  | [] => []
  | c :: t =>
      if isEmoji c
      then match seen with
           | O => c :: keep_first_emoji 1 t
           | S _ => keep_first_emoji (S seen) t
           end
      else c :: keep_first_emoji seen t
  end.

(** [\s+\S*$] *)
Definition m_last_word : matcher :=
  fun _ s =>
    match run_length isSpace s with
    | O => None
    | n => if forallb (fun c => negb (isSpace c)) (skipn n s)
           then Some (length s) else None
    end.

(** [/[.!?…]$/.test(s)] *)
Definition ends_terminal (s : jsstring) : bool :=
  match rev s with
  | c :: _ => isTerminal c
  | [] => false
  end.

(** The text up to and including the sentence cut. *)
Definition tm_sentences (s : jsstring) : jsstring :=
  let s := trim (collapse_spaces (replace_all (m_class (inClass quote_class)) [] s)) in
  let s := trim (collapse_spaces (replace_all m_quoted [] s)) in
  trim (join [32] (firstn 2 (sentences s))).

(** The text after the emoji step. *)
Definition tm_emoji (s : jsstring) : jsstring :=
  on_code_points (keep_first_emoji 0) (tm_sentences s).

(** [if (s.length > maxChars) s = s.slice(0, maxChars).replace(...).trim()] *)
Definition tm_cut (maxChars : nat) (s : jsstring) : jsstring :=
  if (maxChars <? length s)%nat
  then trim (replace_first m_last_word [] (firstn maxChars s))
  else s.

(** [if (!/[.!?…]$/.test(s)) s += '.'] *)
Definition tm_close (s : jsstring) : jsstring :=
  if ends_terminal s then s else s ++ [46].

Definition tightenMotivation (s : jsstring) (maxChars : nat) : jsstring :=
  if truthy s then tm_close (tm_cut maxChars (tm_emoji s)) else s.

End Text.

(** ** An excerpt of the Unicode tables: the Polish alphabet *)

Module PolishTables.

Definition upper_lower : list (N * N) :=
  [(260, 261); (262, 263); (280, 281); (321, 322); (323, 324);
   (211, 243); (346, 347); (377, 378); (379, 380)].

Definition lower1 (c : N) : N :=
  if (65 <=? c) && (c <=? 90) then c + 32
  else match List.find (fun p => fst p =? c) upper_lower with
       | Some p => snd p
       | None => c
       end.

Definition upper1 (c : N) : N :=
  if (97 <=? c) && (c <=? 122) then c - 32
  else match List.find (fun p => snd p =? c) upper_lower with
       | Some p => fst p
       | None => c
       end.

Definition letter (c : N) : bool :=
  ((65 <=? c) && (c <=? 90)) || ((97 <=? c) && (c <=? 122))
  || existsb (fun p => (fst p =? c) || (snd p =? c)) upper_lower.

(** Combining Diacritical Marks. *)
Definition mark (c : N) : bool := (768 <=? c) && (c <=? 879).

(** The copyright sign, the sparkles, the grinning face and the pictographs
    of the prompts: open book, rocket, flexed biceps, star. *)
Definition pictographic (c : N) : bool :=
  inClass [169; 10024; 128512; 128214; 128640; 128170; 127775] c.

End PolishTables.

Definition Polish : Unicode := {|
  toLowerCase := List.map PolishTables.lower1;
  toUpperCase := List.map PolishTables.upper1;
  scf := PolishTables.lower1;
  uL := PolishTables.letter;
  uM := PolishTables.mark;
  uExtPict := PolishTables.pictographic
|}.

(** ** The accuracy score of [POST /asr] *)

Section Asr.

Context (U : Unicode).

(** [Math.round((inter / den) * 100)] as the engine computes it on binary64
    numbers.  The arithmetic of the engine is a parameter; what is used of
    it is that a quotient between 0 and 1 comes out between 0 and 100. *)
Variable round_percent : nat -> nat -> Z.

(** [[^\p{L}\p{M}0-9\s]+] with the flags [gu]. *)
Definition isNormKept (c : N) : bool := uL U c || uM U c || isDigit c || isSpace c.

Definition m_not_kept : matcher :=
  fun _ s =>
    match run_length (fun c => negb (isNormKept c)) s with
    | O => None
    | n => Some n
    end.

Definition norm (s : jsstring) : jsstring :=
  trim (collapse_spaces
          (on_code_points (replace_all m_not_kept [32]) (toLowerCase U s))).

Definition norm_tokens (s : jsstring) : list jsstring :=
  new_Set (filter_Boolean (split_re (m_literal [32]) (norm s))).

Definition jacc (a b : jsstring) : Z :=
  let A := norm_tokens a in
  let B := norm_tokens b in
  if (length A =? 0)%nat && (length B =? 0)%nat then 100%Z
  else
    let inter := count_inter A B in
    round_percent inter (length A + length B - inter).

(** [const { expectedText = '' } = req.body || {}] and
    [expectedText ? jacc(recognizedText, expectedText) : 0]. *)
Definition accuracy (expectedText : option jsstring) (recognizedText : jsstring) : Z :=
  let expected := match expectedText with Some e => e | None => [] end in
  if truthy expected then jacc recognizedText expected else 0%Z.

End Asr.

(** Rounding to the nearest integer, halves upwards, of the exact quotient:
    an instance of [round_percent] that can be run. *)
Definition exact_round_percent (inter den : nat) : Z :=
  ((200 * Z.of_nat inter + Z.of_nat den) / (2 * Z.of_nat den))%Z.

(** ** Promises, [Promise.any] and [withDeadline] *)

#[warnings="-register-all"] Inductive js_error : Type :=
  | Error (message : jsstring)
  | AggregateError (errors : list js_error).

(** The message V8 gives the error with which [Promise.any] rejects. *)
Definition AGGREGATE_MESSAGE : jsstring := lit "All promises were rejected".

Definition message (e : js_error) : jsstring :=
  match e with
  | Error m => m
  | AggregateError _ => AGGREGATE_MESSAGE
  end.

Definition error_name (e : js_error) : jsstring :=
  match e with
  | Error _ => lit "Error"
  | AggregateError _ => lit "AggregateError"
  end.

(** [String(err)], that is [Error.prototype.toString]. *)
Definition error_toString (e : js_error) : jsstring :=
  if truthy (message e) then error_name e ++ lit ": " ++ message e
  else error_name e.

(** [String(err?.message || err)] *)
Definition error_text (e : js_error) : jsstring :=
  if truthy (message e) then message e else error_toString e.

(** What becomes of a promise: the time is counted in milliseconds from the
    call; time 0 is the turn of the event loop in which the call is made,
    before any timer can fire. *)
Inductive promise (A : Type) : Type :=
  | Fulfilled (t : nat) (v : A)
  | Rejected (t : nat) (e : js_error)
  | Pending.

Arguments Fulfilled {A} t v.
Arguments Rejected {A} t e.
Arguments Pending {A}.

(** A computation that returns or throws. *)
Inductive result (A : Type) : Type :=
  | Return (v : A)
  | Throw (e : js_error).

Arguments Return {A} v.
Arguments Throw {A} e.

Section Race.

Context {A : Type}.

(** The first promise to fulfil; of two that fulfil at the same time, the
    one that comes first in the list. *)
Fixpoint first_fulfilled (ps : list (promise A)) : option (nat * A) :=
  match ps with
  | [] => None
  | p :: r =>
      match p, first_fulfilled r with
      | Fulfilled t v, Some (t', v') =>
          if (t' <? t)%nat then Some (t', v') else Some (t, v)
      | Fulfilled t v, None => Some (t, v)
      | _, o => o
      end
  end.

Definition is_pending (p : promise A) : bool :=
  match p with Pending => true | _ => false end.

Fixpoint rejections (ps : list (promise A)) : list (nat * js_error) :=
  match ps with
  | [] => []
  | Rejected t e :: r => (t, e) :: rejections r
  | _ :: r => rejections r
  end.

(** [Promise.any(ps)]: the first fulfilment wins; when every promise has
    rejected (at once for an empty list) it rejects with an
    [AggregateError]. *)
Definition Promise_any (ps : list (promise A)) : promise A :=
  match first_fulfilled ps with
  | Some (t, v) => Fulfilled t v
  | None =>
      if existsb is_pending ps then Pending
      else
        let rs := rejections ps in
        Rejected (fold_right Nat.max O (List.map fst rs))
                 (AggregateError (List.map snd rs))
  end.

(** [withDeadline(promise, ms)]: the timer fires [ms] milliseconds after the
    call (Node runs a delay below 1 as 1); a promise that settles before
    the timer fires is passed on, otherwise the call rejects with
    DEADLINE_EXCEEDED.  The promise it returns always settles: it is given
    as the time and the outcome. *)
Definition timer_at (ms : nat) : nat := Nat.max 1 ms.

Definition withDeadline (p : promise A) (ms : nat) : nat * result A :=
  let d := timer_at ms in
  match p with
  | Fulfilled t v =>
      if (t <? d)%nat then (t, Return v)
      else (d, Throw (Error (lit "DEADLINE_EXCEEDED")))
  | Rejected t e =>
      if (t <? d)%nat then (t, Throw e)
      else (d, Throw (Error (lit "DEADLINE_EXCEEDED")))
  | Pending => (d, Throw (Error (lit "DEADLINE_EXCEEDED")))
  end.

End Race.

(** ** Providers and handlers *)

(** The winner of a race, [{ provider, text, latency_ms }]; the latency is
    not read by any caller. *)
Record winner : Type := { provider : jsstring; text : jsstring }.

(** What the HTTP call of [groqChat] does: it never answers, [fetch] or
    [res.json()] throws, or a response arrives with a status and, possibly,
    [choices[0].message.content]. *)
Inductive http_reply : Type :=
  | HttpHangs
  | HttpThrows (t : nat) (e : js_error)
  | HttpAnswers (t : nat) (status : nat) (content : option jsstring).

(** What [openai.chat.completions.create] does. *)
Inductive sdk_reply : Type :=
  | SdkHangs
  | SdkThrows (t : nat) (e : js_error)
  | SdkReturns (t : nat) (content : option jsstring).

(** A number in a template literal: its decimal digits. *)
Definition decimal (n : N) : jsstring :=
  lit (DecimalString.NilEmpty.string_of_uint (N.to_uint n)).

(** [content?.trim?.() || ''] *)
Definition content_text (content : option jsstring) : jsstring :=
  match content with
  | Some c => or_else (trim c) []
  | None => []
  end.

(** [res.ok] *)
Definition http_ok (status : nat) : bool := (200 <=? status)%nat && (status <=? 299)%nat.

Definition groqChat (r : http_reply) : promise winner :=
  match r with
  | HttpHangs => Pending
  | HttpThrows t e => Rejected t e
  | HttpAnswers t status content =>
      if http_ok status
      then Fulfilled t {| provider := lit "groq"; text := content_text content |}
      else Rejected t (Error (lit "GROQ_HTTP_" ++ decimal (N.of_nat status)))
  end.

(** The OpenAI participant, which rejects an empty text. *)
Definition openaiChat (r : sdk_reply) : promise winner :=
  match r with
  | SdkHangs => Pending
  | SdkThrows t e => Rejected t e
  | SdkReturns t content =>
      let txt := content_text content in
      if truthy txt
      then Fulfilled t {| provider := lit "openai"; text := txt |}
      else Rejected t (Error (lit "OPENAI_EMPTY"))
  end.

(** The environment of the process: [GROQ_API_KEY] is whether the variable
    is set to a non-empty value, [openai] whether the client exists
    ([OPENAI_API_KEY] set). *)
Record config : Type := {
  GROQ_API_KEY : bool;
  openai : bool;
  MOCK_TEXT : bool;
  DEADLINE_MS : nat
}.

(** The JSON bodies of the answers; [ServiceInfo] is the constant body
    [{ok: true, service, version}] of [GET /health]. *)
Inductive body : Type :=
  | Generated (text source : jsstring)
  | GeneratedText (text level language source : jsstring)
  | Failure (error : jsstring)
  | TimedOut
  | FailureWithFallback (error fallback : jsstring)
  | ServiceInfo.

Record response : Type := { status : nat; json : body }.

(** What the outside world does during one request; [random] stands for the
    draw of [Math.random], [other_answer] for what a route that is not
    modelled answers. *)
Record world : Type := {
  groq_reply : http_reply;
  openai_reply : sdk_reply;
  random : nat;
  other_answer : response
}.

(** The request bodies.  [age] is the integer [Number(age)] denotes, [None]
    when it is [NaN]; ages with a fraction are left out.  The other fields
    ([character], [accuracy], [text], ...) go into the prompts, which only
    the providers read, and the answers of the providers are part of
    [world].  [OtherRoute] stands for the routes whose handlers are not
    modelled ([GET /health], [GET /], [POST /asr], [POST /ocr], [POST /tts]
    and the redirection of [POST /generate-text]). *)
Inductive request : Type :=
  | GenerateGreeting (name : jsstring) (age : option Z)
  | GenerateText (language level : jsstring)
  | Motivate
  | OtherRoute.

Section Server.

Context (U : Unicode).
Variable cfg : config.

(** The participants of a race, in the order they are pushed. *)
Definition racers (w : world) : list (promise winner) :=
  (if GROQ_API_KEY cfg then [groqChat (groq_reply w)] else [])
  ++ (if openai cfg then [openaiChat (openai_reply w)] else []).

(** [withDeadline(Promise.any(racers), DEADLINE_MS)] *)
Definition race (w : world) : nat * result winner :=
  withDeadline (Promise_any (racers w)) (DEADLINE_MS cfg).

(** [[.\n]] *)
Definition m_dot_or_newline : matcher := m_class (inClass [46; 10]).

(** [`${(name || '').toLowerCase()}|${Number(age)||'X'}`] *)
Definition profileKey (name : jsstring) (age : option Z) : jsstring :=
  toLowerCase U name ++ [124]
  ++ match age with
     | Some (Zpos n) => decimal (Npos n)
     | Some (Zneg n) => [45] ++ decimal (Npos n)
     | Some Z0 | None => [88]
     end.

Definition candidates (raw : jsstring) : list jsstring :=
  let cands := parseList U raw in
  match cands with
  | [] =>
      if truthy raw
      then filter_Boolean (List.map trim (split_re m_dot_or_newline raw))
      else cands
  | _ => cands
  end.

(** [picked], [cleaned] and [finalText] of [generateGreetingV2]. *)
Definition final_text (name : jsstring) (cands history : list jsstring) : jsstring :=
  let picked := chooseMostNovel U cands (Some history) in
  let cleaned := sanitizeNoName U name picked in
  or_else cleaned picked.

Definition history_of (recentGreetings : gmap jsstring (list jsstring))
    (key : jsstring) : list jsstring :=
  match recentGreetings !! key with
  | Some h => h
  | None => []
  end.

Definition generateGreetingV2 (name : jsstring) (age : option Z) (w : world)
    (recentGreetings : gmap jsstring (list jsstring))
  : result (jsstring * jsstring) * gmap jsstring (list jsstring) :=
  match snd (race w) with
  | Throw e => (Throw e, recentGreetings)
  | Return win =>
      let raw := text win in
      match candidates raw with
      | [] => (Throw (Error (lit "EMPTY_GENERATION")), recentGreetings)
      | cands =>
          let key := profileKey name age in
          let history := history_of recentGreetings key in
          let finalText := final_text name cands history in
          (Return (finalText, or_else (provider win) (lit "unknown")),
           <[key := firstn 20 (finalText :: history)]> recentGreetings)
      end
  end.

(** The [catch] clause shared by the three endpoints. *)
Definition timedOut (e : js_error) : bool :=
  str_eqb (error_text e) (lit "DEADLINE_EXCEEDED").

Definition on_error (e : js_error) : response :=
  if timedOut e then {| status := 504; json := TimedOut |}
  else {| status := 502; json := Failure (error_text e) |}.

(** [POST /agent/generate-greeting] *)
Definition post_generate_greeting (name : jsstring) (age : option Z) (w : world)
    (recentGreetings : gmap jsstring (list jsstring))
  : response * gmap jsstring (list jsstring) :=
  match generateGreetingV2 name age w recentGreetings with
  | (Return (t, src), st) => ({| status := 200; json := Generated t src |}, st)
  | (Throw e, st) => (on_error e, st)
  end.

Definition BANK_A1 : list jsstring :=
  List.map lit
    ["Ala ma kota."; "Miś je miodek."; "Piłka leży na trawie.";
     "Pies biegnie do domu."; "Słońce świeci jasno."]%string.

Definition BANK_A2 : list jsstring :=
  List.map lit
    ["W ogrodzie rosną kolorowe kwiaty.";
     "Kasia czyta ciekawą książkę o zwierzętach.";
     "Na spacerze spotkaliśmy wesołego psa.";
     "Dziś po południu pojedziemy na rowerach."]%string.

Definition BANK_B1 : list jsstring :=
  List.map lit
    ["Choć padał deszcz, wybraliśmy się na długi spacer.";
     "Lubię zagadki, bo rozwijają wyobraźnię i spostrzegawczość.";
     "Z zachwytem obserwowałem, jak motyl siada na liściu.";
     "Po kolacji wspólnie ułożyliśmy plan jutrzejszej wycieczki."]%string.

Definition bankByLevel (level : jsstring) : list jsstring :=
  let L := toUpperCase U level in
  if str_eqb L (lit "B1") then BANK_B1
  else if str_eqb L (lit "A2") then BANK_A2
  else BANK_A1.

(** [arr[Math.floor(Math.random() * arr.length)]] *)
Definition pick (w : world) (arr : list jsstring) : jsstring :=
  nth (random w mod length arr) arr [].

(** The ASCII double quote, the apostrophe, the low and the right double
    quotation mark: the class of the pattern that strips quotes at both
    ends of a text, a run at index 0 or a run that reaches the end. *)
Definition isEdgeQuote (c : N) : bool := inClass [34; 39; 8222; 8221] c.

Definition m_edge_quotes : matcher :=
  fun prev s =>
    match run_length isEdgeQuote s with
    | O => None
    | n =>
        match prev with
        | None => Some n
        | Some _ => if (n =? length s)%nat then Some n else None
        end
    end.

Definition strip_edge_quotes (s : jsstring) : jsstring :=
  replace_all m_edge_quotes [] s.

(** [POST /agent/generate-text] *)
Definition post_generate_text (language level : jsstring) (w : world) : response :=
  if MOCK_TEXT cfg
  then {| status := 200;
          json := GeneratedText (pick w (bankByLevel level)) level language (lit "mock") |}
  else
    match snd (race w) with
    | Throw e => on_error e
    | Return win =>
        let t := trim (strip_edge_quotes (text win)) in
        if truthy t
        then {| status := 200; json := GeneratedText t level language (provider win) |}
        else on_error (Error (lit "EMPTY_GENERATION"))
    end.

Definition generateMotivation (w : world) : result (jsstring * jsstring) :=
  match snd (race w) with
  | Throw e => Throw e
  | Return win =>
      let out := trim (text win) in
      let out := trim (strip_edge_quotes out) in
      let out := tightenMotivation U out 160 in
      if truthy out
      then Return (out, or_else (provider win) (lit "unknown"))
      else Throw (Error (lit "EMPTY_MOTIVATION"))
  end.

Definition MOTIVATION_FALLBACK : jsstring :=
  lit "Świetna próba! Z każdą stroną będzie coraz lepiej — spróbujmy jeszcze raz! 💪".

(** [POST /agent/motivate] *)
Definition post_motivate (w : world) : response :=
  match generateMotivation w with
  | Return (rawMsg, src) =>
      {| status := 200; json := Generated (tightenMotivation U rawMsg 160) src |}
  | Throw e =>
      if timedOut e then {| status := 504; json := TimedOut |}
      else {| status := 502;
              json := FailureWithFallback (error_text e) MOTIVATION_FALLBACK |}
  end.

(** One request served: the answer and the greeting history afterwards.
    [recentGreetings] is named in [generateGreetingV2] only, which only the
    greeting endpoint calls. *)
Definition serve (req : request) (w : world)
    (recentGreetings : gmap jsstring (list jsstring))
  : response * gmap jsstring (list jsstring) :=
  match req with
  | GenerateGreeting name age => post_generate_greeting name age w recentGreetings
  | GenerateText language level => (post_generate_text language level w, recentGreetings)
  | Motivate => (post_motivate w, recentGreetings)
  | OtherRoute => (other_answer w, recentGreetings)
  end.

(** The history after a run of requests, starting from the given one. *)
Fixpoint run (reqs : list (request * world))
    (recentGreetings : gmap jsstring (list jsstring))
  : gmap jsstring (list jsstring) :=
  match reqs with
  | [] => recentGreetings
  | (req, w) :: rest => run rest (snd (serve req w recentGreetings))
  end.

End Server.

(** ** Vocabulary of the statements *)

(** The normalized token sets of two strings have no token in common. *)
Definition disjoint_tokens (U : Unicode) (a b : jsstring) : Prop :=
  forall w, w ∈ tokens U a -> w ∈ tokens U b -> False.

(** The set of normalized tokens of a transcript. *)
Definition token_set (U : Unicode) (s : jsstring) : gset jsstring :=
  list_to_set (norm_tokens U s).

(** The Jaccard index of two token sets as a percentage: the size of the
    intersection over the size of the union, two empty sets counting as
    equal. *)
Definition jaccard_percent (round_percent : nat -> nat -> Z)
    (A B : gset jsstring) : Z :=
  if decide (A = ∅ /\ B = ∅) then 100%Z
  else round_percent (size (A ∩ B)) (size (A ∪ B)).

(** Settling before the timer of a deadline. *)
Definition fulfils_before {A : Type} (d : nat) (p : promise A) : bool :=
  match p with Fulfilled t _ => (t <? d)%nat | _ => false end.

Definition rejects_before {A : Type} (d : nat) (p : promise A) : bool :=
  match p with Rejected t _ => (t <? d)%nat | _ => false end.

(** Every list of the greeting history holds at most 20 strings. *)
Definition bounded_history (recentGreetings : gmap jsstring (list jsstring)) : Prop :=
  forall key h, recentGreetings !! key = Some h -> (length h <= 20)%nat.

(** The text begins with one of the forbidden greeting words, whatever the
    case of its letters. *)
Definition begins_with_hello (U : Unicode) (s : jsstring) : bool :=
  existsb (fun w => ci_starts_with U (litcp w) (decode s)) FORBIDDEN_HELLOS.

(** The string [p] occurs somewhere in [s]. *)
Fixpoint occurs (p s : list N) : bool :=
  starts_with p s || match s with [] => false | _ :: t => occurs p t end.

(** One of the six forms that [sanitizeNoName] builds from the name occurs
    somewhere in the text, whatever the case of its letters. *)
Fixpoint ci_occurs (U : Unicode) (p s : list N) : bool :=
  ci_starts_with U p s
  || match s with [] => false | _ :: t => ci_occurs U p t end.

Definition mentions (U : Unicode) (name s : jsstring) : bool :=
  existsb (fun form => ci_occurs U form (decode s)) (name_forms name).

(** Well-formed UTF-16: code units below 2^16, every high surrogate followed
    by a low one and no other low surrogate. *)
Fixpoint wf16 (s : jsstring) : bool :=
  match s with
  | [] => true
  | h :: t =>
      if isHigh h
      then match t with
           | l :: rest => isLow l && wf16 rest
           | [] => false
           end
      else negb (isLow h) && (h <? 65536) && wf16 t
  end.

(** The number of characters of a text that the emoji pattern of
    [tightenMotivation] matches. *)
Definition emoji_count (U : Unicode) (s : jsstring) : nat :=
  length (List.filter (isEmoji U) (decode s)).

(** The number of sentence-like segments of a text, as [tightenMotivation]
    splits it. *)
Definition sentence_count (s : jsstring) : nat := length (sentences s).

(** ** Sample configurations and worlds *)

Definition no_provider : config :=
  {| GROQ_API_KEY := false; openai := false; MOCK_TEXT := false; DEADLINE_MS := 1200 |}.

Definition both_providers : config :=
  {| GROQ_API_KEY := true; openai := true; MOCK_TEXT := false; DEADLINE_MS := 1200 |}.

Definition groq_only : config :=
  {| GROQ_API_KEY := true; openai := false; MOCK_TEXT := false; DEADLINE_MS := 1200 |}.

(** Nobody answers. *)
Definition silence : world :=
  {| groq_reply := HttpHangs;
     openai_reply := SdkHangs;
     random := 0;
     other_answer := {| status := 200; json := ServiceInfo |} |}.

(** Groq answers 500 after 30 ms, the OpenAI client throws after 40 ms. *)
Definition both_fail : world :=
  {| groq_reply := HttpAnswers 30 500 None;
     openai_reply := SdkThrows 40 (Error (lit "Connection error."));
     random := 0;
     other_answer := {| status := 200; json := ServiceInfo |} |}.

(** Groq hangs, OpenAI answers after five seconds. *)
Definition too_late : world :=
  {| groq_reply := HttpHangs;
     openai_reply := SdkReturns 5000 (Some (lit "- Dziś razem odkryjemy nowy rozdział bajki."));
     random := 0;
     other_answer := {| status := 200; json := ServiceInfo |} |}.

(** Groq answers after 50 ms with one line that greets the child by name. *)
Definition greets_by_name : world :=
  {| groq_reply :=
       HttpAnswers 50 200 (Some (lit "- Hej Zosia, otwórzmy dziś razem książkę!"));
     openai_reply := SdkHangs;
     random := 0;
     other_answer := {| status := 200; json := ServiceInfo |} |}.

(** ** Auxiliary notions of the proofs *)

(** The places where [tightenMotivation] splits a text into sentences: a
    white-space character right after a terminal punctuation mark.  [prev]
    is the character before the text. *)
Definition isTerminalOpt (p : option N) : bool :=
  match p with Some c => isTerminal c | None => false end.

Fixpoint gaps (prev : option N) (s : list N) : nat :=
  match s with
  | [] => O
  | c :: t =>
      ((if isTerminalOpt prev && isSpace c then 1 else 0) + gaps (Some c) t)%nat
  end.

(** The last character of [s], [prev] when [s] is empty. *)
Definition last_char (prev : option N) (s : list N) : option N :=
  fold_left (fun _ c => Some c) s prev.

(** A Unicode scalar value: a code point that is not a surrogate. *)
Definition scalar (c : N) : bool := negb (isSurrogate c) && (c <? 1114112).

(** A code unit that is not a surrogate. *)
Definition plain (c : N) : bool := negb (isSurrogate c) && (c <? 65536).

(** A matcher whose matches are not empty, fit in the input, and begin and
    end with a character that is not a surrogate. *)
Definition plain_ends (m : matcher) : Prop :=
  forall prev s n,
    m prev s = Some n ->
    exists k c d,
      n = S k
      /\ nth_error s O = Some c /\ isSurrogate c = false
      /\ nth_error s k = Some d /\ isSurrogate d = false.

(** [wf16] read as an automaton: [pending] tells that the unit before was a
    high surrogate, which the next unit has to complete. *)
Fixpoint wf16_from (pending : bool) (s : jsstring) : bool :=
  match s with
  | [] => negb pending
  | c :: t =>
      (if pending then isLow c else negb (isLow c))
      && (c <? 65536) && wf16_from (isHigh c) t
  end.

(** The state of the automaton of [wf16_from] after a text, [None] when the
    text is rejected on the way. *)
Fixpoint wf16_state (b : bool) (s : jsstring) : option bool :=
  match s with
  | [] => Some b
  | c :: t =>
      if (if b then isLow c else negb (isLow c)) && (c <? 65536)
      then wf16_state (isHigh c) t
      else None
  end.
(** * Further functions of the backend

    The helpers and handlers of [index.js] that the sections above leave
    out, with the notions their properties are stated with. *)

(** ** The prompt trimmer ([trimUserContent], [index.js], l. 39-42) *)

(** [compact.slice(-limit)]: the last [limit] characters.  [-0] is [0], so
    that [slice(-0)] is the whole string. *)
Definition slice_last (limit : nat) (s : jsstring) : jsstring :=
  match limit with
  | O => s
  | _ => skipn (length s - limit) s
  end.

Definition trimUserContent (s : jsstring) (limit : nat) : jsstring :=
  let compact := trim (collapse_spaces s) in
  if (limit <? length compact)%nat then slice_last limit compact else compact.

(** Every white-space character of the text is a space (U+0020) and the
    character after it is not white space; [at_end] tells whether a space
    may be the last character. *)
Fixpoint spaced (at_end : bool) (s : jsstring) : bool :=
  match s with
  | [] => true
  | c :: t =>
      (if isSpace c
       then (c =? 32)
            && match t with d :: _ => negb (isSpace d) | [] => at_end end
       else true)
      && spaced at_end t
  end.

(** Words separated by single spaces, with no white space at the end. *)
Definition single_spaced (s : jsstring) : bool := spaced false s.

(** The characters of a text that are not white space, in order. *)
Definition nonspace (c : N) : bool := negb (isSpace c).

Definition ink (s : jsstring) : list N := List.filter nonspace s.

(** A word of a normalized text: it holds no white space and none of the
    punctuation marks that [normalize] removes. *)
Definition bare (c : N) : Prop :=
  isSpace c = false /\ inClass normalize_class c = false.

(** ** Novelty *)

(** [maxSim] in [chooseMostNovel]: how similar a candidate is to the entry
    of the history that is closest to it. *)
Definition max_similarity (U : Unicode) (history : list jsstring)
    (c : jsstring) : Q :=
  Math_max0 (List.map (fun h => jaccard U c h) history).

(** What the loop of [chooseMostNovel] has found after the candidates
    [seen]: nothing yet, the score standing at 1, or the first of the
    candidates with the least score, which is below 1. *)
Definition novel_inv (U : Unicode) (history seen : list jsstring)
    (st : jsstring * Q) : Prop :=
  Forall (fun c => (snd st <= max_similarity U history c)%Q) seen
  /\ (st = ([], 1%Q)
      \/ (snd st < 1)%Q
         /\ snd st = max_similarity U history (fst st)
         /\ exists before after,
              seen = before ++ fst st :: after
              /\ Forall (fun c => (snd st < max_similarity U history c)%Q) before).

(** ** Answers *)

(** White space or a full stop: what [generateGreetingV2] cannot make a
    candidate of. *)
Definition isBlankOrDot (c : N) : bool := isSpace c || (c =? 46).

(** The text of an answer that carries one. *)
Definition answer_text (r : response) : option jsstring :=
  match json r with
  | Generated t _ => Some t
  | GeneratedText t _ _ _ => Some t
  | _ => None
  end.

(** No list of the greeting history holds an empty string. *)
Definition nonempty_history
    (recentGreetings : gmap jsstring (list jsstring)) : Prop :=
  forall key h, recentGreetings !! key = Some h -> Forall (fun t => t <> []) h.

(** A character that is none of the quotation marks, apostrophes and
    parentheses that [tightenMotivation] removes first. *)
Definition quote_free (c : N) : Prop := inClass quote_class c = false.

(** The text without the run of characters of a class at its end. *)
Definition drop_end (p : N -> bool) (s : list N) : list N :=
  rev (skip_while p (rev s)).

(** ** The rubric of a motivation ([rubricByAccuracy], [part_001], l. 470-476) *)

(** A number of the engine; a finite one is given by the rational number it
    denotes. *)
Inductive number : Type :=
  | Finite (q : Q)
  | PlusInfinity
  | MinusInfinity
  | NaN.

(** [Math.round]: the nearest integer, a half going upwards. *)
Definition Math_round (q : Q) : Z := Qfloor (q + (1 # 2)).

(** [Math.max(0, Math.min(100, Math.round(acc || 0)))]; [NaN || 0] is 0.
    The argument is the [accuracy] of the request, read as a number. *)
Definition rubric_score (acc : number) : Z :=
  match acc with
  | Finite q => Z.max 0 (Z.min 100 (Math_round q))
  | PlusInfinity => 100
  | MinusInfinity => 0
  | NaN => 0
  end.

Definition RUBRIC_EXCELLENT : jsstring :=
  lit "wynik świetny; podkreśl perfekcję i zaproponuj trudniejsze słowo przy następnej stronie".

Definition RUBRIC_VERY_GOOD : jsstring :=
  lit "wynik bardzo dobry; pochwal płynność i zaproponuj jedną mikro-radę (np. dokładniej końcówki)".

Definition RUBRIC_GOOD : jsstring :=
  lit "wynik dobry; pochwal staranie i podaj jedną prostą wskazówkę (np. wolniej, sylabizuj trudniejsze słowa)".

Definition RUBRIC_WARM_UP : jsstring :=
  lit "wynik na rozgrzewkę; skup się na zachęcie i jednej mini-radzie (np. przeczytaj zdanie jeszcze raz spokojnie)".

Definition rubricByAccuracy (acc : number) : jsstring :=
  let s := rubric_score acc in
  if (95 <=? s)%Z then RUBRIC_EXCELLENT
  else if (80 <=? s)%Z then RUBRIC_VERY_GOOD
  else if (60 <=? s)%Z then RUBRIC_GOOD
  else RUBRIC_WARM_UP.

(** ** The gate of the OCR jobs ([acquire] and [release], [index.js],
       l. 69-72, around the recognition of [POST /ocr], l. 452-469) *)

(** A job that has reached [await acquire()]: asleep in the loop of
    [acquire], at work between [acquire] and [release], or done. *)
Inductive phase : Type := Asleep | Working | Done.

Record gate : Type := { inflight : nat; jobs : list phase }.

(** What can happen next: a request reaches [acquire]; the sleep of job [i]
    ends; job [i] leaves the [try] block, by a return or by an exception,
    and runs [release] in the [finally] clause. *)
Inductive event : Type := Arrive | Wake (i : nat) | Finish (i : nat).

Section Gate.

(** [Number(process.env.OCR_MAX_CONCURRENCY || 2)] when it is a natural
    number, [None] when it is [NaN]; a negative limit behaves as 0 does and
    limits with a fraction are left out. *)
Variable MAX_CONCURRENCY : option nat.

(** [inflight >= MAX_CONCURRENCY], which is false of [NaN]. *)
Definition gate_full (n : nat) : bool :=
  match MAX_CONCURRENCY with
  | Some limit => (limit <=? n)%nat
  | None => false
  end.

(** One turn of [while (inflight >= MAX_CONCURRENCY) await sleep(40);
    inflight++]: the test and the increment run without a break between
    them. *)
Definition acquire (n : nat) : nat * phase :=
  if gate_full n then (n, Asleep) else (S n, Working).

Definition release (n : nat) : nat := Nat.max 0 (n - 1).

Definition step (g : gate) (e : event) : gate :=
  match e with
  | Arrive =>
      let (n, p) := acquire (inflight g) in
      {| inflight := n; jobs := jobs g ++ [p] |}
  | Wake i =>
      match jobs g !! i with
      | Some Asleep =>
          let (n, p) := acquire (inflight g) in
          {| inflight := n; jobs := <[i := p]> (jobs g) |}
      | _ => g
      end
  | Finish i =>
      match jobs g !! i with
      | Some Working =>
          {| inflight := release (inflight g); jobs := <[i := Done]> (jobs g) |}
      | _ => g
      end
  end.

(** The gate after a sequence of events, starting with no job. *)
Definition gate_after (events : list event) : gate :=
  fold_left step events {| inflight := 0; jobs := [] |}.

End Gate.

Definition is_working (p : phase) : bool :=
  match p with Working => true | _ => false end.

(** The number of jobs at work. *)
Definition working (g : gate) : nat := length (List.filter is_working (jobs g)).

(** The counter is the number of jobs at work, and it is within the
    limit. *)
Definition gate_ok (MAX_CONCURRENCY : option nat) (g : gate) : Prop :=
  inflight g = working g
  /\ match MAX_CONCURRENCY with
     | Some limit => (inflight g <= limit)%nat
     | None => True
     end.

(** ** The speech proxy ([POST /tts], [part_001], l. 726-756) *)

(** What is sent to the speech service: the key, the voice of the URL and
    the text of the body. *)
Record tts_call : Type := { api_key : jsstring; voice : jsstring; spoken : jsstring }.

(** What the call does: [fetch] or the reading of the body throws, or an
    answer arrives with a status and the bytes of its body. *)
Inductive tts_reply : Type :=
  | TtsThrows
  | TtsAnswers (status : nat) (audio : list N).

(** The bodies of the answers; [Audio bytes] is [{ok: true, audioB64}] with
    the base64 form of the bytes. *)
Inductive tts_body : Type :=
  | Audio (bytes : list N)
  | TtsFailure (error : jsstring).

Record tts_response : Type := { tts_status : nat; tts_json : tts_body }.

(** [a || b] on two variables of the environment, each absent or a
    string. *)
Definition env_or (a b : option jsstring) : option jsstring :=
  match a with
  | Some (c :: s) => a
  | _ => b
  end.

Definition DEFAULT_VOICE : jsstring := lit "21m00Tcm4TlvDq8ikWAM".

(** [text] and [voiceId] are the fields of the request body, absent or
    strings (a default stands in for an absent field only). *)
Definition post_tts (ELEVEN_API_KEY ELEVENLABS_API_KEY : option jsstring)
    (text voiceId : option jsstring) (fetch : tts_call -> tts_reply)
  : tts_response :=
  match env_or ELEVEN_API_KEY ELEVENLABS_API_KEY with
  | None | Some [] =>
      {| tts_status := 500; tts_json := TtsFailure (lit "NO_ELEVEN_API_KEY") |}
  | Some apiKey =>
      let text := match text with Some t => t | None => [] end in
      let voiceId := match voiceId with Some v => v | None => DEFAULT_VOICE end in
      let clean := firstn 500 (trim text) in
      if truthy clean
      then
        match fetch {| api_key := apiKey; voice := voiceId; spoken := clean |} with
        | TtsThrows =>
            {| tts_status := 500; tts_json := TtsFailure (lit "TTS_PROXY_FAILED") |}
        | TtsAnswers status audio =>
            if http_ok status
            then {| tts_status := 200; tts_json := Audio audio |}
            else {| tts_status := 502;
                    tts_json := TtsFailure (lit "ELEVEN_HTTP_"
                                            ++ decimal (N.of_nat status)) |}
        end
      else {| tts_status := 400; tts_json := TtsFailure (lit "EMPTY_TEXT") |}
  end.

(** ** The words of a transcript without timings ([POST /asr], [part_001],
       l. 240-249) *)

(** [(recognizedText || '').split(/\s+/).filter(Boolean)] *)
Definition fallback_words (recognizedText : jsstring) : list jsstring :=
  filter_Boolean (split_re m_spaces recognizedText).

Section Timestamps.

(** The numbers of the engine with their addition, and the numbers that
    the literals [0.4] and [0.8] denote. *)
Variable num : Type.
Variable zero : num.
Variable add : num -> num -> num.
Variable c04 c08 : num.

Record word_timestamp : Type := { word : jsstring; tStart : num; tEnd : num }.

(** [words.map(w => { const start = t; const end = t + 0.4; t += 0.8;
    return { word: w, tStart: start, tEnd: end }; })] *)
Fixpoint spread (t : num) (words : list jsstring) : list word_timestamp :=
  match words with
  | [] => []
  | w :: rest =>
      {| word := w; tStart := t; tEnd := add t c04 |} :: spread (add t c08) rest
  end.

Definition fallback_timestamps (recognizedText : jsstring) : list word_timestamp :=
  spread zero (fallback_words recognizedText).

(** [Number(wordTimestamps.length || 0)] *)
Definition wordsRead (wordTimestamps : list word_timestamp) : nat :=
  length wordTimestamps.

End Timestamps.

(** The pattern matches nowhere in the text, its end included. *)
Fixpoint matches_nowhere (m : matcher) (prev : option N) (s : list N) : bool :=
  match m prev s with
  | Some _ => false
  | None =>
      match s with
      | [] => true
      | c :: t => matches_nowhere m (Some c) t
      end
  end.

(** A character that [tightenMotivation] removes, alone or in a pair: a
    quotation mark of any kind, an apostrophe or a parenthesis. *)
Definition isQuoting (c : N) : bool :=
  inClass quote_class c || inClass span_class c.

(** ** Further sample worlds and texts *)

(** Groq answers after 50 ms with white space only; OpenAI answers after
    300 ms with a greeting. *)
Definition blank_groq : world :=
  {| groq_reply := HttpAnswers 50 200 (Some (lit "   "));
     openai_reply :=
       SdkReturns 300 (Some (lit "- Dziś razem odkryjemy nowy rozdział bajki."));
     random := 0;
     other_answer := {| status := 200; json := ServiceInfo |} |}.

(** Groq answers after 50 ms with full stops only. *)
Definition dots_only : world :=
  {| groq_reply := HttpAnswers 50 200 (Some (lit ". . ."));
     openai_reply := SdkHangs;
     random := 0;
     other_answer := {| status := 200; json := ServiceInfo |} |}.

(** A speech service that answers every call with three bytes, and one that
    fails on a text of more than 500 characters. *)
Definition speaks : tts_call -> tts_reply :=
  fun _ => TtsAnswers 200 [73; 68; 51].

Definition speaks_briefly : tts_call -> tts_reply :=
  fun call =>
    if (length (spoken call) <=? 500)%nat
    then TtsAnswers 200 [73; 68; 51]
    else TtsThrows.


(** * Properties *)

(** ** Strings and sets of tokens *)

Lemma str_eqb_true (a b : jsstring) : str_eqb a b = true <-> a = b.
Proof. unfold str_eqb. destruct (decide (a = b)); split; congruence. Qed.

Lemma has_elem (B : list jsstring) (w : jsstring) : has B w = true <-> w ∈ B.
Proof.
  unfold has. rewrite existsb_exists. split.
  - intros (x & Hx & Heq). apply str_eqb_true in Heq. subst.
    by apply list_elem_of_In.
  - intros Hw. exists w. split; [by apply list_elem_of_In | by apply str_eqb_true].
Qed.

Lemma uniq_go_elem (seen l : list jsstring) (x : jsstring) :
  x ∈ uniq_go seen l <-> x ∈ l /\ x ∉ seen.
Proof.
  revert seen. induction l as [|y l IH]; intros seen; simpl.
  - split; [intros H; inversion H | intros [H _]; inversion H].
  - destruct (existsb (str_eqb y) seen) eqn:E.
    + change (has seen y = true) in E. apply has_elem in E.
      rewrite IH, elem_of_cons.
      split.
      * intros [H1 H2]; auto.
      * intros [[-> | H1] H2]; [done | auto].
    + assert (y ∉ seen) as Hy.
      { intros H. apply has_elem in H. unfold has in H. congruence. }
      rewrite elem_of_cons, IH, not_elem_of_cons, elem_of_cons.
      split.
      * intros [-> | [H1 [H2 H3]]]; auto.
      * intros [[-> | H1] H2]; auto.
        destruct (decide (x = y)) as [-> | Hne]; auto.
Qed.

Lemma uniq_go_NoDup (seen l : list jsstring) : NoDup (uniq_go seen l).
Proof.
  revert seen. induction l as [|y l IH]; intros seen; simpl.
  - constructor.
  - destruct (existsb (str_eqb y) seen); [apply IH |].
    constructor; [| apply IH].
    rewrite uniq_go_elem, not_elem_of_cons. tauto.
Qed.

Lemma new_Set_elem (l : list jsstring) (x : jsstring) : x ∈ new_Set l <-> x ∈ l.
Proof.
  unfold new_Set. rewrite uniq_go_elem. split; [tauto |].
  intros H. split; [done |]. apply not_elem_of_nil.
Qed.

Lemma new_Set_NoDup (l : list jsstring) : NoDup (new_Set l).
Proof. apply uniq_go_NoDup. Qed.

Lemma filter_elem {X : Type} (p : X -> bool) (l : list X) (x : X) :
  x ∈ List.filter p l <-> x ∈ l /\ p x = true.
Proof. rewrite !list_elem_of_In. apply filter_In. Qed.

Lemma filter_NoDup {X : Type} (p : X -> bool) (l : list X) :
  NoDup l -> NoDup (List.filter p l).
Proof.
  induction 1 as [|x l Hx Hl IH]; simpl; [constructor |].
  destruct (p x); [| done].
  constructor; [| done]. rewrite filter_elem. tauto.
Qed.

(** The loop of [jaccard] counts the intersection of the two token sets,
    and the denominator is the size of their union. *)
Lemma count_inter_size (A B : list jsstring) :
  NoDup A ->
  count_inter A B
  = size ((list_to_set A : gset jsstring) ∩ (list_to_set B : gset jsstring)).
Proof.
  intros HA. unfold count_inter.
  rewrite <- (size_list_to_set (C := gset jsstring)) by by apply filter_NoDup.
  apply set_size_proper. intros w.
  rewrite elem_of_list_to_set, filter_elem, has_elem.
  by rewrite elem_of_intersection, !elem_of_list_to_set.
Qed.

Lemma union_size (A B : list jsstring) :
  NoDup A -> NoDup B ->
  (length A + length B - count_inter A B)%nat
  = size ((list_to_set A : gset jsstring) ∪ (list_to_set B : gset jsstring)).
Proof.
  intros HA HB. rewrite count_inter_size by done.
  pose proof (size_union_alt (list_to_set A : gset jsstring) (list_to_set B)) as Hu.
  pose proof (size_difference_alt (list_to_set B : gset jsstring) (list_to_set A)) as Hd.
  pose proof (intersection_comm_L (list_to_set B : gset jsstring) (list_to_set A)) as Hc.
  rewrite Hc in Hd.
  rewrite !size_list_to_set in Hu, Hd by done.
  assert (size ((list_to_set A : gset jsstring) ∩ list_to_set B) <= length B)%nat.
  { rewrite <- (size_list_to_set (C := gset jsstring) B) by done.
    apply subseteq_size, intersection_subseteq_r. }
  assert (size ((list_to_set A : gset jsstring) ∩ list_to_set B) <= length A)%nat.
  { rewrite <- (size_list_to_set (C := gset jsstring) A) by done.
    apply subseteq_size, intersection_subseteq_l. }
  lia.
Qed.

Lemma count_inter_comm (A B : list jsstring) :
  NoDup A -> NoDup B -> count_inter A B = count_inter B A.
Proof.
  intros HA HB. rewrite !count_inter_size by done.
  pose proof (intersection_comm_L (list_to_set A : gset jsstring) (list_to_set B)) as Hc.
  by rewrite Hc.
Qed.

Lemma filter_all {X : Type} (p : X -> bool) (l : list X) :
  (forall x, x ∈ l -> p x = true) -> List.filter p l = l.
Proof.
  induction l as [|x l IH]; intros H; simpl; [done |].
  rewrite (H x) by apply list_elem_of_here.
  f_equal. apply IH. intros y Hy. by apply H, list_elem_of_further.
Qed.

Lemma filter_none {X : Type} (p : X -> bool) (l : list X) :
  (forall x, x ∈ l -> p x = false) -> List.filter p l = [].
Proof.
  induction l as [|x l IH]; intros H; simpl; [done |].
  rewrite (H x) by apply list_elem_of_here.
  apply IH. intros y Hy. by apply H, list_elem_of_further.
Qed.

Lemma count_inter_self (A : list jsstring) : count_inter A A = length A.
Proof.
  unfold count_inter. f_equal. apply filter_all.
  intros w Hw. by apply has_elem.
Qed.

Lemma ratio_self (n : nat) : (0 < n)%nat -> ratio n n = 1%Q.
Proof.
  intros Hn. unfold ratio. transitivity (Qred 1); [| reflexivity].
  apply Qred_complete.
  unfold Qeq. simpl. rewrite Z.mul_1_r, Z.mul_1_l.
  destruct n as [|n]; [lia |].
  rewrite <- positive_nat_Z, Nat2Pos.id by lia. done.
Qed.

Lemma ratio_zero (d : nat) : ratio 0 d = 0%Q.
Proof.
  unfold ratio. transitivity (Qred 0); [| reflexivity].
  apply Qred_complete. unfold Qeq. simpl. lia.
Qed.

Lemma length_zero_iff {X : Type} (l : list X) : (length l =? 0)%nat = true <-> l = [].
Proof. destruct l; simpl; split; intros H; try done. Qed.

Lemma new_Set_nil (l : list jsstring) : new_Set l = [] <-> l = [].
Proof.
  split; [| by intros ->].
  destruct l as [|x l]; [done |]. unfold new_Set. simpl. discriminate.
Qed.

(** ** Novelty selection *)

Section Novelty.

Context (U : Unicode).

Lemma or_else_nil (a : jsstring) : or_else a [] = a.
Proof. by destruct a. Qed.

Lemma first_or_empty_cons (c : jsstring) (cs : list jsstring) :
  first_or_empty (c :: cs) = c.
Proof. apply or_else_nil. Qed.

(** The loop keeps in [best] either the initial empty string or one of the
    candidates it has gone through. *)
Lemma novel_loop_best (hist cands : list jsstring) (st : jsstring * Q) :
  fst (fold_left (novel_step U hist) cands st) = fst st
  \/ fst (fold_left (novel_step U hist) cands st) ∈ cands.
Proof.
  revert st. induction cands as [|c cs IH]; intros st; simpl; [by left |].
  destruct (IH (novel_step U hist st c)) as [H | H].
  - rewrite H. unfold novel_step.
    destruct (Qltb _ _); simpl; [right; apply list_elem_of_here | by left].
  - right. by apply list_elem_of_further.
Qed.

(** C5. For every non-empty candidate list, novelty selection returns one of
    the candidates, whatever the history; when the history is absent or
    empty it returns the first candidate. *)
Theorem chooseMostNovel_picks_a_candidate
    (c : jsstring) (cs : list jsstring) (history : option (list jsstring)) :
  chooseMostNovel U (c :: cs) history ∈ c :: cs
  /\ chooseMostNovel U (c :: cs) None = c
  /\ chooseMostNovel U (c :: cs) (Some []) = c.
Proof.
  split; [| split; apply first_or_empty_cons].
  destruct history as [[|h hist] |]; unfold chooseMostNovel;
    rewrite first_or_empty_cons; try apply list_elem_of_here.
  destruct (novel_loop_best (h :: hist) (c :: cs) ([], 1%Q)) as [H | H].
  - rewrite H. apply list_elem_of_here.
  - unfold or_else.
    destruct (truthy _); [exact H | apply list_elem_of_here].
Qed.

End Novelty.

(** ** Jaccard similarity *)

Lemma disjoint_tokens_check (U : Unicode) (a b : jsstring) :
  forallb (fun w => negb (has (tokens U b) w)) (tokens U a) = true ->
  disjoint_tokens U a b.
Proof.
  intros H w Ha Hb. rewrite forallb_forall in H.
  apply list_elem_of_In in Ha. specialize (H w Ha).
  apply has_elem in Hb. rewrite Hb in H. discriminate.
Qed.

(** C6, as the code has it.  The similarity is symmetric, it is 1 for a
    string and itself, and it is 0 for two strings whose token sets are
    disjoint and not both empty. *)
Theorem jaccard_symmetric_reflexive_disjoint (U : Unicode) (a b : jsstring) :
  jaccard U a b = jaccard U b a
  /\ jaccard U a a = 1%Q
  /\ (disjoint_tokens U a b ->
      tokens U a <> [] \/ tokens U b <> [] ->
      jaccard U a b = 0%Q).
Proof.
  unfold jaccard. repeat split.
  - rewrite (andb_comm (length (new_Set (tokens U b)) =? 0)%nat).
    destruct (_ && _); [done |].
    rewrite (count_inter_comm (new_Set (tokens U b))) by apply new_Set_NoDup.
    by rewrite (Nat.add_comm (length (new_Set (tokens U b)))).
  - destruct (length (new_Set (tokens U a)) =? 0)%nat eqn:E; simpl; [done |].
    rewrite count_inter_self.
    replace (_ + _ - _)%nat with (length (new_Set (tokens U a))) by lia.
    apply ratio_self. apply Nat.eqb_neq in E. lia.
  - intros Hdis Hne.
    destruct (_ && _) eqn:E.
    + apply andb_true_iff in E as [Ea Eb].
      apply (proj1 (length_zero_iff _)), (proj1 (new_Set_nil _)) in Ea.
      apply (proj1 (length_zero_iff _)), (proj1 (new_Set_nil _)) in Eb.
      destruct Hne as [Hne | Hne]; contradiction.
    + unfold count_inter. rewrite filter_none; [apply ratio_zero |].
      intros w Hw. apply (proj1 (new_Set_elem _ _)) in Hw.
      destruct (has _ w) eqn:Eh; [| done].
      apply (proj1 (has_elem _ _)), (proj1 (new_Set_elem _ _)) in Eh.
      destruct (Hdis w Hw Eh).
Qed.

Lemma jaccard_symmetric_reflexive_disjoint_witness :
  jaccard Polish (lit "Ala ma kota") (lit "Pies je kość!") = 0%Q.
Proof.
  apply (jaccard_symmetric_reflexive_disjoint Polish
           (lit "Ala ma kota") (lit "Pies je kość!")).
  - apply disjoint_tokens_check. vm_compute. reflexivity.
  - left. vm_compute. discriminate.
Defined.

(** The claim of C6 about disjoint token sets fails where both sets are
    empty: the two strings below have no token at all, and score 1. *)
Lemma jaccard_empty_sets_counterexample :
  disjoint_tokens Polish (lit "") (lit "...")
  /\ jaccard Polish (lit "") (lit "...") <> 0%Q.
Proof.
  split.
  - apply disjoint_tokens_check. vm_compute. reflexivity.
  - vm_compute. discriminate.
Qed.

(** ** Candidate parsing *)

Lemma skipn_run_length (p : N -> bool) (s : list N) :
  skipn (run_length p s) s = skip_while p s.
Proof.
  induction s as [|c s IH]; simpl; [done |].
  destruct (p c); simpl; done.
Qed.

Lemma uniq_go_snoc (seen l : list jsstring) (x : jsstring) :
  uniq_go seen (l ++ [x])
  = uniq_go seen l ++ (if has (l ++ seen) x then [] else [x]).
Proof.
  revert seen. induction l as [|y l IH]; intros seen.
  - simpl. change (existsb (str_eqb x) seen) with (has seen x).
    destruct (has seen x); done.
  - rewrite <- !app_comm_cons. cbn [uniq_go].
    change (existsb (str_eqb y) seen) with (has seen y).
    destruct (has seen y) eqn:E; rewrite IH.
    + f_equal.
      assert (has (l ++ seen) x = has (y :: l ++ seen) x) as ->; [| done].
      apply eq_true_iff_eq. rewrite !has_elem, elem_of_cons, !elem_of_app.
      apply (proj1 (has_elem _ _)) in E. split; [tauto |].
      intros [-> | H]; tauto.
    + rewrite <- app_comm_cons. do 2 f_equal.
      assert (has (l ++ y :: seen) x = has (y :: l ++ seen) x) as ->; [| done].
      apply eq_true_iff_eq.
      rewrite !has_elem, elem_of_cons, !elem_of_app, elem_of_cons. tauto.
Qed.

Lemma new_Set_snoc (l : list jsstring) (x : jsstring) :
  new_Set (l ++ [x]) = new_Set l ++ (if has l x then [] else [x]).
Proof. unfold new_Set. rewrite uniq_go_snoc, app_nil_r. done. Qed.

Lemma filter_sublist {X : Type} (p : X -> bool) (l : list X) :
  List.filter p l `sublist_of` l.
Proof.
  induction l as [|x l IH]; simpl; [constructor |].
  destruct (p x); by constructor.
Qed.

Lemma map_filter_sublist {X Y : Type} (f : X -> Y) (p : X -> bool) (l : list X) :
  List.map f (List.filter p l) `sublist_of` List.map f l.
Proof.
  induction l as [|x l IH]; simpl; [constructor |].
  destruct (p x); simpl; by constructor.
Qed.

Section Parsing.

Context (U : Unicode).

(** What [strip_marker] takes away is the leading run of marker characters
    together with the white space that follows it. *)
Lemma strip_marker_run (l : jsstring) :
  strip_marker l
  = match run_length isMarker l with
    | O => l
    | _ => skip_while isSpace (skip_while isMarker l)
    end.
Proof.
  unfold strip_marker, replace_start, m_marker.
  destruct (run_length isMarker l) as [|n] eqn:E; [done |].
  rewrite <- E. cbn [app].
  rewrite Nat.add_comm, <- skipn_skipn. by rewrite !skipn_run_length.
Qed.

Lemma parse_items_elem (text s : jsstring) :
  s ∈ parse_items text
  <-> s <> []
      /\ exists line, line ∈ split_re m_newline text
                      /\ trim line <> []
                      /\ s = strip_marker (trim line).
Proof.
  unfold parse_items, parse_lines, filter_Boolean.
  rewrite filter_elem, !list_elem_of_In, in_map_iff. split.
  - intros [(l & <- & Hl) Hs].
    apply list_elem_of_In, filter_elem in Hl as [Hl Hl'].
    apply list_elem_of_In, in_map_iff in Hl as (line & <- & Hline).
    split; [by destruct (strip_marker (trim line)) |].
    exists line. rewrite list_elem_of_In. repeat split; [done |].
    by destruct (trim line).
  - intros [Hs (line & Hline & Hne & ->)]. split.
    + exists (trim line). split; [done |].
      apply list_elem_of_In, filter_elem. split.
      * apply list_elem_of_In, in_map_iff. exists line.
        by rewrite <- list_elem_of_In.
      * by destruct (trim line).
    + by destruct (strip_marker (trim line)).
Qed.

Lemma select_candidates_snoc (items : list jsstring) (x : jsstring) :
  select_candidates U (items ++ [x])
  = if has items x then select_candidates U items
    else if wc_ok U x && (length (select_candidates U items) <? 20)%nat
         then select_candidates U items ++ [x]
         else select_candidates U items.
Proof.
  unfold select_candidates. rewrite new_Set_snoc.
  destruct (has items x); [by rewrite app_nil_r |].
  rewrite List.filter_app. simpl.
  destruct (wc_ok U x); simpl; [| by rewrite app_nil_r].
  set (F := List.filter (wc_ok U) (new_Set items)).
  rewrite length_firstn.
  destruct (Nat.ltb_spec (Nat.min 20 (length F)) 20) as [Hlt | Hge].
  - rewrite firstn_app.
    rewrite (firstn_all2 (n := 20) F) by lia.
    replace (20 - length F)%nat with (S (19 - length F)) by lia.
    simpl. by rewrite firstn_nil.
  - rewrite firstn_app.
    replace (20 - length F)%nat with O by lia.
    simpl. by rewrite app_nil_r.
Qed.


End Parsing.

(** ** The accuracy score *)

Lemma exact_round_percent_range (inter den : nat) :
  (inter <= den)%nat -> (0 < den)%nat ->
  (0 <= exact_round_percent inter den <= 100)%Z.
Proof.
  intros Hle Hpos. unfold exact_round_percent. split.
  - apply Z.div_pos; lia.
  - apply Z.lt_succ_r, Z.div_lt_upper_bound; lia.
Qed.

Section Accuracy.

Context (U : Unicode).
Variable round_percent : nat -> nat -> Z.

(** Rounding a quotient between 0 and 1, taken to a percentage, gives an
    integer between 0 and 100. *)
Hypothesis round_percent_range :
  forall inter den,
    (inter <= den)%nat -> (0 < den)%nat ->
    (0 <= round_percent inter den <= 100)%Z.

Lemma norm_tokens_NoDup (s : jsstring) : NoDup (norm_tokens U s).
Proof. apply new_Set_NoDup. Qed.

Lemma list_to_set_empty_iff (l : list jsstring) :
  (list_to_set l : gset jsstring) = ∅ <-> l = [].
Proof.
  split; [| by intros ->].
  destruct l as [|x l]; [done |]. simpl. intros H.
  assert (x ∈ (∅ : gset jsstring)) as Hx.
  { rewrite <- H. by apply elem_of_union_l, elem_of_singleton. }
  by apply not_elem_of_empty in Hx.
Qed.

Lemma jacc_jaccard_percent (a b : jsstring) :
  jacc U round_percent a b
  = jaccard_percent round_percent (token_set U a) (token_set U b).
Proof.
  unfold jacc, jaccard_percent, token_set.
  destruct (_ && _) eqn:E.
  - apply andb_true_iff in E as [Ea Eb].
    apply (proj1 (length_zero_iff _)) in Ea, Eb. rewrite Ea, Eb.
    rewrite decide_True; done.
  - rewrite decide_False.
    + rewrite union_size, count_inter_size by apply norm_tokens_NoDup. done.
    + intros [Ha Hb]. apply list_to_set_empty_iff in Ha, Hb.
      rewrite Ha, Hb in E. discriminate.
Qed.

Lemma jacc_range (a b : jsstring) : (0 <= jacc U round_percent a b <= 100)%Z.
Proof.
  unfold jacc. destruct (_ && _) eqn:E; [lia |].
  pose proof (count_inter_size (norm_tokens U a) (norm_tokens U b)
                (norm_tokens_NoDup a)) as Hi.
  pose proof (union_size (norm_tokens U a) (norm_tokens U b)
                (norm_tokens_NoDup a) (norm_tokens_NoDup b)) as Hu.
  assert (count_inter (norm_tokens U a) (norm_tokens U b)
          <= length (norm_tokens U a))%nat as Hle.
  { unfold count_inter. apply filter_length_le. }
  assert (count_inter (norm_tokens U a) (norm_tokens U b)
          <= length (norm_tokens U b))%nat as Hle'.
  { rewrite count_inter_comm by apply norm_tokens_NoDup.
    unfold count_inter. apply filter_length_le. }
  apply round_percent_range; [lia |].
  apply andb_false_iff in E as [E | E]; apply Nat.eqb_neq in E; lia.
Qed.


End Accuracy.


(** ** The race *)

Section RaceProps.

Context {A : Type}.

Lemma first_fulfilled_late (d : nat) (ps : list (promise A)) :
  forallb (fun p => negb (fulfils_before d p)) ps = true ->
  match first_fulfilled ps with
  | Some (t, _) => (d <= t)%nat
  | None => True
  end.
Proof.
  induction ps as [|p ps IH]; simpl; [done |].
  intros H. apply andb_true_iff in H as [Hp Hps]. specialize (IH Hps).
  destruct p as [t v | t e |]; simpl in *; try done.
  apply negb_true_iff, Nat.ltb_ge in Hp.
  destruct (first_fulfilled ps) as [[t' v'] |]; [| done].
  destruct (t' <? t)%nat; done.
Qed.

Lemma first_fulfilled_none (ps : list (promise A)) :
  first_fulfilled ps = None ->
  existsb is_pending ps = false ->
  List.map (fun te => Rejected (fst te) (snd te)) (rejections ps) = ps.
Proof.
  induction ps as [|p ps IH]; simpl; [done |].
  destruct p as [t v | t e |]; simpl.
  - destruct (first_fulfilled ps) as [[t' v'] |]; [destruct (t' <? t)%nat |]; done.
  - intros H1 H2. f_equal. by apply IH.
  - done.
Qed.

Lemma rejections_late (d : nat) (ps : list (promise A)) :
  existsb (fun p => negb (rejects_before d p)) ps = true ->
  first_fulfilled ps = None ->
  existsb is_pending ps = false ->
  (d <= fold_right Nat.max O (List.map fst (rejections ps)))%nat.
Proof.
  induction ps as [|p ps IH]; simpl; [done |].
  destruct p as [t v | t e |]; simpl.
  - destruct (first_fulfilled ps) as [[t' v'] |]; [destruct (t' <? t)%nat |]; done.
  - intros H Hf Hp. apply orb_true_iff in H as [H | H].
    + apply negb_true_iff, Nat.ltb_ge in H. lia.
    + specialize (IH H Hf Hp). lia.
  - done.
Qed.

(** Without a fulfilment before the timer, and with a participant that has
    not rejected before it, the deadline wins. *)
Lemma withDeadline_exceeded (ps : list (promise A)) (ms : nat) :
  forallb (fun p => negb (fulfils_before (timer_at ms) p)) ps = true ->
  existsb (fun p => negb (rejects_before (timer_at ms) p)) ps = true ->
  withDeadline (Promise_any ps) ms
  = (timer_at ms, Throw (Error (lit "DEADLINE_EXCEEDED"))).
Proof.
  intros Hf Hr. pose proof (first_fulfilled_late _ _ Hf) as Hlate.
  unfold Promise_any.
  destruct (first_fulfilled ps) as [[t v] |] eqn:E.
  - unfold withDeadline. apply Nat.ltb_ge in Hlate. by rewrite Hlate.
  - destruct (existsb is_pending ps) eqn:Ep; [done |].
    pose proof (rejections_late _ _ Hr E Ep) as Hmax.
    unfold withDeadline. apply Nat.ltb_ge in Hmax. by rewrite Hmax.
Qed.

(** An empty race rejects in the turn of the call, whatever the deadline. *)
Lemma withDeadline_empty (ms : nat) :
  withDeadline (Promise_any ([] : list (promise A))) ms
  = (O, Throw (AggregateError [])).
Proof.
  unfold Promise_any, withDeadline, timer_at. simpl.
  destruct (Nat.ltb_spec 0 (Nat.max 1 ms)); [done | lia].
Qed.

End RaceProps.

Section ServerProps.

Context (U : Unicode).
Variable cfg : config.

Lemma on_error_deadline :
  on_error (Error (lit "DEADLINE_EXCEEDED")) = {| status := 504; json := TimedOut |}.
Proof. reflexivity. Qed.

Lemma on_error_aggregate (errors : list js_error) :
  on_error (AggregateError errors)
  = {| status := 502; json := Failure AGGREGATE_MESSAGE |}.
Proof. reflexivity. Qed.

(** C1, as the code has it.  With neither provider configured the race
    rejects in the turn of the call, before the timer of any deadline, with
    the aggregate error of an empty [Promise.any]; the greeting endpoint
    and, outside mock mode, the text-generation endpoint answer 502 with the
    message of that error, and the greeting history stays as it was. *)
Theorem no_provider_fails_at_once (w : world) :
  GROQ_API_KEY cfg = false ->
  openai cfg = false ->
  race cfg w = (O, Throw (AggregateError []))
  /\ (forall name age st,
        post_generate_greeting U cfg name age w st
        = ({| status := 502; json := Failure AGGREGATE_MESSAGE |}, st))
  /\ (MOCK_TEXT cfg = false ->
      forall language level,
        post_generate_text U cfg language level w
        = {| status := 502; json := Failure AGGREGATE_MESSAGE |}).
Proof.
  intros Hg Ho.
  assert (race cfg w = (O, Throw (AggregateError []))) as Hrace.
  { unfold race, racers. rewrite Hg, Ho. apply withDeadline_empty. }
  split; [done |]. split.
  - intros name age st.
    unfold post_generate_greeting, generateGreetingV2. by rewrite Hrace.
  - intros Hm language level.
    unfold post_generate_text. by rewrite Hm, Hrace.
Qed.


End ServerProps.

Lemma no_provider_fails_at_once_witness :
  post_generate_greeting Polish no_provider (lit "Zosia") (Some 7%Z) silence ∅
  = ({| status := 502; json := Failure AGGREGATE_MESSAGE |}, ∅).
Proof.
  apply (no_provider_fails_at_once Polish no_provider silence);
    reflexivity.
Defined.

(** The answer to a request made without any provider bears no code of its
    own, such as the NO_PROVIDER of [POST /asr]: it is the very answer given
    when both configured providers fail. *)
Lemma no_provider_counterexample :
  json (fst (post_generate_greeting Polish no_provider
               (lit "Zosia") (Some 7%Z) silence ∅))
  <> Failure (lit "NO_PROVIDER")
  /\ fst (post_generate_greeting Polish no_provider
            (lit "Zosia") (Some 7%Z) silence ∅)
     = fst (post_generate_greeting Polish both_providers
              (lit "Zosia") (Some 7%Z) both_fail ∅)
  /\ post_generate_text Polish no_provider (lit "pl") (lit "A1") silence
     = post_generate_text Polish both_providers (lit "pl") (lit "A1") both_fail.
Proof.
  split; [vm_compute; discriminate |].
  split; vm_compute; reflexivity.
Qed.



(** ** The greeting history *)

Section History.

Context (U : Unicode).
Variable cfg : config.

(** What a request does to the history: nothing, or, for a greeting that is
    answered with a text, the text is put in front of the list of its
    profile key and the list is cut to 20. *)
Lemma serve_history (req : request) (w : world)
    (st : gmap jsstring (list jsstring)) :
  snd (serve U cfg req w st) = st
  \/ exists name age t src,
       req = GenerateGreeting name age
       /\ fst (serve U cfg req w st) = {| status := 200; json := Generated t src |}
       /\ snd (serve U cfg req w st)
          = <[profileKey U name age :=
                firstn 20 (t :: history_of st (profileKey U name age))]> st.
Proof.
  destruct req as [name age | language level | |]; simpl;
    [| by left | by left | by left].
  unfold post_generate_greeting, generateGreetingV2.
  destruct (snd (race cfg w)) as [win | e]; [| by left].
  destruct (candidates U (text win)) as [|c cs]; [by left |].
  right. by exists name, age, (final_text U name (c :: cs)
    (history_of st (profileKey U name age))),
    (or_else (provider win) (lit "unknown")).
Qed.

Lemma serve_bounded (req : request) (w : world)
    (st : gmap jsstring (list jsstring)) :
  bounded_history st -> bounded_history (snd (serve U cfg req w st)).
Proof.
  intros Hst.
  destruct (serve_history req w st) as [-> | (name & age & t & src & _ & _ & ->)];
    [done |].
  intros key h. rewrite lookup_insert. case_decide.
  - intros [= <-]. simpl. rewrite length_firstn. lia.
  - apply Hst.
Qed.

Lemma run_bounded (reqs : list (request * world))
    (st : gmap jsstring (list jsstring)) :
  bounded_history st -> bounded_history (run U cfg reqs st).
Proof.
  revert st. induction reqs as [|[req w] reqs IH]; intros st Hst; simpl; [done |].
  by apply IH, serve_bounded.
Qed.


(** When the sanitizer leaves nothing of the chosen candidate, the greeting
    endpoint answers with the candidate as the provider wrote it and stores
    it in front of the history. *)
Lemma empty_sanitization_fallback
    (name : jsstring) (age : option Z) (w : world)
    (st : gmap jsstring (list jsstring))
    (win : winner) (c : jsstring) (cs : list jsstring) :
  snd (race cfg w) = Return win ->
  candidates U (text win) = c :: cs ->
  sanitizeNoName U name
    (chooseMostNovel U (c :: cs)
       (Some (history_of st (profileKey U name age)))) = [] ->
  let picked :=
    chooseMostNovel U (c :: cs) (Some (history_of st (profileKey U name age))) in
  post_generate_greeting U cfg name age w st
  = ({| status := 200;
        json := Generated picked (or_else (provider win) (lit "unknown")) |},
     <[profileKey U name age :=
         firstn 20 (picked :: history_of st (profileKey U name age))]> st).
Proof.
  intros Hrace Hc Hs picked.
  unfold post_generate_greeting, generateGreetingV2.
  rewrite Hrace, Hc. unfold final_text. fold picked.
  subst picked. rewrite Hs. done.
Qed.

End History.

(** C10. When the sanitizer leaves nothing of the chosen candidate, the
    greeting endpoint answers with the candidate as the provider wrote it
    and stores it in front of the history.  It does happen: for a child
    called Zosia and a provider whose only line greets her by name, the
    answer begins with a forbidden greeting word and holds the name. *)
Theorem empty_sanitization_returns_the_raw_candidate :
  (forall (U : Unicode) (cfg : config) (name : jsstring) (age : option Z)
          (w : world) (st : gmap jsstring (list jsstring))
          (win : winner) (c : jsstring) (cs : list jsstring),
      snd (race cfg w) = Return win ->
      candidates U (text win) = c :: cs ->
      sanitizeNoName U name
        (chooseMostNovel U (c :: cs)
           (Some (history_of st (profileKey U name age)))) = [] ->
      post_generate_greeting U cfg name age w st
      = ({| status := 200;
            json := Generated
                      (chooseMostNovel U (c :: cs)
                         (Some (history_of st (profileKey U name age))))
                      (or_else (provider win) (lit "unknown")) |},
         <[profileKey U name age :=
             firstn 20
               (chooseMostNovel U (c :: cs)
                  (Some (history_of st (profileKey U name age)))
                :: history_of st (profileKey U name age))]> st))
  /\ (exists t,
        fst (post_generate_greeting Polish groq_only
               (lit "Zosia") (Some 7%Z) greets_by_name ∅)
        = {| status := 200; json := Generated t (lit "groq") |}
        /\ begins_with_hello Polish t = true
        /\ occurs (lit "Zosia") t = true).
Proof.
  split.
  - intros U cfg name age w st win c cs. apply empty_sanitization_fallback.
  - exists (lit "Hej Zosia, otwórzmy dziś razem książkę!").
    repeat split; vm_compute; reflexivity.
Qed.

Lemma empty_sanitization_returns_the_raw_candidate_witness :
  post_generate_greeting Polish groq_only (lit "Zosia") (Some 7%Z) greets_by_name ∅
  = ({| status := 200;
        json := Generated (lit "Hej Zosia, otwórzmy dziś razem książkę!") (lit "groq") |},
     {[ lit "zosia|7" := [lit "Hej Zosia, otwórzmy dziś razem książkę!"] ]}).
Proof.
  pose proof (proj1 empty_sanitization_returns_the_raw_candidate
                Polish groq_only (lit "Zosia") (Some 7%Z) greets_by_name ∅
                {| provider := lit "groq";
                   text := lit "- Hej Zosia, otwórzmy dziś razem książkę!" |}
                (lit "Hej Zosia, otwórzmy dziś razem książkę!") []) as H.
  rewrite H; [| vm_compute; reflexivity ..].
  vm_compute. reflexivity.
Defined.

(** ** The greeting sanitizer on the example of the specification *)

(** C4. On the example of the specification the sanitizer returns its input,
    which still begins with the greeting word.  The word boundary that the
    pattern asks for after the greeting word is looked for between the
    accented letter and the space, neither of which is a word character
    (after the greeting word hej, which ends in an ASCII letter, the pattern
    does match, and takes all 28 characters of the text).  None of the six
    forms built from the name occurs in the result; the vocative of the
    name, which is not one of them, is still there. *)
Theorem sanitizeNoName_keeps_the_greeting :
  sanitizeNoName Polish (lit "Zosia") (lit "Cześć Zosiu, otwórzmy książkę!")
  = lit "Cześć Zosiu, otwórzmy książkę!"
  /\ begins_with_hello Polish
       (sanitizeNoName Polish (lit "Zosia") (lit "Cześć Zosiu, otwórzmy książkę!"))
     = true
  /\ boundary Polish (Some 263) (Some 32) = false
  /\ helloRe Polish None (decode (lit "Cześć Zosiu, otwórzmy książkę!")) = None
  /\ helloRe Polish None (decode (lit "Hej Zosiu, otwórzmy książkę!")) = Some 28%nat
  /\ mentions Polish (lit "Zosia")
       (sanitizeNoName Polish (lit "Zosia") (lit "Cześć Zosiu, otwórzmy książkę!"))
     = false
  /\ occurs (lit "Zosiu")
       (sanitizeNoName Polish (lit "Zosia") (lit "Cześć Zosiu, otwórzmy książkę!"))
     = true.
Proof. repeat split; vm_compute; reflexivity. Qed.

(** ** The motivation tightener *)

(** *** Closing and cutting *)

Lemma ends_terminal_snoc (s : jsstring) (c : N) :
  ends_terminal (s ++ [c]) = isTerminal c.
Proof. unfold ends_terminal. by rewrite rev_unit. Qed.

Lemma tm_close_ends (s : jsstring) : ends_terminal (tm_close s) = true.
Proof.
  unfold tm_close. destruct (ends_terminal s) eqn:E; [done |].
  by rewrite ends_terminal_snoc.
Qed.

Lemma tm_close_length (s : jsstring) :
  (length (tm_close s) <= S (length s))%nat
  /\ (ends_terminal s = true -> tm_close s = s).
Proof.
  unfold tm_close. destruct (ends_terminal s); split; try done; try lia.
  rewrite length_app. simpl. lia.
Qed.

Lemma skip_while_split (p : N -> bool) (s : list N) :
  exists pre, s = pre ++ skip_while p s /\ forallb p pre = true.
Proof.
  induction s as [|c s (pre & Hs & Hpre)]; simpl; [by exists [] |].
  destruct (p c) eqn:E.
  - exists (c :: pre). simpl. rewrite E, Hpre. split; [by f_equal | done].
  - by exists [].
Qed.

Lemma trimEnd_split (s : jsstring) :
  exists post, s = trimEnd s ++ post /\ forallb isSpace post = true.
Proof.
  unfold trimEnd. destruct (skip_while_split isSpace (rev s)) as (pre & Hs & Hpre).
  exists (rev pre). split.
  - rewrite <- rev_app_distr, <- Hs. by rewrite rev_involutive.
  - rewrite forallb_forall in *. intros x Hx. apply Hpre. by apply in_rev.
Qed.

Lemma trim_split (s : jsstring) :
  exists pre post,
    s = pre ++ trim s ++ post
    /\ forallb isSpace pre = true /\ forallb isSpace post = true.
Proof.
  unfold trim, trimStart.
  destruct (skip_while_split isSpace s) as (pre & Hs & Hpre).
  destruct (trimEnd_split (skip_while isSpace s)) as (post & Ht & Hpost).
  exists pre, post. by rewrite <- Ht.
Qed.

Lemma trim_length (s : jsstring) : (length (trim s) <= length s)%nat.
Proof.
  destruct (trim_split s) as (pre & post & Hs & _).
  rewrite Hs at 2. rewrite !length_app. lia.
Qed.

Lemma not_all_nonspace (n : nat) (s : list N) :
  forallb (fun c => negb (isSpace c)) (skipn n s) = false ->
  existsb isSpace s = true.
Proof.
  revert n. induction s as [|c s IH]; intros n; [by destruct n |].
  destruct n as [|n]; simpl.
  - destruct (isSpace c); simpl; [done |]. apply (IH O).
  - intros H. rewrite (IH n H). apply orb_true_r.
Qed.

(** On a text that holds white space, [\s+\S*$] matches from the last run of
    white space on: what is kept stops right before a white-space
    character. *)
Lemma last_word_cut (prev : option N) (s : list N) :
  existsb isSpace s = true ->
  exists c k,
    s = replace_first_go m_last_word [] prev s ++ c :: k
    /\ isSpace c = true.
Proof.
  revert prev. induction s as [|c s IH]; intros prev Hs; [done |].
  cbn [replace_first_go]. unfold m_last_word at 1.
  destruct (run_length isSpace (c :: s)) as [|n] eqn:Erun.
  - simpl in Erun, Hs. destruct (isSpace c) eqn:Ec; [done |].
    destruct (IH (Some c) Hs) as (c' & k & Heq & Hc').
    exists c', k. split; [| done]. simpl. by f_equal.
  - destruct (forallb _ (skipn (S n) (c :: s))) eqn:Eall.
    + exists c, s. split.
      * simpl app. by rewrite skipn_all.
      * simpl in Erun. by destruct (isSpace c).
    + simpl in Eall. apply not_all_nonspace in Eall.
      destruct (IH (Some c) Eall) as (c' & k & Heq & Hc').
      exists c', k. split; [| done]. simpl. by f_equal.
Qed.

Lemma replace_first_last_word_prefix (prev : option N) (s : list N) :
  replace_first_go m_last_word [] prev s `prefix_of` s.
Proof.
  revert prev. induction s as [|c s IH]; intros prev.
  - simpl. by exists [].
  - cbn [replace_first_go]. destruct (m_last_word prev (c :: s)) as [n |] eqn:E.
    + unfold m_last_word in E.
      destruct (run_length isSpace (c :: s)); [done |].
      destruct (forallb _ _); [| done].
      assert (n = length (c :: s)) as -> by congruence.
      rewrite skipn_all. by exists (c :: s).
    + by apply prefix_cons.
Qed.

(** A text that is over the cap and has white space among its first
    [maxChars] characters is cut right before a white-space character, and
    what is kept is shorter than the cap. *)
Lemma tm_cut_at_space (maxChars : nat) (s : jsstring) :
  (maxChars < length s)%nat ->
  existsb isSpace (firstn maxChars s) = true ->
  (length (tm_cut maxChars s) < maxChars)%nat
  /\ exists pre c rest,
       s = pre ++ tm_cut maxChars s ++ c :: rest
       /\ forallb isSpace pre = true
       /\ isSpace c = true.
Proof.
  intros Hlen Hsp. unfold tm_cut.
  apply Nat.ltb_lt in Hlen as Hlt. rewrite Hlt.
  unfold replace_first.
  destruct (last_word_cut None _ Hsp) as (c & k & Heq & Hc).
  remember (replace_first_go m_last_word [] None (firstn maxChars s)) as y eqn:Ey.
  clear Ey.
  destruct (trim_split y) as (pre & post & Hy & Hpre & Hpost).
  pose proof (trim_length y) as Ht.
  remember (trim y) as T eqn:ET. clear ET.
  assert (s = y ++ c :: k ++ skipn maxChars s) as Hs.
  { rewrite <- (firstn_skipn maxChars s) at 1. rewrite Heq.
    by rewrite <- app_assoc. }
  split.
  - assert (length (firstn maxChars s) <= maxChars)%nat as Hf
      by apply firstn_le_length.
    rewrite Heq, length_app in Hf. simpl in Hf. lia.
  - rewrite Hy in Hs. destruct post as [|c' post].
    + exists pre, c, (k ++ skipn maxChars s). repeat split; try done.
      rewrite Hs at 1. by rewrite app_nil_r, <- app_assoc.
    + exists pre, c', (post ++ c :: k ++ skipn maxChars s).
      repeat split; try done.
      * rewrite Hs at 1. by rewrite <- !app_assoc.
      * simpl in Hpost. by apply andb_true_iff in Hpost as [? _].
Qed.

Lemma tm_cut_length (maxChars : nat) (s : jsstring) :
  (length (tm_cut maxChars s) <= length s)%nat.
Proof.
  unfold tm_cut. destruct (maxChars <? length s)%nat; [| done].
  etrans; [apply trim_length |].
  destruct (replace_first_last_word_prefix None (firstn maxChars s)) as (k & Hk).
  unfold replace_first.
  assert (length (firstn maxChars s) <= length s)%nat as Hf.
  { rewrite length_firstn. lia. }
  rewrite Hk, length_app in Hf. lia.
Qed.

(** *** Sentence-like segments *)

Lemma terminal_not_space (c : N) : isTerminal c = true -> isSpace c = false.
Proof.
  unfold isTerminal, inClass. simpl. rewrite !orb_true_iff.
  intros [H | [H | [H | [H | H]]]]; try done;
    apply N.eqb_eq in H; by subst.
Qed.

Lemma space_not_terminal (c : N) : isSpace c = true -> isTerminal c = false.
Proof.
  intros H. destruct (isTerminal c) eqn:E; [| done].
  apply terminal_not_space in E. congruence.
Qed.

Lemma run_length_space_head (c : N) (t : list N) (n : nat) :
  (S n <= run_length isSpace (c :: t))%nat ->
  isSpace c = true /\ (n <= run_length isSpace t)%nat.
Proof. simpl. destruct (isSpace c); [split; [done | lia] | lia]. Qed.

Lemma m_sentence_gap_cons (prev : option N) (c : N) (t : list N) :
  m_sentence_gap prev (c :: t)
  = if isTerminalOpt prev && isSpace c
    then Some (S (run_length isSpace t)) else None.
Proof.
  unfold m_sentence_gap, m_spaces. destruct prev as [p |]; simpl; [| done].
  destruct (isTerminal p); simpl; [| done].
  by destruct (isSpace c).
Qed.

Lemma split_gap_length (s : list N) (skip : nat) (prev : option N) (cur : list N) :
  (skip <= run_length isSpace s)%nat ->
  (skip <> O -> isTerminalOpt prev = false) ->
  length (split_go m_sentence_gap skip prev cur s) = S (gaps prev s).
Proof.
  revert skip prev cur. induction s as [|c t IH]; intros skip prev cur Hrun Hprev;
    [done |].
  cbn [split_go gaps]. destruct skip as [|k].
  - rewrite m_sentence_gap_cons.
    destruct (isTerminalOpt prev && isSpace c) eqn:E.
    + apply andb_true_iff in E as [_ Ec]. cbn [length].
      rewrite IH; [lia | lia |].
      intros _. simpl. by apply space_not_terminal.
    + rewrite IH; [lia | simpl; lia | done].
  - apply run_length_space_head in Hrun as [Hc Hk].
    rewrite Hprev by done. simpl.
    apply IH; [done |]. intros _. simpl. by apply space_not_terminal.
Qed.

Lemma sentence_count_gaps (s : jsstring) :
  (sentence_count s <= S (gaps None s))%nat.
Proof.
  unfold sentence_count, sentences, filter_Boolean.
  etrans; [apply filter_length_le |].
  unfold split_re. destruct s as [|c t]; [simpl; lia |].
  rewrite split_gap_length; [done | lia | done].
Qed.

Lemma gaps_app (p : option N) (x y : list N) :
  gaps p (x ++ y) = (gaps p x + gaps (last_char p x) y)%nat.
Proof.
  revert p. induction x as [|c x IH]; intros p; simpl; [done |].
  rewrite IH. unfold last_char. simpl. lia.
Qed.

Lemma gaps_prev (p q : option N) (s : list N) :
  isTerminalOpt p = isTerminalOpt q -> gaps p s = gaps q s.
Proof. destruct s as [|c s]; simpl; [done |]. by intros ->. Qed.

Lemma gaps_None_le (p : option N) (s : list N) : (gaps None s <= gaps p s)%nat.
Proof. destruct s as [|c s]; simpl; [done |]. lia. Qed.

Lemma gaps_infix (pre x post : list N) :
  (gaps None x <= gaps None (pre ++ x ++ post))%nat.
Proof.
  rewrite !gaps_app.
  pose proof (gaps_None_le (last_char None pre) x). lia.
Qed.

Lemma last_char_snoc (p : option N) (x : list N) (c : N) :
  last_char p (x ++ [c]) = Some c.
Proof. unfold last_char. by rewrite fold_left_app. Qed.

(** No piece of the split holds a place where the text would be split. *)
Lemma split_gap_pieces (s : list N) (skip : nat) (prev : option N) (cur : list N) :
  gaps None cur = O ->
  (cur = [] \/ (skip = O /\ last_char None cur = prev)) ->
  Forall (fun p => gaps None p = O) (split_go m_sentence_gap skip prev cur s).
Proof.
  revert skip prev cur. induction s as [|c t IH]; intros skip prev cur Hcur Hlast.
  - simpl. by constructor.
  - cbn [split_go]. destruct skip as [|k].
    + rewrite m_sentence_gap_cons.
      destruct (isTerminalOpt prev && isSpace c) eqn:E.
      * constructor; [done |]. apply IH; [done | by left].
      * apply IH.
        -- rewrite gaps_app, Hcur. simpl.
           destruct Hlast as [-> | [_ ->]]; [done |]. by rewrite E.
        -- right. split; [done | apply last_char_snoc].
    + destruct Hlast as [-> | [? _]]; [| done].
      apply IH; [done | by left].
Qed.

Lemma sentences_no_gap (s p : jsstring) : p ∈ sentences s -> gaps None p = O.
Proof.
  unfold sentences, filter_Boolean. rewrite filter_elem. intros [Hp _].
  unfold split_re in Hp. destruct s as [|c t].
  - simpl in Hp. apply list_elem_of_singleton in Hp. by subst.
  - pose proof (split_gap_pieces (c :: t) O None [] eq_refl (or_introl eq_refl)) as H.
    rewrite Forall_forall in H. by apply H.
Qed.

(** Two pieces joined by a space are split at that space at most. *)
Lemma join_two_gaps (l : list jsstring) :
  (forall p, p ∈ l -> gaps None p = O) ->
  (gaps None (join [32%N] (firstn 2 l)) <= 1)%nat.
Proof.
  intros H. destruct l as [|p1 [|p2 l]]; simpl.
  - lia.
  - rewrite app_nil_r, H; [lia | apply list_elem_of_here].
  - rewrite app_nil_r, gaps_app, H by apply list_elem_of_here.
    cbn [gaps app].
    rewrite (gaps_prev (Some 32) None) by done.
    rewrite H by (apply list_elem_of_further, list_elem_of_here).
    destruct (_ && _); lia.
Qed.

Lemma gaps_trim (s : jsstring) : (gaps None (trim s) <= gaps None s)%nat.
Proof.
  destruct (trim_split s) as (pre & post & Hs & _).
  rewrite Hs at 2. apply gaps_infix.
Qed.

Lemma gaps_prefix (x s : list N) :
  x `prefix_of` s -> (gaps None x <= gaps None s)%nat.
Proof. intros [k ->]. rewrite gaps_app. lia. Qed.

Lemma gaps_tm_cut (maxChars : nat) (s : jsstring) :
  (gaps None (tm_cut maxChars s) <= gaps None s)%nat.
Proof.
  unfold tm_cut. destruct (maxChars <? length s)%nat; [| done].
  etrans; [apply gaps_trim |]. apply gaps_prefix.
  etrans; [apply replace_first_last_word_prefix |].
  apply prefix_take.
Qed.

Lemma gaps_tm_close (s : jsstring) : gaps None (tm_close s) = gaps None s.
Proof.
  unfold tm_close. destruct (ends_terminal s); [done |].
  rewrite gaps_app. simpl. rewrite andb_false_r. lia.
Qed.

Lemma gaps_tm_sentences (s : jsstring) : (gaps None (tm_sentences s) <= 1)%nat.
Proof.
  unfold tm_sentences. etrans; [apply gaps_trim |].
  apply join_two_gaps. intros p. apply sentences_no_gap.
Qed.

(** When the emoji step takes nothing away, the result has two
    sentence-like segments at most. *)
Lemma tighten_sentence_count (U : Unicode) (s : jsstring) (maxChars : nat) :
  tm_emoji U s = tm_sentences s ->
  (sentence_count (tightenMotivation U s maxChars) <= 2)%nat.
Proof.
  intros He. unfold tightenMotivation.
  destruct s as [|c s]; [vm_compute; lia |]. cbn [truthy].
  etrans; [apply sentence_count_gaps |].
  rewrite gaps_tm_close, He.
  pose proof (gaps_tm_cut maxChars (tm_sentences (c :: s))).
  pose proof (gaps_tm_sentences (c :: s)). lia.
Qed.

(** *** Code units and code points *)

Ltac surrogates :=
  unfold scalar, isHigh, isLow, isSurrogate in *;
  repeat (progress rewrite ?negb_true_iff, ?negb_false_iff,
            ?andb_true_iff, ?andb_false_iff,
            ?N.leb_le, ?N.ltb_lt, ?N.leb_gt, ?N.ltb_ge in * );
  lia.

Lemma high_is_surrogate (c : N) : isHigh c = true -> isSurrogate c = true.
Proof. surrogates. Qed.

Lemma low_is_surrogate (c : N) : isLow c = true -> isSurrogate c = true.
Proof. surrogates. Qed.

Lemma not_surrogate_not_high (c : N) : isSurrogate c = false -> isHigh c = false.
Proof. surrogates. Qed.

Lemma not_surrogate_not_low (c : N) : isSurrogate c = false -> isLow c = false.
Proof. surrogates. Qed.

Lemma high_not_low (c : N) : isHigh c = true -> isLow c = false.
Proof. surrogates. Qed.

Lemma space_not_surrogate (c : N) : isSpace c = true -> isSurrogate c = false.
Proof.
  unfold isSpace, inClass. simpl. rewrite !orb_true_iff, andb_true_iff.
  intros H. repeat destruct H as [H | H]; try done;
    try (apply N.eqb_eq in H; by subst).
  destruct H as [H1 H2]. apply N.leb_le in H1, H2. surrogates.
Qed.

Lemma decode_cons (c : N) (t : jsstring) :
  isHigh c = false -> decode (c :: t) = c :: decode t.
Proof. intros H. destruct t as [|l t]; simpl; [done |]. by rewrite H. Qed.

Lemma decode_pair (h l : N) (t : jsstring) :
  isHigh h = true -> isLow l = true ->
  decode (h :: l :: t) = (65536 + (h - 55296) * 1024 + (l - 56320)) :: decode t.
Proof. intros Hh Hl. cbn [decode]. by rewrite Hh, Hl. Qed.

Lemma decode_no_pair (h l : N) (t : jsstring) :
  isHigh h && isLow l = false ->
  decode (h :: l :: t) = h :: decode (l :: t).
Proof. intros H. change (decode (h :: l :: t))
  with (if isHigh h && isLow l
        then (65536 + (h - 55296) * 1024 + (l - 56320)) :: decode t
        else h :: decode (l :: t)). by rewrite H. Qed.

Lemma wf16_ind (P : jsstring -> Prop) :
  P [] ->
  (forall c t, isSurrogate c = false -> c < 65536 -> wf16 t = true ->
               P t -> P (c :: t)) ->
  (forall h l t, isHigh h = true -> isLow l = true -> wf16 t = true ->
                 P t -> P (h :: l :: t)) ->
  forall s, wf16 s = true -> P s.
Proof.
  intros Hnil Hone Hpair s.
  assert (forall n s, (length s <= n)%nat -> wf16 s = true -> P s) as H;
    [| by apply (H (length s))].
  clear s. intros n. induction n as [|n IH]; intros s Hlen Hwf.
  - destruct s; [done | simpl in Hlen; lia].
  - destruct s as [|h t]; [done |]. cbn [wf16] in Hwf.
    destruct (isHigh h) eqn:Eh.
    + destruct t as [|l t]; [done |].
      apply andb_true_iff in Hwf as [Hl Hwf].
      apply Hpair; try done. apply IH; [simpl in Hlen; lia | done].
    + apply andb_true_iff in Hwf as [Hwf Ht].
      apply andb_true_iff in Hwf as [Hlow Hlt].
      apply Hone; try done.
      * surrogates.
      * by apply N.ltb_lt.
      * apply IH; [simpl in Hlen; lia | done].
Qed.

Lemma pair_is_scalar (h l : N) :
  isHigh h = true -> isLow l = true ->
  scalar (65536 + (h - 55296) * 1024 + (l - 56320)) = true.
Proof. intros Hh Hl. surrogates. Qed.

Lemma decode_wf_scalar (s : jsstring) :
  wf16 s = true -> forallb scalar (decode s) = true.
Proof.
  revert s. apply wf16_ind; [done | |].
  - intros c t Hc Hlt Hwf IH.
    rewrite decode_cons by by apply not_surrogate_not_high.
    simpl. rewrite IH, andb_true_r. surrogates.
  - intros h l t Hh Hl Hwf IH. rewrite decode_pair by done.
    simpl. by rewrite IH, pair_is_scalar.
Qed.

Lemma encode_cons (c : N) (K : list N) : encode (c :: K) = encode1 c ++ encode K.
Proof. done. Qed.

Lemma encode_decode_scalar (K : list N) :
  forallb scalar K = true ->
  decode (encode K) = K /\ wf16 (encode K) = true.
Proof.
  induction K as [|c K IH]; [done |]. simpl forallb.
  intros H. apply andb_true_iff in H as [Hc HK].
  destruct (IH HK) as [IHd IHw]. rewrite encode_cons. unfold encode1.
  destruct (c <? 65536) eqn:E.
  - apply N.ltb_lt in E. cbn [app].
    assert (isHigh c = false) as Hh by surrogates.
    rewrite decode_cons by done. cbn [wf16]. rewrite Hh, IHd, IHw.
    split; [done |]. rewrite !andb_true_r. apply andb_true_iff. split.
    + surrogates.
    + by apply N.ltb_lt.
  - apply N.ltb_ge in E. cbn [app].
    assert (c < 1114112) as Hc' by surrogates.
    pose proof (N.div_mod (c - 65536) 1024 ltac:(lia)) as Hdm.
    pose proof (N.mod_lt (c - 65536) 1024 ltac:(lia)) as Hm.
    assert ((c - 65536) / 1024 < 1024) as Hq.
    { apply N.Div0.div_lt_upper_bound; lia. }
    revert Hdm Hm Hq.
    generalize ((c - 65536) / 1024), ((c - 65536) mod 1024).
    intros q m Hdm Hm Hq.
    assert (isHigh (55296 + q) = true) as Hh by surrogates.
    assert (isLow (56320 + m) = true) as Hl by surrogates.
    rewrite decode_pair by done. cbn [wf16]. rewrite Hh, Hl, IHd, IHw.
    split; [| done]. f_equal. lia.
Qed.

Lemma decode_snoc (x : jsstring) (c : N) :
  isLow c = false -> decode (x ++ [c]) = decode x ++ [c].
Proof.
  intros Hc.
  assert (forall n x, (length x <= n)%nat -> decode (x ++ [c]) = decode x ++ [c]) as H;
    [| by apply (H (length x))].
  clear x. intros n. induction n as [|n IH]; intros x Hlen.
  - destruct x; [done | simpl in Hlen; lia].
  - destruct x as [|h [|l t]].
    + done.
    + cbn [app decode]. rewrite Hc, andb_false_r. done.
    + simpl in Hlen.
      change ((h :: l :: t) ++ [c]) with (h :: l :: (t ++ [c])).
      destruct (isHigh h && isLow l) eqn:E.
      * apply andb_true_iff in E as [Hh Hl].
        rewrite !decode_pair by done. rewrite IH by lia. done.
      * rewrite !decode_no_pair by done.
        change (l :: t ++ [c]) with ((l :: t) ++ [c]).
        rewrite IH by (simpl; lia). done.
Qed.

(** *** Emoji *)

Section Emoji.

Context (U : Unicode).

(** No surrogate code point and no full stop is pictographic. *)
Hypothesis pictographic_not_surrogate :
  forall c, isSurrogate c = true -> uExtPict U c = false.
Hypothesis pictographic_not_period : uExtPict U 46 = false.

Lemma surrogate_not_emoji (c : N) : isSurrogate c = true -> isEmoji U c = false.
Proof.
  intros H. unfold isEmoji. rewrite pictographic_not_surrogate by done.
  simpl. apply N.eqb_neq. intros ->. done.
Qed.

Lemma keep_first_emoji_count (seen : nat) (K : list N) :
  (length (List.filter (isEmoji U) (keep_first_emoji U seen K))
   <= 1 - seen)%nat.
Proof.
  revert seen. induction K as [|c K IH]; intros seen; simpl; [lia |].
  destruct (isEmoji U c) eqn:E.
  - destruct seen as [|n].
    + simpl. rewrite E. simpl. specialize (IH 1%nat). lia.
    + specialize (IH (S (S n))). lia.
  - simpl. rewrite E. apply IH.
Qed.

Lemma keep_first_emoji_forall (p : N -> bool) (seen : nat) (K : list N) :
  forallb p K = true -> forallb p (keep_first_emoji U seen K) = true.
Proof.
  revert seen. induction K as [|c K IH]; intros seen; simpl; [done |].
  intros H. apply andb_true_iff in H as [Hc HK].
  destruct (isEmoji U c); [destruct seen |]; simpl; rewrite ?Hc; simpl; auto.
Qed.

(** A prefix of a well-formed text holds no more emoji than the text. *)
Lemma emoji_count_prefix (s : jsstring) :
  wf16 s = true ->
  forall x, x `prefix_of` s -> (emoji_count U x <= emoji_count U s)%nat.
Proof.
  revert s.
  apply (wf16_ind (fun s => forall x, x `prefix_of` s ->
                              (emoji_count U x <= emoji_count U s)%nat)).
  - intros x Hx. apply prefix_nil_inv in Hx. by subst.
  - intros c t Hc Hlt Hwf IH x Hx.
    destruct x as [|c' x]; [unfold emoji_count; simpl; lia |].
    apply prefix_cons_inv_1 in Hx as Hc'. subst c'.
    apply prefix_cons_inv_2 in Hx.
    unfold emoji_count in *.
    rewrite !decode_cons by by apply not_surrogate_not_high.
    simpl. specialize (IH x Hx). destruct (isEmoji U c); simpl; lia.
  - intros h l t Hh Hl Hwf IH x Hx.
    destruct x as [|h' x]; [unfold emoji_count; simpl; lia |].
    apply prefix_cons_inv_1 in Hx as Hh'. subst h'.
    apply prefix_cons_inv_2 in Hx.
    destruct x as [|l' x].
    + unfold emoji_count. simpl.
      rewrite surrogate_not_emoji by by apply high_is_surrogate. simpl. lia.
    + apply prefix_cons_inv_1 in Hx as Hl'. subst l'.
      apply prefix_cons_inv_2 in Hx.
      unfold emoji_count in *. rewrite !decode_pair by done.
      simpl. specialize (IH x Hx). destruct (isEmoji U _); simpl; lia.
Qed.

Lemma skip_while_prefix (p : N -> bool) (x s : list N) :
  x `prefix_of` s -> skip_while p x `prefix_of` skip_while p s.
Proof.
  revert s. induction x as [|c x IH]; intros s Hx.
  - simpl. apply prefix_nil.
  - destruct s as [|c' s]; [by apply prefix_nil_not in Hx |].
    apply prefix_cons_inv_1 in Hx as Hc. subst c'.
    apply prefix_cons_inv_2 in Hx. simpl.
    destruct (p c); [by apply IH | by apply prefix_cons].
Qed.

Lemma wf16_skip_space (s : jsstring) :
  wf16 s = true ->
  wf16 (skip_while isSpace s) = true
  /\ (emoji_count U (skip_while isSpace s) <= emoji_count U s)%nat.
Proof.
  induction s as [|c s IH]; [done |]. intros Hwf. simpl.
  destruct (isSpace c) eqn:E; [| done].
  apply space_not_surrogate in E as Hs.
  cbn [wf16] in Hwf. rewrite (not_surrogate_not_high _ Hs) in Hwf.
  apply andb_true_iff in Hwf as [_ Hwf].
  destruct (IH Hwf) as [IH1 IH2]. split; [done |].
  unfold emoji_count in *.
  rewrite (decode_cons c) by by apply not_surrogate_not_high.
  simpl. destruct (isEmoji U c); simpl; lia.
Qed.

Lemma trimEnd_prefix (s : jsstring) : trimEnd s `prefix_of` s.
Proof. destruct (trimEnd_split s) as (post & Hs & _). by exists post. Qed.

Lemma emoji_count_tm_cut (maxChars : nat) (s : jsstring) :
  wf16 s = true ->
  (emoji_count U (tm_cut maxChars s) <= emoji_count U s)%nat.
Proof.
  intros Hwf. unfold tm_cut. destruct (maxChars <? length s)%nat; [| done].
  destruct (wf16_skip_space s Hwf) as [Hwf' Hle].
  etrans; [| exact Hle].
  apply emoji_count_prefix; [done |].
  unfold trim. etrans; [apply trimEnd_prefix |].
  unfold trimStart. apply skip_while_prefix.
  etrans; [apply replace_first_last_word_prefix |]. apply prefix_take.
Qed.

Lemma emoji_count_tm_close (s : jsstring) :
  emoji_count U (tm_close s) = emoji_count U s.
Proof.
  unfold tm_close. destruct (ends_terminal s); [done |].
  unfold emoji_count. rewrite decode_snoc by done.
  rewrite List.filter_app, length_app. simpl.
  unfold isEmoji at 2. rewrite pictographic_not_period. simpl. lia.
Qed.

Lemma tm_emoji_wf (s : jsstring) :
  wf16 (tm_sentences s) = true ->
  wf16 (tm_emoji U s) = true /\ (emoji_count U (tm_emoji U s) <= 1)%nat.
Proof.
  intros Hwf. unfold tm_emoji, on_code_points.
  pose proof (decode_wf_scalar _ Hwf) as Hsc.
  apply (keep_first_emoji_forall scalar O) in Hsc.
  destruct (encode_decode_scalar _ Hsc) as [Hd Hw]. split; [done |].
  unfold emoji_count. rewrite Hd.
  pose proof (keep_first_emoji_count O (decode (tm_sentences s))). lia.
Qed.

(** On a well-formed text the result holds one emoji at most. *)
Lemma tighten_emoji_count (s : jsstring) (maxChars : nat) :
  wf16 (tm_sentences s) = true ->
  (emoji_count U (tightenMotivation U s maxChars) <= 1)%nat.
Proof.
  intros Hwf. unfold tightenMotivation.
  destruct s as [|c s]; [vm_compute; lia |]. cbn [truthy].
  destruct (tm_emoji_wf _ Hwf) as [Hw Hc].
  rewrite emoji_count_tm_close.
  pose proof (emoji_count_tm_cut maxChars _ Hw). lia.
Qed.

End Emoji.

(** *** Well-formed texts stay well-formed *)

Lemma wf16_from_false (s : jsstring) : wf16_from false s = wf16 s.
Proof.
  assert (forall n s, (length s <= n)%nat -> wf16_from false s = wf16 s) as H;
    [| by apply (H (length s))].
  clear s. intros n. induction n as [|n IH]; intros s Hlen.
  - destruct s; [done | simpl in Hlen; lia].
  - destruct s as [|h t]; [done |]. cbn [wf16_from wf16].
    destruct (isHigh h) eqn:Eh.
    + assert (negb (isLow h) && (h <? 65536) = true) as -> by surrogates.
      destruct t as [|l t]; [done |]. cbn [wf16_from andb].
      destruct (isLow l) eqn:El; [| done].
      assert ((l <? 65536) = true) as -> by surrogates.
      assert (isHigh l = false) as -> by surrogates.
      simpl. apply IH. simpl in Hlen. lia.
    + rewrite IH by (simpl in Hlen; lia). done.
Qed.

Lemma wf16_from_plain (b : bool) (c : N) (t : jsstring) :
  isSurrogate c = false ->
  wf16_from b (c :: t) = true ->
  b = false /\ wf16_from false t = true.
Proof.
  intros Hc. cbn [wf16_from].
  rewrite (not_surrogate_not_high _ Hc), (not_surrogate_not_low _ Hc).
  destruct b; simpl; [done |].
  intros H. apply andb_true_iff in H as [_ H]. done.
Qed.

Lemma wf16_from_cons_plain (c : N) (t : jsstring) :
  isSurrogate c = false -> c < 65536 ->
  wf16_from false (c :: t) = wf16_from false t.
Proof.
  intros Hc Hlt. cbn [wf16_from].
  rewrite (not_surrogate_not_high _ Hc), (not_surrogate_not_low _ Hc).
  apply N.ltb_lt in Hlt. by rewrite Hlt.
Qed.

Lemma plain_spec (c : N) : plain c = true -> isSurrogate c = false /\ c < 65536.
Proof.
  unfold plain. intros H. apply andb_true_iff in H as [H1 H2].
  apply negb_true_iff in H1. by apply N.ltb_lt in H2.
Qed.

Lemma wf16_from_app_plain (r x : jsstring) :
  forallb plain r = true ->
  wf16_from false (r ++ x) = wf16_from false x.
Proof.
  induction r as [|c r IH]; [done |]. simpl forallb.
  intros H. apply andb_true_iff in H as [Hc Hr].
  apply plain_spec in Hc as [Hc Hlt].
  rewrite <- app_comm_cons, wf16_from_cons_plain by done. by apply IH.
Qed.

Lemma replace_go_wf (m : matcher) (r : jsstring) :
  plain_ends m ->
  forallb plain r = true ->
  forall s skip prev b,
    wf16_from b s = true ->
    match skip with
    | O => True
    | S k => exists d, nth_error s k = Some d /\ isSurrogate d = false
    end ->
    wf16_from (match skip with O => b | S _ => false end)
      (replace_go m r skip prev s) = true.
Proof.
  intros Hm Hr. induction s as [|c t IH]; intros skip prev b Hwf Hskip.
  - destruct skip as [|k].
    + simpl. destruct (m prev []) as [n |] eqn:E; [| done].
      destruct (Hm _ _ _ E) as (k & c & d & _ & Hc & _). done.
    + destruct Hskip as (d & Hd & _). by destruct k.
  - cbn [replace_go]. destruct skip as [|k].
    + destruct (m prev (c :: t)) as [n |] eqn:E.
      * destruct (Hm _ _ _ E) as (k & c' & d & -> & Hc & Hc' & Hd & Hd').
        injection Hc as <-.
        destruct (wf16_from_plain _ _ _ Hc' Hwf) as [-> Ht].
        rewrite wf16_from_app_plain by done.
        pose proof (IH k (Some c) false Ht) as IHk.
        destruct k as [|k]; [by apply IHk |].
        apply IHk. by exists d.
      * cbn [wf16_from] in *.
        apply andb_true_iff in Hwf as [Hstep Ht]. rewrite Hstep. simpl.
        by apply (IH O (Some c) (isHigh c)).
    + destruct Hskip as (d & Hd & Hd').
      cbn [wf16_from] in Hwf. apply andb_true_iff in Hwf as [_ Ht].
      destruct k as [|k].
      * injection Hd as <-. rewrite (not_surrogate_not_high _ Hd') in Ht.
        by apply (IH O (Some c) false).
      * apply (IH (S k) (Some c) (isHigh c) Ht). by exists d.
Qed.

Lemma replace_all_wf (m : matcher) (r s : jsstring) :
  plain_ends m -> forallb plain r = true ->
  wf16 s = true -> wf16 (replace_all m r s) = true.
Proof.
  intros Hm Hr Hs. rewrite <- wf16_from_false in *.
  by apply (replace_go_wf m r Hm Hr s O None false).
Qed.

Lemma inClass_plain (cls : list N) (c : N) :
  forallb (fun x => negb (isSurrogate x)) cls = true ->
  inClass cls c = true -> isSurrogate c = false.
Proof.
  intros Hcls H. unfold inClass in H. apply existsb_exists in H as (x & Hx & E).
  apply N.eqb_eq in E. subst x. rewrite forallb_forall in Hcls.
  apply negb_true_iff. by apply Hcls.
Qed.

Lemma m_class_plain_ends (p : N -> bool) :
  (forall c, p c = true -> isSurrogate c = false) -> plain_ends (m_class p).
Proof.
  intros Hp prev s n H. unfold m_class in H.
  destruct s as [|c t]; [done |]. destruct (p c) eqn:E; [| done].
  injection H as <-. exists O, c, c. repeat split; auto.
Qed.

Lemma run_length_nth (p : N -> bool) (s : list N) (k : nat) :
  (k < run_length p s)%nat -> exists d, nth_error s k = Some d /\ p d = true.
Proof.
  revert k. induction s as [|c s IH]; intros k; simpl; [lia |].
  destruct (p c) eqn:E; [| lia]. destruct k as [|k]; intros H.
  - by exists c.
  - apply IH. lia.
Qed.

Lemma m_spaces_plain_ends : plain_ends m_spaces.
Proof.
  intros prev s n H. unfold m_spaces in H.
  destruct (run_length isSpace s) as [|k] eqn:E; [done |].
  assert (n = S k) as -> by congruence.
  destruct (run_length_nth isSpace s O) as (c & Hc & Hc'); [lia |].
  destruct (run_length_nth isSpace s k) as (d & Hd & Hd'); [lia |].
  exists k, c, d. repeat split; auto using space_not_surrogate.
Qed.

Lemma span_close_nth (s : list N) (n : nat) :
  span_close s = Some n ->
  exists k d, n = S k /\ nth_error s k = Some d /\ inClass span_class d = true.
Proof.
  revert n. induction s as [|c s IH]; intros n; cbn [span_close]; [done |].
  destruct (inClass span_class c) eqn:E.
  - intros H. exists O, c. split; [congruence | done].
  - destruct (isLineTerminator c); [done |].
    destruct (span_close s) as [j |]; [| done].
    intros H. destruct (IH j eq_refl) as (k & d & -> & Hd & Hd').
    exists (S k), d. split; [simpl in H; congruence | done].
Qed.

Lemma m_quoted_plain_ends : plain_ends m_quoted.
Proof.
  intros prev s n H. unfold m_quoted in H.
  destruct s as [|q t]; [done |].
  destruct (inClass span_class q) eqn:E; [| done].
  destruct (span_close t) as [j |] eqn:Ej; [| done].
  destruct (span_close_nth _ _ Ej) as (k & d & -> & Hd & Hd').
  assert (n = S (S k)) as -> by (simpl in H; congruence).
  exists (S k), q, d. repeat split; try done;
    by eapply inClass_plain; [| eassumption].
Qed.

Lemma collapse_spaces_wf (s : jsstring) :
  wf16 s = true -> wf16 (collapse_spaces s) = true.
Proof. apply replace_all_wf; [apply m_spaces_plain_ends | done]. Qed.

Lemma wf16_from_app_inv (b : bool) (x : jsstring) (c : N) (t : jsstring) :
  isSurrogate c = false ->
  wf16_from b (x ++ c :: t) = true ->
  wf16_from b x = true /\ wf16_from false t = true.
Proof.
  intros Hc. revert b. induction x as [|a x IH]; intros b H.
  - destruct (wf16_from_plain _ _ _ Hc H) as [-> Ht]. done.
  - rewrite <- app_comm_cons in H. cbn [wf16_from] in *.
    apply andb_true_iff in H as [Hstep H]. rewrite Hstep.
    by apply IH.
Qed.

Lemma wf16_drop_spaces_end (x post : jsstring) :
  forallb isSpace post = true ->
  wf16_from false (x ++ post) = true -> wf16_from false x = true.
Proof.
  intros Hpost H. destruct post as [|c post]; [by rewrite app_nil_r in H |].
  simpl in Hpost. apply andb_true_iff in Hpost as [Hc _].
  by apply (wf16_from_app_inv false x c post (space_not_surrogate _ Hc)).
Qed.

Lemma wf16_drop_spaces_start (pre x : jsstring) :
  forallb isSpace pre = true ->
  wf16_from false (pre ++ x) = true -> wf16_from false x = true.
Proof.
  induction pre as [|c pre IH]; [done |]. simpl forallb.
  intros H. apply andb_true_iff in H as [Hc Hpre].
  rewrite <- app_comm_cons. intros Hwf.
  apply (wf16_from_plain _ _ _ (space_not_surrogate _ Hc)) in Hwf as [_ Hwf].
  by apply IH.
Qed.

Lemma trim_wf (s : jsstring) : wf16 s = true -> wf16 (trim s) = true.
Proof.
  rewrite <- !wf16_from_false. intros H.
  destruct (trim_split s) as (pre & post & Hs & Hpre & Hpost).
  rewrite Hs in H. apply wf16_drop_spaces_start in H; [| done].
  by apply wf16_drop_spaces_end in H.
Qed.

Lemma wf16_state_false (b : bool) (x : jsstring) :
  wf16_state b x = Some false <-> wf16_from b x = true.
Proof.
  revert b. induction x as [|c x IH]; intros b; simpl.
  - destruct b; split; intros H; try done.
  - destruct (_ && (c <? 65536)); simpl; [apply IH | done].
Qed.

Lemma wf16_state_snoc (b0 b : bool) (x : jsstring) (c : N) :
  wf16_state b0 x = Some b ->
  (if b then isLow c else negb (isLow c)) && (c <? 65536) = true ->
  wf16_state b0 (x ++ [c]) = Some (isHigh c).
Proof.
  revert b0. induction x as [|a x IH]; intros b0; simpl.
  - intros [= ->] ->. done.
  - destruct (_ && (a <? 65536)); [apply IH | done].
Qed.

Lemma split_pieces_wf (s : list N) (skip : nat) (prev : option N)
    (cur : list N) (b : bool) :
  wf16_state false cur = Some b ->
  wf16_from b s = true ->
  (skip <= run_length isSpace s)%nat ->
  Forall (fun p => wf16_from false p = true)
    (split_go m_sentence_gap skip prev cur s).
Proof.
  revert skip prev cur b.
  induction s as [|c t IH]; intros skip prev cur b Hcur Hwf Hskip.
  - simpl. constructor; [| done]. apply wf16_state_false.
    simpl in Hwf. by destruct b.
  - cbn [split_go]. destruct skip as [|k].
    + rewrite m_sentence_gap_cons.
      destruct (isTerminalOpt prev && isSpace c) eqn:E.
      * apply andb_true_iff in E as [_ Ec].
        apply (wf16_from_plain _ _ _ (space_not_surrogate _ Ec)) in Hwf
          as [-> Ht].
        constructor; [by apply wf16_state_false |].
        by apply (IH _ _ [] false).
      * cbn [wf16_from] in Hwf. apply andb_true_iff in Hwf as [Hstep Ht].
        apply (IH _ _ _ (isHigh c)); [| done | simpl; lia].
        by apply (wf16_state_snoc false b).
    + apply run_length_space_head in Hskip as [Ec Hk].
      apply (wf16_from_plain _ _ _ (space_not_surrogate _ Ec)) in Hwf
        as [-> Ht].
      by apply (IH _ _ cur false).
Qed.

Lemma sentences_wf (s p : jsstring) :
  wf16 s = true -> p ∈ sentences s -> wf16 p = true.
Proof.
  intros Hs. unfold sentences, filter_Boolean. rewrite filter_elem.
  intros [Hp _]. rewrite <- wf16_from_false in *.
  unfold split_re in Hp. destruct s as [|c t].
  - simpl in Hp. apply list_elem_of_singleton in Hp. by subst.
  - pose proof (split_pieces_wf (c :: t) O None [] false eq_refl Hs
                  ltac:(lia)) as H.
    rewrite Forall_forall in H. by apply H.
Qed.

Lemma wf16_from_app (b : bool) (x y : jsstring) :
  wf16_from b x = true -> wf16_from false y = true ->
  wf16_from b (x ++ y) = true.
Proof.
  revert b. induction x as [|c x IH]; intros b; simpl.
  - by destruct b.
  - intros H Hy. apply andb_true_iff in H as [-> H]. simpl. by apply IH.
Qed.

Lemma join_space_wf (l : list jsstring) :
  (forall p, p ∈ l -> wf16 p = true) -> wf16 (join [32] l) = true.
Proof.
  intros H. rewrite <- wf16_from_false.
  destruct l as [|x r]; [done |]. simpl.
  apply wf16_from_app.
  - rewrite wf16_from_false. apply H, list_elem_of_here.
  - assert (forall p, p ∈ r -> wf16 p = true) as Hr.
    { intros p Hp. by apply H, list_elem_of_further. }
    clear H. induction r as [|y r IH]; [done |]. simpl.
    change (isHigh 32) with false.
    apply wf16_from_app.
    + rewrite wf16_from_false. apply Hr, list_elem_of_here.
    + apply IH. intros p Hp. by apply Hr, list_elem_of_further.
Qed.

(** The text handed to the emoji step is well-formed when the input is. *)
Lemma tm_sentences_wf (s : jsstring) :
  wf16 s = true -> wf16 (tm_sentences s) = true.
Proof.
  intros Hs. unfold tm_sentences.
  apply trim_wf, join_space_wf. intros p Hp.
  pose proof (elem_of_sublist _ _ _ Hp (sublist_take _ 2)) as Hp'.
  revert Hp'. apply sentences_wf.
  apply trim_wf, collapse_spaces_wf, replace_all_wf;
    [apply m_quoted_plain_ends | done |].
  apply trim_wf, collapse_spaces_wf, replace_all_wf; [| done | done].
  apply m_class_plain_ends. intros c. by apply inClass_plain.
Qed.

(** *** The tightener as a whole *)

Section Tightener.

Context (U : Unicode).

(** No surrogate code point and no full stop is pictographic. *)
Hypothesis pictographic_not_surrogate :
  forall c, isSurrogate c = true -> uExtPict U c = false.
Hypothesis pictographic_not_period : uExtPict U 46 = false.

Lemma tightenMotivation_nonempty (c : N) (s : jsstring) (maxChars : nat) :
  tightenMotivation U (c :: s) maxChars
  = tm_close (tm_cut maxChars (tm_emoji U (c :: s))).
Proof. done. Qed.


End Tightener.

Lemma Polish_pictographic_not_surrogate (c : N) :
  isSurrogate c = true -> uExtPict Polish c = false.
Proof.
  intros Hc. simpl. unfold PolishTables.pictographic.
  destruct (inClass _ c) eqn:E; [| done].
  apply inClass_plain in E; [congruence | done].
Qed.


(** * Further properties *)

(** ** The prompt trimmer *)

(** Skipping the rest of a match is resuming the search after it. *)
Lemma replace_go_skipn (m : matcher) (r : list N) (k : nat)
    (prev : option N) (s : list N) :
  (k <= length s)%nat ->
  replace_go m r k prev s
  = replace_go m r O (char_before prev s k) (skipn k s).
Proof.
  revert k prev. induction s as [|c s IH]; intros k prev Hk.
  - destruct k; [done | simpl in Hk; lia].
  - destruct k as [|k]; [done |].
    simpl in Hk. cbn [replace_go skipn]. rewrite IH by lia.
    destruct k; done.
Qed.

Lemma run_length_le (p : N -> bool) (s : list N) :
  (run_length p s <= length s)%nat.
Proof. induction s as [|c s IH]; simpl; [done |]. destruct (p c); simpl; lia. Qed.

Lemma skip_while_head (p : N -> bool) (s : list N) :
  match skip_while p s with c :: _ => p c = false | [] => True end.
Proof.
  induction s as [|c s IH]; simpl; [done |].
  destruct (p c) eqn:E; [done | simpl; done].
Qed.

Lemma skip_while_length (p : N -> bool) (s : list N) :
  (length (skip_while p s) <= length s)%nat.
Proof. induction s as [|c s IH]; simpl; [done |]. destruct (p c); simpl; lia. Qed.

(** One step of [.replace(/\s+/g, ' ')]: a run of white space becomes one
    space, any other character is kept. *)
Lemma collapse_go_cons (prev : option N) (c : N) (t : list N) :
  replace_go m_spaces [32] O prev (c :: t)
  = if isSpace c
    then 32 :: replace_go m_spaces [32] O
                 (char_before (Some c) t (run_length isSpace t))
                 (skip_while isSpace t)
    else c :: replace_go m_spaces [32] O (Some c) t.
Proof.
  cbn [replace_go]. unfold m_spaces at 1. cbn [run_length].
  destruct (isSpace c); [| done].
  cbn [app]. rewrite replace_go_skipn by apply run_length_le.
  by rewrite skipn_run_length.
Qed.

(** Where [\s+] has been replaced by a space, the white space left is
    single spaces, and the text begins with white space only if it did
    before. *)
Lemma collapse_go_spaced (n : nat) (s : list N) (prev : option N) :
  (length s <= n)%nat ->
  spaced true (replace_go m_spaces [32] O prev s) = true
  /\ match replace_go m_spaces [32] O prev s, s with
     | d :: _, c :: _ => isSpace d = true -> isSpace c = true
     | d :: _, [] => False
     | [], _ => True
     end.
Proof.
  revert s prev. induction n as [|n IH]; intros s prev Hn.
  - destruct s; [| simpl in Hn; lia]. done.
  - destruct s as [|c t]; [done |].
    simpl in Hn. rewrite collapse_go_cons. destruct (isSpace c) eqn:Ec.
    + pose proof (skip_while_head isSpace t) as Hh.
      pose proof (skip_while_length isSpace t) as Hl.
      destruct (IH (skip_while isSpace t)
                  (char_before (Some c) t (run_length isSpace t))) as [H1 H2];
        [lia |].
      split; [| done].
      cbn [spaced]. rewrite H1. change (isSpace 32) with true. cbn.
      destruct (replace_go _ _ _ _ _) as [|d out]; [done |].
      destruct (skip_while isSpace t) as [|c' t']; [done |].
      destruct (isSpace d); [| done]. by rewrite H2 in Hh.
    + destruct (IH t (Some c)) as [H1 H2]; [lia |].
      split; [| by rewrite Ec].
      cbn [spaced]. by rewrite Ec, H1.
Qed.

Lemma collapse_spaces_spaced (s : jsstring) :
  spaced true (collapse_spaces s) = true.
Proof. apply (collapse_go_spaced (length s) s None). lia. Qed.

Lemma spaced_app_r (b : bool) (a s : list N) :
  spaced b (a ++ s) = true -> spaced b s = true.
Proof.
  induction a as [|c a IH]; [done |].
  cbn [app spaced]. intros H. apply andb_true_iff in H as [_ H]. by apply IH.
Qed.

Lemma spaced_weaken (s : list N) : spaced false s = true -> spaced true s = true.
Proof.
  induction s as [|c s IH]; [done |]. cbn [spaced].
  intros H. apply andb_true_iff in H as [H1 H2]. rewrite (IH H2), andb_true_r.
  destruct (isSpace c); [| done]. destruct s; [| done].
  by rewrite andb_false_r in H1.
Qed.

(** A prefix that does not end in white space. *)
Lemma spaced_app_l (a s : list N) :
  spaced true (a ++ s) = true ->
  match rev a with c :: _ => isSpace c = false | [] => True end ->
  spaced false a = true.
Proof.
  induction a as [|c a IH]; [done |].
  cbn [app spaced]. intros H Hlast. apply andb_true_iff in H as [H1 H2].
  assert (match rev a with d :: _ => isSpace d = false | [] => True end) as Ha.
  { simpl in Hlast. destruct (rev a) as [|d ra]; [done |]. exact Hlast. }
  rewrite (IH H2 Ha), andb_true_r.
  destruct (isSpace c) eqn:Ec; [| done].
  destruct a as [|d a]; [simpl in Hlast; congruence |].
  exact H1.
Qed.

Lemma trimEnd_last (s : jsstring) :
  match rev (trimEnd s) with c :: _ => isSpace c = false | [] => True end.
Proof.
  unfold trimEnd. rewrite rev_involutive. apply skip_while_head.
Qed.

Lemma trim_head (s : jsstring) :
  match trim s with c :: _ => isSpace c = false | [] => True end.
Proof.
  unfold trim, trimStart.
  pose proof (skip_while_head isSpace s) as Hh.
  destruct (trimEnd_split (skip_while isSpace s)) as (post & Ht & _).
  destruct (trimEnd (skip_while isSpace s)) as [|c t]; [done |].
  rewrite Ht in Hh. exact Hh.
Qed.

Lemma trim_last (s : jsstring) :
  match rev (trim s) with c :: _ => isSpace c = false | [] => True end.
Proof. apply trimEnd_last. Qed.

Lemma trim_spaced (s : jsstring) :
  spaced true s = true -> single_spaced (trim s) = true.
Proof.
  intros H. destruct (trim_split s) as (pre & post & Hs & _).
  rewrite Hs in H. apply spaced_app_r in H.
  apply (spaced_app_l _ _ H), trim_last.
Qed.

Lemma single_spaced_last (s : jsstring) :
  single_spaced s = true ->
  match rev s with c :: _ => isSpace c = false | [] => True end.
Proof.
  induction s as [|c k IH]; [done |].
  unfold single_spaced in *. cbn [spaced]. intros Hsp.
  apply andb_true_iff in Hsp as [Hc Hk]. specialize (IH Hk).
  simpl. destruct k as [|d k'].
  - simpl. destruct (isSpace c); [| done]. by rewrite andb_false_r in Hc.
  - simpl in *. destruct (rev k' ++ [d]) as [|e l] eqn:E; [| exact IH].
    by destruct (rev k').
Qed.

Lemma slice_last_suffix (limit : nat) (s : jsstring) :
  exists dropped, s = dropped ++ slice_last limit s.
Proof.
  destruct limit as [|k]; [by exists [] |].
  exists (firstn (length s - S k) s). unfold slice_last.
  by rewrite firstn_skipn.
Qed.

Lemma ink_app (a b : list N) : ink (a ++ b) = ink a ++ ink b.
Proof. apply List.filter_app. Qed.

Lemma ink_spaces (a : list N) : forallb isSpace a = true -> ink a = [].
Proof.
  intros H. apply filter_none. intros x Hx.
  rewrite forallb_forall in H. unfold nonspace.
  rewrite (H x); [done |]. by apply list_elem_of_In.
Qed.

Lemma ink_skip_while (s : list N) : ink (skip_while isSpace s) = ink s.
Proof.
  destruct (skip_while_split isSpace s) as (pre & Hs & Hpre).
  rewrite Hs at 2. by rewrite ink_app, (ink_spaces _ Hpre).
Qed.

Lemma ink_trim (s : jsstring) : ink (trim s) = ink s.
Proof.
  destruct (trim_split s) as (pre & post & Hs & Hpre & Hpost).
  rewrite Hs at 2.
  by rewrite !ink_app, (ink_spaces _ Hpre), (ink_spaces _ Hpost), app_nil_r.
Qed.

Lemma ink_cons (c : N) (t : list N) :
  ink (c :: t) = if isSpace c then ink t else c :: ink t.
Proof. unfold ink, nonspace. simpl. by destruct (isSpace c). Qed.

(** Collapsing white space keeps the other characters and does not make the
    text longer. *)
Lemma collapse_go_ink (n : nat) (s : list N) (prev : option N) :
  (length s <= n)%nat ->
  ink (replace_go m_spaces [32] O prev s) = ink s
  /\ (length (replace_go m_spaces [32%N] O prev s) <= length s)%nat.
Proof.
  revert s prev. induction n as [|n IH]; intros s prev Hn.
  - destruct s; [| simpl in Hn; lia]. done.
  - destruct s as [|c t]; [done |].
    simpl in Hn. rewrite collapse_go_cons.
    pose proof (skip_while_length isSpace t) as Hl.
    rewrite (ink_cons c t).
    destruct (isSpace c) eqn:Ec.
    + destruct (IH (skip_while isSpace t)
                  (char_before (Some c) t (run_length isSpace t))) as [H1 H2];
        [lia |].
      rewrite ink_cons. change (isSpace 32) with true. cbn iota.
      rewrite H1. split; [apply ink_skip_while | simpl; lia].
    + destruct (IH t (Some c)) as [H1 H2]; [lia |].
      rewrite ink_cons, Ec, H1. split; [done | simpl; lia].
Qed.

Lemma compact_ink (s : jsstring) :
  ink (trim (collapse_spaces s)) = ink s
  /\ (length (trim (collapse_spaces s)) <= length s)%nat.
Proof.
  destruct (collapse_go_ink (length s) s None) as [H1 H2]; [lia |].
  split.
  - by rewrite ink_trim.
  - etrans; [apply trim_length | exact H2].
Qed.

Lemma trimUserContent_suffix (s : jsstring) (limit : nat) :
  exists dropped, trim (collapse_spaces s) = dropped ++ trimUserContent s limit.
Proof.
  unfold trimUserContent.
  destruct (limit <? _)%nat; [apply slice_last_suffix | by exists []].
Qed.

(** X1. The prompt trimmer collapses white space, trims, and keeps the end
    of the text: the result is a suffix of the compacted text, which holds
    the characters of the text that are not white space, all of them and in
    order, and is not longer than the text; the result has [limit]
    characters when the compacted text is longer than a limit other than 0,
    and is the whole compacted text otherwise, a limit of 0 cutting
    nothing. *)
Theorem trimUserContent_keeps_the_end (s : jsstring) (limit : nat) :
  (exists dropped, trim (collapse_spaces s) = dropped ++ trimUserContent s limit)
  /\ length (trimUserContent s limit)
     = (if (limit =? 0)%nat then length (trim (collapse_spaces s))
        else Nat.min limit (length (trim (collapse_spaces s))))
  /\ ink (trim (collapse_spaces s)) = ink s
  /\ (length (trim (collapse_spaces s)) <= length s)%nat.
Proof.
  split; [apply trimUserContent_suffix |].
  split; [| apply compact_ink].
  unfold trimUserContent.
  destruct (Nat.ltb_spec limit (length (trim (collapse_spaces s)))) as [Hlt | Hge].
  - destruct limit as [|k]; [done |].
    change (S k =? 0)%nat with false. cbn iota.
    unfold slice_last. rewrite length_skipn. lia.
  - destruct limit as [|k]; [done |].
    change (S k =? 0)%nat with false. cbn iota. lia.
Qed.

(** X2. In the result of the prompt trimmer every white-space character is
    a single space (U+0020) that stands between two other characters or at
    the very beginning; it can stand at the beginning only when the text
    has been cut. *)
Theorem trimUserContent_is_single_spaced (s : jsstring) (limit : nat) :
  single_spaced (trimUserContent s limit) = true
  /\ match trimUserContent s limit with
     | c :: _ =>
         isSpace c = true ->
         c = 32 /\ (0 < limit < length (trim (collapse_spaces s)))%nat
     | [] => True
     end.
Proof.
  pose proof (trim_spaced _ (collapse_spaces_spaced s)) as Hc.
  pose proof (trim_head (collapse_spaces s)) as Hh.
  assert (single_spaced (trimUserContent s limit) = true) as Hs.
  { destruct (trimUserContent_suffix s limit) as (dropped & Hd).
    rewrite Hd in Hc. by apply spaced_app_r in Hc. }
  split; [done |].
  unfold trimUserContent in *.
  destruct (Nat.ltb_spec limit (length (trim (collapse_spaces s)))) as [Hlt | Hge].
  - destruct (slice_last limit _) as [|c t] eqn:E; [done |].
    intros Hc'. split.
    + unfold single_spaced in Hs. cbn [spaced] in Hs. rewrite Hc' in Hs.
      apply andb_true_iff in Hs as [Hs _].
      apply andb_true_iff in Hs as [Hs _]. by apply N.eqb_eq in Hs.
    + destruct limit as [|k]; [| lia].
      simpl in E. rewrite E in Hh. congruence.
  - destruct (trim (collapse_spaces s)) as [|c t]; [done |].
    intros Hc'. congruence.
Qed.

(** ** Normalized words *)

Lemma replace_go_Forall (P : N -> Prop) (m : matcher) (r : list N) (k : nat)
    (prev : option N) (s : list N) :
  Forall P r -> Forall P s -> Forall P (replace_go m r k prev s).
Proof.
  intros Hr. revert k prev. induction s as [|c s IH]; intros k prev Hs.
  - simpl. destruct k; [| constructor].
    destruct (m prev []); [done | constructor].
  - apply Forall_cons in Hs as [Hc Hs]. cbn [replace_go].
    destruct k as [|k]; [| by apply IH].
    destruct (m prev (c :: s)) as [[|n] |].
    + apply Forall_app. split; [done |]. apply Forall_cons. split; [done |].
      by apply IH.
    + apply Forall_app. split; [done |]. by apply IH.
    + apply Forall_cons. split; [done |]. by apply IH.
Qed.

Lemma split_go_Forall (P : N -> Prop) (m : matcher) (k : nat)
    (prev : option N) (cur s : list N) :
  Forall P cur -> Forall P s -> Forall (Forall P) (split_go m k prev cur s).
Proof.
  revert k prev cur. induction s as [|c s IH]; intros k prev cur Hcur Hs.
  - simpl. by apply Forall_cons.
  - apply Forall_cons in Hs as [Hc Hs]. cbn [split_go].
    destruct k as [|k]; [| by apply IH].
    destruct (m prev (c :: s)) as [[|n] |].
    + destruct cur as [|d cur].
      * apply IH; [| done]. by apply Forall_cons.
      * apply Forall_cons. split; [done |]. apply IH; [| done].
        by apply Forall_cons.
    + apply Forall_cons. split; [done |]. by apply IH.
    + apply IH; [| done]. apply Forall_app. split; [done |].
      by apply Forall_cons.
Qed.

Lemma split_re_Forall (P : N -> Prop) (m : matcher) (s : list N) :
  Forall P s -> Forall (Forall P) (split_re m s).
Proof.
  intros Hs. unfold split_re. destruct s as [|c s].
  - destruct (m None []); [constructor |]. by apply Forall_cons.
  - by apply split_go_Forall.
Qed.

Lemma trim_Forall (P : N -> Prop) (s : jsstring) :
  Forall P s -> Forall P (trim s).
Proof.
  intros Hs. destruct (trim_split s) as (pre & post & Heq & _).
  rewrite Heq in Hs. apply Forall_app in Hs as [_ Hs].
  by apply Forall_app in Hs as [Hs _].
Qed.

Lemma filter_Forall {X : Type} (P : X -> Prop) (p : X -> bool) (l : list X) :
  Forall P l -> Forall P (List.filter p l).
Proof.
  induction 1 as [|x l Hx Hl IH]; simpl; [constructor |].
  destruct (p x); [by constructor | done].
Qed.

(** [.replace(/[...]/g, '')] removes the characters of the class, all of
    them and nothing else. *)
Lemma replace_class_filter (p : N -> bool) (k : option N) (s : list N) :
  replace_go (m_class p) [] O k s = List.filter (fun c => negb (p c)) s.
Proof.
  revert k. induction s as [|c s IH]; intros k; [done |].
  cbn [replace_go m_class List.filter].
  destruct (p c); cbn [negb app]; by rewrite IH.
Qed.

Lemma spaced_Forall (b : bool) (s : list N) :
  spaced b s = true -> Forall (fun c => isSpace c = true -> c = 32) s.
Proof.
  induction s as [|c s IH]; [constructor |].
  cbn [spaced]. intros H. apply andb_true_iff in H as [H1 H2].
  constructor; [| by apply IH].
  intros Hc. rewrite Hc in H1. apply andb_true_iff in H1 as [H1 _].
  by apply N.eqb_eq.
Qed.

(** The pieces of [s.split(' ')] hold no space. *)
Lemma split_space_pieces (prev : option N) (cur s : list N) :
  Forall (fun c => c <> 32) cur ->
  Forall (Forall (fun c => c <> 32)) (split_go (m_literal [32]) O prev cur s).
Proof.
  revert prev cur. induction s as [|c s IH]; intros prev cur Hcur.
  - simpl. by apply Forall_cons.
  - cbn [split_go]. unfold m_literal at 1. cbn [starts_with length].
    destruct (32 =? c) eqn:E; cbn [andb].
    + apply Forall_cons. split; [done |]. apply IH. constructor.
    + apply IH. apply Forall_app. split; [done |].
      apply Forall_cons. split; [| constructor].
      apply N.eqb_neq in E. congruence.
Qed.

(** A single-spaced text that does not begin with a space is put together
    again from the pieces of [s.split(' ').filter(Boolean)]. *)
Lemma split_space_join (prev : option N) (cur s : list N) :
  single_spaced s = true ->
  Forall (fun c => isSpace c = false) cur ->
  (cur = [] -> match s with c :: _ => isSpace c = false | [] => True end) ->
  join [32] (filter_Boolean (split_go (m_literal [32]) O prev cur s)) = cur ++ s.
Proof.
  revert prev cur. induction s as [|c s IH]; intros prev cur Hs Hcur Hhead.
  - simpl. destruct cur; simpl; [done | by rewrite app_nil_r].
  - unfold single_spaced in Hs. cbn [spaced] in Hs.
    apply andb_true_iff in Hs as [Hc Hs].
    cbn [split_go]. unfold m_literal at 1. cbn [starts_with length].
    destruct (32 =? c) eqn:E; cbn [andb].
    + apply N.eqb_eq in E. subst c. change (isSpace 32) with true in Hc.
      cbn in Hc. destruct s as [|d s]; [done |].
      destruct cur as [|e cur]; [by specialize (Hhead eq_refl) |].
      cbn [filter_Boolean List.filter truthy].
      specialize (IH (Some 32) [] Hs ltac:(constructor)).
      rewrite app_nil_l in IH.
      assert (isSpace d = false) as Hd by by apply negb_true_iff.
      specialize (IH (fun _ => Hd)).
      unfold filter_Boolean in IH.
      destruct (List.filter truthy (split_go (m_literal [32]) 0 (Some 32) [] (d :: s)))
        as [|x r] eqn:Ef; [done |].
      unfold join in *. cbn [List.map List.concat].
      rewrite <- (app_assoc [32] x), IH. done.
    + assert (isSpace c = false) as Hc'.
      { destruct (isSpace c) eqn:Ec; [| done].
        apply andb_true_iff in Hc as [Hc _]. rewrite N.eqb_sym in E. congruence. }
      rewrite IH; [by rewrite <- app_assoc | done | |].
      * apply Forall_app. split; [done |]. by repeat constructor.
      * intros Hnil. by destruct cur.
Qed.

Lemma filter_holds {X : Type} (p : X -> bool) (l : list X) :
  Forall (fun x => p x = true) (List.filter p l).
Proof.
  induction l as [|x l IH]; simpl; [constructor |].
  destruct (p x) eqn:E; [by constructor | done].
Qed.

Lemma Forall_and {X : Type} (P Q : X -> Prop) (l : list X) :
  Forall P l -> Forall Q l -> Forall (fun x => P x /\ Q x) l.
Proof.
  induction 1 as [|x l Hx Hl IH]; intros HQ; [constructor |].
  apply Forall_cons in HQ as [Hq HQ]. constructor; [done | by apply IH].
Qed.

Section Words.

Context (U : Unicode).

Lemma normalize_single_spaced (s : jsstring) :
  single_spaced (normalize U s) = true.
Proof. apply trim_spaced, collapse_spaces_spaced. Qed.

Lemma normalize_no_punctuation (s : jsstring) :
  Forall (fun c => inClass normalize_class c = false) (normalize U s).
Proof.
  unfold normalize. apply trim_Forall.
  unfold collapse_spaces, replace_all. apply replace_go_Forall.
  - by repeat constructor.
  - rewrite replace_class_filter.
    eapply Forall_impl; [apply filter_holds |].
    intros c Hc. by apply negb_true_iff.
Qed.

Lemma tokens_pieces (s : jsstring) :
  Forall (Forall bare) (split_re (m_literal [32]) (normalize U s)).
Proof.
  pose proof (spaced_Forall _ _ (normalize_single_spaced s)) as H1.
  pose proof (normalize_no_punctuation s) as H2.
  pose proof (Forall_and _ _ _ H1 H2) as H. clear H1 H2.
  apply (split_re_Forall _ (m_literal [32])) in H.
  assert (Forall (Forall (fun c => c <> 32))
            (split_re (m_literal [32]) (normalize U s))) as H3.
  { unfold split_re. destruct (normalize U s) as [|c t].
    - by repeat constructor.
    - apply split_space_pieces. constructor. }
  revert H H3. generalize (split_re (m_literal [32]) (normalize U s)).
  induction l as [|w l IH]; intros H H3; [constructor |].
  apply Forall_cons in H as [Hw H]. apply Forall_cons in H3 as [Hw3 H3].
  constructor; [| by apply IH].
  clear IH H H3. induction w as [|c w IHw]; [constructor |].
  apply Forall_cons in Hw as [[Hc1 Hc2] Hw].
  apply Forall_cons in Hw3 as [Hc3 Hw3].
  constructor; [| by apply IHw].
  split; [| done].
  destruct (isSpace c); [| done]. by specialize (Hc1 eq_refl).
Qed.

(** X3. The words that the similarity functions compare: every token of a
    text is non-empty and holds neither white space nor any of the
    punctuation marks that normalization removes; the normalized text is
    single-spaced, and joining the tokens with spaces gives it back. *)
Theorem tokens_are_the_words_of_normalize (s : jsstring) :
  Forall (fun w => w <> [] /\ Forall bare w) (tokens U s)
  /\ join [32] (tokens U s) = normalize U s
  /\ single_spaced (normalize U s) = true
  /\ Forall (fun c => inClass normalize_class c = false) (normalize U s).
Proof.
  split; [| split; [| split]].
  - unfold tokens, filter_Boolean. apply Forall_and.
    + eapply Forall_impl; [apply filter_holds |].
      intros w Hw. by destruct w.
    + apply filter_Forall, tokens_pieces.
  - unfold tokens, split_re.
    pose proof (normalize_single_spaced s) as Hs.
    pose proof (trim_head (collapse_spaces
      (replace_all (m_class (inClass normalize_class)) [] (toLowerCase U s)))) as Hh.
    fold (normalize U s) in Hh.
    destruct (normalize U s) as [|c t] eqn:E; [done |].
    rewrite (split_space_join None [] (c :: t) Hs); [done | constructor | done].
  - apply normalize_single_spaced.
  - apply normalize_no_punctuation.
Qed.

End Words.

(** ** Similarity and novelty *)

Lemma filter_length_le {X : Type} (p : X -> bool) (l : list X) :
  (length (List.filter p l) <= length l)%nat.
Proof. induction l as [|x l IH]; simpl; [done |]. destruct (p x); simpl; lia. Qed.

Lemma filter_length_all {X : Type} (p : X -> bool) (l : list X) :
  length (List.filter p l) = length l <-> forall x, x ∈ l -> p x = true.
Proof.
  induction l as [|x l IH]; simpl.
  - split; [| done]. intros _ x Hx. inversion Hx.
  - pose proof (filter_length_le p l) as Hle.
    destruct (p x) eqn:E; simpl.
    + split.
      * intros H y Hy. apply elem_of_cons in Hy as [-> | Hy]; [done |].
        apply IH; [lia | done].
      * intros H. f_equal. apply IH. intros y Hy. apply H.
        by apply list_elem_of_further.
    + split; [lia |]. intros H.
      specialize (H x (list_elem_of_here _ _)). congruence.
Qed.

Lemma count_inter_le (A B : list jsstring) : (count_inter A B <= length A)%nat.
Proof. apply filter_length_le. Qed.

Lemma count_inter_full (A B : list jsstring) :
  count_inter A B = length A <-> forall w, w ∈ A -> w ∈ B.
Proof.
  unfold count_inter. rewrite filter_length_all.
  split; intros H w Hw; apply has_elem; by apply H.
Qed.

Lemma ratio_bounds (n d : nat) :
  (n <= d)%nat -> (0 < d)%nat -> (0 <= ratio n d)%Q /\ (ratio n d <= 1)%Q.
Proof.
  intros Hn Hd. unfold ratio.
  split; rewrite Qred_correct; unfold Qle; simpl; lia.
Qed.

Lemma ratio_one (n d : nat) : (0 < d)%nat -> ratio n d = 1%Q -> n = d.
Proof.
  intros Hd H. unfold ratio in H.
  assert (Z.of_nat n # Pos.of_nat d == 1)%Q as Hq.
  { rewrite <- (Qred_correct (Z.of_nat n # Pos.of_nat d)). by rewrite H. }
  unfold Qeq in Hq. simpl in Hq. lia.
Qed.

Section Similarity.

Context (U : Unicode).

(** X4. The similarity of two texts lies between 0 and 1, and it is 1
    exactly when the two texts have the same set of normalized words. *)
Theorem jaccard_is_one_for_equal_token_sets (a b : jsstring) :
  (0 <= jaccard U a b)%Q
  /\ (jaccard U a b <= 1)%Q
  /\ (jaccard U a b = 1%Q <-> forall w, w ∈ tokens U a <-> w ∈ tokens U b).
Proof.
  unfold jaccard.
  set (A := new_Set (tokens U a)). set (B := new_Set (tokens U b)).
  assert (NoDup A) as HA by apply new_Set_NoDup.
  assert (NoDup B) as HB by apply new_Set_NoDup.
  pose proof (count_inter_le A B) as H1.
  pose proof (count_inter_le B A) as H2.
  rewrite <- (count_inter_comm A B) in H2 by done.
  assert ((forall w, w ∈ tokens U a <-> w ∈ tokens U b)
          <-> (forall w, w ∈ A -> w ∈ B) /\ (forall w, w ∈ B -> w ∈ A)) as Hsets.
  { unfold A, B. split.
    - intros H. split; intros w Hw; apply new_Set_elem, H; by apply new_Set_elem.
    - intros [Hab Hba] w. split; intros Hw.
      + apply new_Set_elem, Hab. by apply new_Set_elem.
      + apply new_Set_elem, Hba. by apply new_Set_elem. }
  rewrite Hsets. clear Hsets.
  destruct ((length A =? 0)%nat && (length B =? 0)%nat) eqn:E.
  - apply andb_true_iff in E as [Ea Eb].
    apply length_zero_iff in Ea, Eb. rewrite Ea, Eb.
    repeat split; try done.
  - assert (0 < length A + length B - count_inter A B)%nat as Hd.
    { apply andb_false_iff in E as [E | E]; apply Nat.eqb_neq in E; lia. }
    destruct (ratio_bounds (count_inter A B)
                (length A + length B - count_inter A B)) as [Hlo Hhi];
      [lia | done |].
    split; [done |]. split; [done |]. split.
    + intros H. apply ratio_one in H; [| done].
      split.
      * apply count_inter_full. lia.
      * apply count_inter_full. rewrite <- (count_inter_comm A B) by done. lia.
    + intros [Hab Hba].
      apply count_inter_full in Hab, Hba.
      rewrite <- (count_inter_comm A B) in Hba by done.
      replace (length A + length B - count_inter A B)%nat
        with (count_inter A B) by lia.
      apply ratio_self. lia.
Qed.

End Similarity.

Lemma Qltb_lt (x y : Q) : Qltb x y = true <-> (x < y)%Q.
Proof.
  unfold Qltb. rewrite negb_true_iff. split.
  - intros H. apply Qnot_le_lt. intros Hle.
    apply Qle_bool_iff in Hle. congruence.
  - intros H. destruct (Qle_bool y x) eqn:E; [| done].
    apply Qle_bool_iff in E. by apply Qlt_not_le in H.
Qed.

Lemma Qltb_ge (x y : Q) : Qltb x y = false <-> (y <= x)%Q.
Proof.
  unfold Qltb. rewrite negb_false_iff. apply Qle_bool_iff.
Qed.

Section Selection.

Context (U : Unicode).

Lemma chooseMostNovel_loop (cands history : list jsstring) :
  history <> [] ->
  chooseMostNovel U cands (Some history)
  = or_else (fst (fold_left (novel_step U history) cands ([], 1%Q)))
      (first_or_empty cands).
Proof. by destruct history. Qed.

Lemma novel_loop_inv (history rest seen : list jsstring) (st : jsstring * Q) :
  novel_inv U history seen st ->
  novel_inv U history (seen ++ rest) (fold_left (novel_step U history) rest st).
Proof.
  set (score := max_similarity U history).
  revert seen st. induction rest as [|c rest IH]; intros seen st Hinv.
  - by rewrite app_nil_r.
  - cbn [fold_left].
    replace (seen ++ c :: rest) with ((seen ++ [c]) ++ rest)
      by by rewrite <- app_assoc.
    apply IH. clear IH. destruct Hinv as [Hall Hst].
    fold score in Hall, Hst. unfold novel_inv. fold score.
    unfold novel_step. fold (max_similarity U history c). fold (score c).
    destruct (Qltb (score c) (snd st)) eqn:E.
    + apply Qltb_lt in E. split.
      * cbn [snd]. apply Forall_app. split.
        -- eapply Forall_impl; [exact Hall |]. intros x Hx. simpl in Hx.
           apply Qlt_le_weak. eapply Qlt_le_trans; [exact E | exact Hx].
        -- repeat constructor. apply Qle_refl.
      * right. cbn [fst snd]. split; [| split; [done |]].
        -- destruct Hst as [-> | [Hlt _]]; [exact E |].
           eapply Qlt_trans; [exact E | exact Hlt].
        -- exists seen, []. split; [done |].
           eapply Forall_impl; [exact Hall |]. intros x Hx. simpl in Hx.
           eapply Qlt_le_trans; [exact E | exact Hx].
    + apply Qltb_ge in E. split.
      * apply Forall_app. split; [done |]. by repeat constructor.
      * destruct Hst as [-> | (Hlt & Heq & before & after & Hseen & Hbefore)];
          [by left | right].
        split; [done |]. split; [done |].
        exists before, (after ++ [c]). split; [| done].
        rewrite Hseen. by rewrite <- app_assoc.
Qed.

(** X5. With a history that is not empty and candidates that are not empty
    strings: when some candidate is less than fully similar to every entry
    of the history, novelty selection returns the first of the candidates
    whose greatest similarity to an entry of the history is the least; when
    every candidate is fully similar to some entry, it returns the first
    candidate. *)
Theorem chooseMostNovel_is_least_similar (history cands : list jsstring) :
  history <> [] ->
  Forall (fun c => c <> []) cands ->
  (Exists (fun c => (max_similarity U history c < 1)%Q) cands ->
   (max_similarity U history (chooseMostNovel U cands (Some history)) < 1)%Q
   /\ Forall (fun c =>
                (max_similarity U history (chooseMostNovel U cands (Some history))
                 <= max_similarity U history c)%Q)
        cands
   /\ exists before after,
        cands = before ++ chooseMostNovel U cands (Some history) :: after
        /\ Forall (fun c =>
                     (max_similarity U history
                        (chooseMostNovel U cands (Some history))
                      < max_similarity U history c)%Q)
             before)
  /\ (Forall (fun c => (1 <= max_similarity U history c)%Q) cands ->
      chooseMostNovel U cands (Some history) = first_or_empty cands).
Proof.
  intros Hhist Hne.
  assert (novel_inv U history [] ([], 1%Q)) as Hinit.
  { split; [constructor | by left]. }
  pose proof (novel_loop_inv history cands [] _ Hinit) as Hinv.
  rewrite app_nil_l in Hinv.
  rewrite (chooseMostNovel_loop cands history Hhist).
  destruct (fold_left (novel_step U history) cands ([], 1%Q)) as [best sc].
  destruct Hinv as [Hall Hst]. cbn [fst snd] in *.
  split.
  - intros Hex. apply Exists_exists in Hex as (c & Hc & Hlt).
    destruct Hst as [[= -> ->] | (Hlt' & Heq & before & after & Hseen & Hbefore)].
    + rewrite Forall_forall in Hall. specialize (Hall c Hc). simpl in Hall.
      by apply Qlt_not_le in Hlt.
    + assert (best <> []) as Hbest.
      { rewrite Forall_forall in Hne. apply Hne. rewrite Hseen.
        apply elem_of_app. right. apply list_elem_of_here. }
      assert (or_else best (first_or_empty cands) = best) as ->
        by by destruct best.
      rewrite <- Heq. split; [done |]. split; [done |].
      by exists before, after.
  - intros Hge.
    destruct Hst as [[= -> ->] | (Hlt' & Heq & before & after & Hseen & Hbefore)];
      [done |].
    rewrite Forall_forall in Hge.
    assert (1 <= max_similarity U history best)%Q as Hb.
    { apply Hge. rewrite Hseen. apply elem_of_app. right. apply list_elem_of_here. }
    rewrite <- Heq in Hb. by apply Qlt_not_le in Hlt'.
Qed.

End Selection.

(** ** The greeting pipeline *)

Lemma trim_nil_spaces (s : jsstring) : trim s = [] -> forallb isSpace s = true.
Proof.
  intros H. destruct (trim_split s) as (pre & post & Hs & Hpre & Hpost).
  rewrite H in Hs. rewrite Hs, forallb_app, Hpre. exact Hpost.
Qed.

Lemma trim_spaces_nil (s : jsstring) : forallb isSpace s = true -> trim s = [].
Proof.
  intros H. pose proof (trim_head s) as Hh.
  destruct (trim_split s) as (pre & post & Hs & _).
  destruct (trim s) as [|c t]; [done |].
  rewrite forallb_forall in H. rewrite (H c) in Hh; [done |].
  rewrite Hs. apply in_or_app. right. by left.
Qed.

(** The pieces of a split on one character of a class hold the other
    characters of the text, all of them and in order. *)
Lemma split_class_concat (p : N -> bool) (prev : option N) (cur s : list N) :
  List.concat (split_go (m_class p) O prev cur s)
  = cur ++ List.filter (fun c => negb (p c)) s.
Proof.
  revert prev cur. induction s as [|c s IH]; intros prev cur.
  - simpl. by rewrite app_nil_r.
  - cbn [split_go m_class List.filter]. destruct (p c); cbn [negb].
    + cbn [List.concat]. by rewrite IH.
    + rewrite IH. by rewrite <- app_assoc.
Qed.

Lemma concat_elem {X : Type} (x : X) (ls : list (list X)) :
  x ∈ List.concat ls -> exists l, l ∈ ls /\ x ∈ l.
Proof.
  induction ls as [|l ls IH]; simpl; [intros H; inversion H |].
  intros H. apply elem_of_app in H as [H | H].
  - exists l. split; [apply list_elem_of_here | done].
  - destruct (IH H) as (l' & Hl' & Hx). exists l'.
    split; [by apply list_elem_of_further | done].
Qed.

Lemma existsb_elem {X : Type} (p : X -> bool) (l : list X) :
  existsb p l = true <-> exists x, x ∈ l /\ p x = true.
Proof.
  rewrite existsb_exists. split; intros (x & Hx & Hp); exists x;
    (split; [by apply list_elem_of_In | done]).
Qed.

Lemma forallb_elem {X : Type} (p : X -> bool) (l : list X) :
  forallb p l = true <-> forall x, x ∈ l -> p x = true.
Proof.
  rewrite forallb_forall. split; intros H x Hx; apply H;
    by apply list_elem_of_In.
Qed.

Lemma Forall_forallb {X : Type} (p : X -> bool) (l : list X) :
  Forall (fun x => p x = true) l <-> forallb p l = true.
Proof. rewrite Forall_forall. symmetry. apply forallb_elem. Qed.

Section Pipeline.

Context (U : Unicode).

(** The split that stands in for the parser finds a candidate in every text
    that holds something else than white space and full stops. *)
Lemma fallback_split_finds (raw : jsstring) :
  existsb (fun c => negb (isBlankOrDot c)) raw = true ->
  filter_Boolean (List.map trim (split_re m_dot_or_newline raw)) <> [].
Proof.
  intros H. apply existsb_elem in H as (x & Hx & Hp).
  apply negb_true_iff, orb_false_iff in Hp as [Hsp Hdot].
  destruct raw as [|c raw]; [inversion Hx |].
  unfold split_re.
  pose proof (split_class_concat (inClass [46; 10]) None [] (c :: raw)) as Hc.
  fold m_dot_or_newline in Hc. rewrite app_nil_l in Hc.
  assert (x ∈ List.concat (split_go m_dot_or_newline O None [] (c :: raw))) as Hin.
  { rewrite Hc. apply filter_elem. split; [done |].
    apply negb_true_iff. unfold inClass. simpl. rewrite Hdot. simpl.
    destruct (x =? 10) eqn:E; [| done].
    apply N.eqb_eq in E. subst x. done. }
  apply concat_elem in Hin as (piece & Hpiece & Hxp).
  assert (trim piece ∈ filter_Boolean
            (List.map trim (split_go m_dot_or_newline O None [] (c :: raw)))) as Ht.
  { apply filter_elem. split.
    - apply list_elem_of_In, in_map. by apply list_elem_of_In.
    - destruct (trim piece) eqn:E; [| done].
      apply trim_nil_spaces in E. rewrite forallb_elem in E.
      rewrite (E x Hxp) in Hsp. done. }
  intros Hnil. rewrite Hnil in Ht. inversion Ht.
Qed.

Lemma candidates_blank (raw : jsstring) :
  candidates U raw = [] -> forallb isBlankOrDot raw = true.
Proof.
  intros H. destruct (forallb isBlankOrDot raw) eqn:E; [done |].
  exfalso.
  assert (existsb (fun c => negb (isBlankOrDot c)) raw = true) as Hex.
  { clear H. induction raw as [|c raw IH]; [done |].
    simpl in *. destruct (isBlankOrDot c); simpl in *; [by apply IH | done]. }
  unfold candidates in H.
  destruct (parseList U raw) as [|x l]; [| done].
  destruct raw as [|c raw]; [done |].
  cbn [truthy] in H. by apply fallback_split_finds in Hex.
Qed.

(** Every candidate is a string that is not empty. *)
Lemma candidates_nonempty (raw : jsstring) :
  Forall (fun c => c <> []) (candidates U raw).
Proof.
  assert (forall l, Forall (fun c : jsstring => c <> []) (filter_Boolean l)) as Hf.
  { intros l. unfold filter_Boolean.
    eapply Forall_impl; [apply filter_holds |]. intros w Hw. by destruct w. }
  unfold candidates.
  destruct (parseList U raw) as [|x l] eqn:E.
  - destruct (truthy raw); [apply Hf | constructor].
  - rewrite <- E. unfold parseList, select_candidates, parse_items.
    apply Forall_forall. intros s Hs.
    pose proof (elem_of_sublist _ _ _ Hs (sublist_take _ 20)) as Hs'.
    apply filter_elem in Hs' as [Hs' _].
    apply (proj1 (new_Set_elem _ _)) in Hs'.
    specialize (Hf (List.map strip_marker (parse_lines raw))).
    rewrite Forall_forall in Hf. by apply Hf.
Qed.

(** Novelty selection returns one of the candidates. *)
Lemma chooseMostNovel_member (c : jsstring) (cs : list jsstring)
    (history : option (list jsstring)) :
  chooseMostNovel U (c :: cs) history ∈ c :: cs.
Proof.
  destruct history as [[|h hist] |]; unfold chooseMostNovel;
    rewrite first_or_empty_cons; try apply list_elem_of_here.
  destruct (novel_loop_best U (h :: hist) (c :: cs) ([], 1%Q)) as [H | H].
  - rewrite H. apply list_elem_of_here.
  - unfold or_else.
    destruct (truthy _); [exact H | apply list_elem_of_here].
Qed.

Lemma final_text_nonempty (name : jsstring) (cands history : list jsstring) :
  cands <> [] ->
  Forall (fun c => c <> []) cands ->
  final_text U name cands history <> [].
Proof.
  intros Hne Hall. unfold final_text, or_else.
  destruct (sanitizeNoName U name _) as [|x s] eqn:E; [| done].
  cbn [truthy]. destruct cands as [|c cs]; [done |].
  rewrite Forall_forall in Hall. apply Hall, chooseMostNovel_member.
Qed.

End Pipeline.

Lemma elem_concat {X : Type} (x : X) (l : list X) (ls : list (list X)) :
  l ∈ ls -> x ∈ l -> x ∈ List.concat ls.
Proof.
  induction ls as [|l' ls IH]; intros Hl Hx; [inversion Hl |].
  simpl. apply elem_of_app. apply elem_of_cons in Hl as [-> | Hl]; [by left |].
  right. by apply IH.
Qed.

Lemma skipn_Forall {X : Type} (P : X -> Prop) (n : nat) (l : list X) :
  Forall P l -> Forall P (skipn n l).
Proof.
  intros H. rewrite <- (firstn_skipn n l) in H.
  by apply Forall_app in H as [_ H].
Qed.

Lemma strip_marker_Forall (P : N -> Prop) (l : jsstring) :
  Forall P l -> Forall P (strip_marker l).
Proof.
  intros H. unfold strip_marker, replace_start.
  destruct (m_marker None l); [| done]. by apply skipn_Forall.
Qed.

Section BlankText.

Context (U : Unicode).

(** Lower-casing leaves white space and full stops as they are. *)
Hypothesis lower_blank :
  forall s, forallb isBlankOrDot s = true -> toLowerCase U s = s.

Lemma blank_no_tokens (s : jsstring) :
  forallb isBlankOrDot s = true -> tokens U s = [].
Proof.
  intros H. unfold tokens, normalize. rewrite (lower_blank s H).
  rewrite trim_spaces_nil; [done |].
  apply Forall_forallb. unfold collapse_spaces, replace_all.
  apply replace_go_Forall; [by repeat constructor |].
  rewrite replace_class_filter.
  apply Forall_forall. intros c Hc. apply filter_elem in Hc as [Hc Hn].
  rewrite forallb_elem in H. specialize (H c Hc).
  apply negb_true_iff in Hn. unfold isBlankOrDot in H.
  destruct (isSpace c); [done |]. simpl in H. apply N.eqb_eq in H. by subst c.
Qed.

Lemma blank_no_candidates (raw : jsstring) :
  forallb isBlankOrDot raw = true -> candidates U raw = [].
Proof.
  intros H. apply Forall_forallb in H.
  assert (parseList U raw = []) as Hp.
  { unfold parseList, select_candidates.
    rewrite filter_none; [done |].
    intros s Hs. apply (proj1 (new_Set_elem _ _)) in Hs.
    unfold parse_items, parse_lines, filter_Boolean in Hs.
    apply filter_elem in Hs as [Hs _].
    apply list_elem_of_In, in_map_iff in Hs as (l & <- & Hl).
    apply filter_In in Hl as [Hl _].
    apply in_map_iff in Hl as (line & <- & Hline).
    pose proof (split_re_Forall _ m_newline raw H) as Hlines.
    rewrite Forall_forall in Hlines.
    specialize (Hlines line (proj2 (list_elem_of_In _ _) Hline)).
    apply trim_Forall, strip_marker_Forall, Forall_forallb in Hlines.
    unfold wc_ok, wordCount. by rewrite (blank_no_tokens _ Hlines). }
  unfold candidates. rewrite Hp.
  destruct raw as [|c raw]; [done |]. cbn [truthy].
  unfold filter_Boolean. apply filter_none.
  intros t Ht. apply list_elem_of_In, in_map_iff in Ht as (piece & <- & Hpiece).
  rewrite trim_spaces_nil; [done |].
  apply forallb_elem. intros x Hx.
  pose proof (split_re_Forall _ m_dot_or_newline (c :: raw) H) as Hpieces.
  rewrite Forall_forall in Hpieces.
  apply list_elem_of_In in Hpiece.
  specialize (Hpieces piece Hpiece). rewrite Forall_forall in Hpieces.
  specialize (Hpieces x Hx).
  pose proof (split_class_concat (inClass [46; 10]) None [] (c :: raw)) as Hc.
  fold m_dot_or_newline in Hc. rewrite app_nil_l in Hc.
  assert (x ∈ List.concat (split_go m_dot_or_newline O None [] (c :: raw))) as Hin
    by by apply (elem_concat x piece).
  rewrite Hc in Hin. apply filter_elem in Hin as [_ Hn].
  apply negb_true_iff in Hn. unfold isBlankOrDot in Hpieces.
  destruct (isSpace x); [done |]. simpl in Hpieces.
  apply N.eqb_eq in Hpieces. by subst x.
Qed.

End BlankText.

Section GreetingAnswers.

Context (U : Unicode).
Variable cfg : config.


End GreetingAnswers.

(** ** What the answers carry *)

Lemma ends_terminal_nonempty (s : jsstring) : ends_terminal s = true -> s <> [].
Proof. by destruct s. Qed.

Lemma tightenMotivation_closed (U : Unicode) (s : jsstring) (maxChars : nat) :
  s <> [] -> ends_terminal (tightenMotivation U s maxChars) = true.
Proof.
  intros Hs. destruct s as [|c s]; [done |].
  unfold tightenMotivation. cbn [truthy]. apply tm_close_ends.
Qed.

Lemma bank_nonempty (bank : list jsstring) :
  forallb truthy bank && negb (length bank =? 0)%nat = true ->
  bank <> [] /\ forallb truthy bank = true.
Proof.
  intros H. apply andb_true_iff in H as [H1 H2]. split; [| done].
  intros ->. discriminate.
Qed.

Lemma pick_member (w : world) (arr : list jsstring) :
  arr <> [] -> pick w arr ∈ arr.
Proof.
  intros Hne. unfold pick. apply list_elem_of_In, nth_In.
  apply Nat.mod_upper_bound. by destruct arr.
Qed.

Section Answers.

Context (U : Unicode).
Variable cfg : config.

Lemma bankByLevel_nonempty (level : jsstring) :
  bankByLevel U level <> [] /\ forallb truthy (bankByLevel U level) = true.
Proof.
  unfold bankByLevel.
  destruct (str_eqb _ _); [apply bank_nonempty; vm_compute; reflexivity |].
  destruct (str_eqb _ _); apply bank_nonempty; vm_compute; reflexivity.
Qed.

Lemma greeting_text_nonempty (name : jsstring) (age : option Z) (w : world)
    (st : gmap jsstring (list jsstring)) (t : jsstring) :
  answer_text (fst (post_generate_greeting U cfg name age w st)) = Some t ->
  t <> [] /\ status (fst (post_generate_greeting U cfg name age w st)) = 200%nat.
Proof.
  unfold post_generate_greeting, generateGreetingV2.
  destruct (snd (race cfg w)) as [win | e].
  - pose proof (candidates_nonempty U (text win)) as Hall.
    destruct (candidates U (text win)) as [|c cs] eqn:E.
    + simpl. unfold on_error. by destruct (timedOut _).
    + simpl. intros [= <-]. split; [| done].
      by apply final_text_nonempty.
  - simpl. unfold on_error. by destruct (timedOut e).
Qed.

Lemma generated_text_nonempty (language level : jsstring) (w : world)
    (t : jsstring) :
  answer_text (post_generate_text U cfg language level w) = Some t ->
  t <> [] /\ status (post_generate_text U cfg language level w) = 200%nat.
Proof.
  unfold post_generate_text. destruct (MOCK_TEXT cfg).
  - simpl. intros [= <-]. split; [| done].
    destruct (bankByLevel_nonempty level) as [Hne Hall].
    rewrite forallb_elem in Hall.
    specialize (Hall _ (pick_member w _ Hne)). by destruct (pick w _).
  - destruct (snd (race cfg w)) as [win | e].
    + destruct (trim (strip_edge_quotes (text win))) as [|c s] eqn:E;
        cbn [truthy].
      * done.
      * simpl. by intros [= <-].
    + unfold on_error. by destruct (timedOut e).
Qed.

Lemma motivation_text_nonempty (w : world) (t : jsstring) :
  answer_text (post_motivate U cfg w) = Some t ->
  t <> [] /\ status (post_motivate U cfg w) = 200%nat.
Proof.
  unfold post_motivate, generateMotivation.
  destruct (snd (race cfg w)) as [win | e].
  - destruct (tightenMotivation U (trim (strip_edge_quotes (trim (text win)))) 160)
      as [|c s] eqn:E; cbn [truthy].
    + done.
    + simpl. intros [= <-]. split; [| done].
      by apply ends_terminal_nonempty, tightenMotivation_closed.
  - by destruct (timedOut e).
Qed.

Lemma serve_text_nonempty (req : request) (w : world)
    (st : gmap jsstring (list jsstring)) (t : jsstring) :
  req <> OtherRoute ->
  answer_text (fst (serve U cfg req w st)) = Some t ->
  t <> [] /\ status (fst (serve U cfg req w st)) = 200%nat.
Proof.
  destruct req as [name age | language level | |]; simpl; intros Hreq.
  - apply greeting_text_nonempty.
  - apply generated_text_nonempty.
  - apply motivation_text_nonempty.
  - done.
Qed.

Lemma serve_nonempty_history (req : request) (w : world)
    (st : gmap jsstring (list jsstring)) :
  nonempty_history st -> nonempty_history (snd (serve U cfg req w st)).
Proof.
  intros Hst.
  destruct (serve_history U cfg req w st)
    as [-> | (name & age & t & src & Hreq & Hok & ->)]; [done |].
  assert (t <> []) as Ht.
  { apply (serve_text_nonempty req w st); [by rewrite Hreq |].
    by rewrite Hok. }
  intros key h. rewrite lookup_insert. case_decide.
  - intros [= <-]. apply Forall_forall. intros x Hx.
    apply elem_of_cons in Hx as [-> | Hx]; [done |].
    pose proof (elem_of_sublist _ _ _ Hx (sublist_take _ 19)) as Hx'.
    unfold history_of in Hx'.
    destruct (st !! profileKey U name age) as [h |] eqn:E; [| inversion Hx'].
    specialize (Hst _ _ E). rewrite Forall_forall in Hst. by apply Hst.
  - apply Hst.
Qed.

(** X7. An answer of the greeting, text-generation and motivation endpoints
    that carries a text has status 200 and the text is not empty; and
    starting from the empty map, no run of requests puts an empty string
    into the greeting history. *)
Theorem answers_and_history_hold_no_empty_text :
  (forall req w st t,
     req <> OtherRoute ->
     answer_text (fst (serve U cfg req w st)) = Some t ->
     t <> [] /\ status (fst (serve U cfg req w st)) = 200%nat)
  /\ (forall reqs, nonempty_history (run U cfg reqs ∅)).
Proof.
  split; [apply serve_text_nonempty |].
  assert (forall reqs st, nonempty_history st -> nonempty_history (run U cfg reqs st))
    as Hrun.
  { induction reqs as [|[req w] reqs IH]; intros st Hst; simpl; [done |].
    by apply IH, serve_nonempty_history. }
  intros reqs. apply Hrun. intros key h H.
  rewrite lookup_empty in H. discriminate.
Qed.

End Answers.

(** ** The motivation tightener and its endpoint *)

Lemma decode_Forall (P : N -> Prop) (s : jsstring) :
  (forall c, 65536 <= c -> P c) -> Forall P s -> Forall P (decode s).
Proof.
  intros Hbig.
  assert (forall n s, (length s <= n)%nat -> Forall P s -> Forall P (decode s))
    as H; [| by apply (H (length s))].
  clear s. intros n. induction n as [|n IH]; intros s Hlen Hs.
  - destruct s; [constructor | simpl in Hlen; lia].
  - destruct s as [|h [|l t]]; [constructor | done |].
    simpl in Hlen. apply Forall_cons in Hs as [Hh Hs].
    destruct (isHigh h && isLow l) eqn:E.
    + apply andb_true_iff in E as [Eh El]. rewrite decode_pair by done.
      apply Forall_cons in Hs as [_ Hs].
      constructor; [apply Hbig; lia | apply IH; [lia | done]].
    + rewrite decode_no_pair by done.
      constructor; [done | apply IH; [simpl; lia | done]].
Qed.

Lemma encode_Forall (P : N -> Prop) (cps : list N) :
  (forall c, 55296 <= c -> P c) -> Forall P cps -> Forall P (encode cps).
Proof.
  intros Hbig. induction 1 as [|c cps Hc Hcps IH]; [constructor |].
  rewrite encode_cons. apply Forall_app. split; [| done].
  unfold encode1. destruct (c <? 65536).
  - constructor; [done | constructor].
  - constructor; [apply Hbig, N.le_add_r |].
    constructor; [| constructor].
    apply Hbig. etrans; [| apply N.le_add_r]. done.
Qed.

Lemma keep_first_emoji_Forall (U : Unicode) (P : N -> Prop) (seen : nat)
    (cps : list N) :
  Forall P cps -> Forall P (keep_first_emoji U seen cps).
Proof.
  intros H. revert seen. induction H as [|c cps Hc Hcps IH]; intros seen;
    [constructor |].
  cbn [keep_first_emoji]. destruct (isEmoji U c).
  - destruct seen; [by constructor | apply IH].
  - by constructor.
Qed.

Lemma join_Forall (P : N -> Prop) (sep : jsstring) (l : list jsstring) :
  Forall P sep -> Forall (Forall P) l -> Forall P (join sep l).
Proof.
  intros Hsep Hl. destruct Hl as [|x l Hx Hl]; [constructor |].
  cbn [join]. apply Forall_app. split; [done |].
  induction Hl as [|y l Hy Hl IH]; [constructor |].
  cbn [List.map List.concat]. apply Forall_app. split; [| done].
  by apply Forall_app.
Qed.

Lemma replace_first_Forall (P : N -> Prop) (m : matcher) (r : list N)
    (prev : option N) (s : list N) :
  Forall P r -> Forall P s -> Forall P (replace_first_go m r prev s).
Proof.
  intros Hr. revert prev. induction s as [|c s IH]; intros prev Hs.
  - cbn [replace_first_go]. destruct (m prev []).
    + apply Forall_app. split; [done |]. by apply skipn_Forall.
    + constructor.
  - cbn [replace_first_go]. destruct (m prev (c :: s)).
    + apply Forall_app. split; [done |]. by apply skipn_Forall.
    + apply Forall_cons in Hs as [Hc Hs]. constructor; [done | by apply IH].
Qed.

Lemma above_quotes (c : N) : 8222 < c -> inClass quote_class c = false.
Proof.
  intros Hc. unfold inClass, quote_class. cbn [existsb].
  repeat (rewrite (proj2 (N.eqb_neq c _)) by lia). done.
Qed.

Section Quotes.

Context (U : Unicode).

Lemma tm_sentences_quote_free (s : jsstring) : Forall quote_free (tm_sentences s).
Proof.
  unfold tm_sentences, sentences, collapse_spaces, replace_all.
  apply trim_Forall, join_Forall; [by repeat constructor |].
  apply Forall_take, filter_Forall, split_re_Forall, trim_Forall.
  apply replace_go_Forall; [by repeat constructor |].
  apply replace_go_Forall; [constructor |].
  apply trim_Forall, replace_go_Forall; [by repeat constructor |].
  rewrite replace_class_filter.
  eapply Forall_impl; [apply filter_holds |].
  intros c Hc. by apply negb_true_iff.
Qed.

Lemma tm_emoji_quote_free (s : jsstring) : Forall quote_free (tm_emoji U s).
Proof.
  unfold tm_emoji, on_code_points.
  apply encode_Forall; [intros c Hc; apply above_quotes; lia |].
  apply keep_first_emoji_Forall, decode_Forall;
    [intros c Hc; apply above_quotes; lia |].
  apply tm_sentences_quote_free.
Qed.

(** X8. Whatever the input and the cap, the result of the motivation
    tightener holds no double quotation mark (straight, left, right or low),
    no apostrophe and no parenthesis. *)
Theorem tightenMotivation_holds_no_quotes (s : jsstring) (maxChars : nat) :
  Forall (fun c => inClass quote_class c = false)
    (tightenMotivation U s maxChars).
Proof.
  unfold tightenMotivation. destruct s as [|c0 s0]; [constructor |].
  cbn [truthy]. set (s := c0 :: s0).
  assert (Forall quote_free (tm_cut maxChars (tm_emoji U s))) as Hcut.
  { unfold tm_cut. destruct (maxChars <? _)%nat; [| apply tm_emoji_quote_free].
    apply trim_Forall. unfold replace_first.
    apply replace_first_Forall; [constructor |].
    apply Forall_take, tm_emoji_quote_free. }
  unfold tm_close. destruct (ends_terminal _); [done |].
  apply Forall_app. split; [done |]. by repeat constructor.
Qed.

End Quotes.

Section MotivationAnswers.

Context (U : Unicode).
Variable cfg : config.

(** X9. Every answer of the motivation endpoint is one of three: 200 with a
    text that ends in terminal punctuation; 504 for an exceeded deadline;
    or 502 with the fallback text.  When the race is won, the answer is the
    502 of an empty motivation exactly when nothing is left of the winning
    text once it is trimmed and the quotation marks at its ends are
    stripped. *)
Theorem motivation_answers_are_closed_or_carry_the_fallback (w : world) :
  match json (post_motivate U cfg w) with
  | Generated t _ =>
      status (post_motivate U cfg w) = 200%nat /\ ends_terminal t = true
  | FailureWithFallback _ fallback =>
      status (post_motivate U cfg w) = 502%nat
      /\ fallback = MOTIVATION_FALLBACK
  | TimedOut => status (post_motivate U cfg w) = 504%nat
  | _ => False
  end
  /\ (forall win,
        snd (race cfg w) = Return win ->
        post_motivate U cfg w
        = {| status := 502;
             json := FailureWithFallback (lit "EMPTY_MOTIVATION")
                       MOTIVATION_FALLBACK |}
        <-> trim (strip_edge_quotes (trim (text win))) = []).
Proof.
  unfold post_motivate, generateMotivation.
  destruct (snd (race cfg w)) as [win | e].
  - set (core := trim (strip_edge_quotes (trim (text win)))).
    destruct core as [|c s] eqn:E.
    + cbn [tightenMotivation truthy]. split; [done |].
      intros win' [= <-]. fold core. by rewrite E.
    + assert (tightenMotivation U (c :: s) 160 <> []) as Hne.
      { apply ends_terminal_nonempty, tightenMotivation_closed. done. }
      destruct (tightenMotivation U (c :: s) 160) as [|d out] eqn:Et; [done |].
      cbn [truthy]. split.
      * cbn [json status]. split; [done |].
        by apply tightenMotivation_closed.
      * intros win' [= <-]. fold core. rewrite E. split; [done | done].
  - split; [| done]. by destruct (timedOut e).
Qed.

End MotivationAnswers.

(** ** Quotation marks at the ends of a text *)

Lemma run_length_all (p : N -> bool) (s : list N) :
  run_length p s = length s <-> forallb p s = true.
Proof.
  induction s as [|c s IH]; simpl; [done |].
  destruct (p c); simpl.
  - rewrite <- IH. split; [intros [= H] | intros H]; by rewrite H.
  - split; discriminate.
Qed.

Lemma drop_end_cons (p : N -> bool) (c : N) (s : list N) :
  drop_end p (c :: s) = if forallb p (c :: s) then [] else c :: drop_end p s.
Proof.
  unfold drop_end. simpl rev.
  destruct (skip_while_split p (rev s)) as (pre & Hs & Hpre).
  destruct (forallb p (c :: s)) eqn:E.
  - assert (forallb p (rev s ++ [c]) = true) as Hall.
    { rewrite forallb_forall in *. intros x Hx. apply E.
      apply in_app_or in Hx as [Hx | [<- | []]]; [right; by apply in_rev | by left]. }
    destruct (skip_while_split p (rev s ++ [c])) as (pre' & Hs' & Hpre').
    pose proof (skip_while_head p (rev s ++ [c])) as Hh.
    destruct (skip_while p (rev s ++ [c])) as [|d k]; [done |].
    rewrite forallb_forall in Hall. rewrite (Hall d) in Hh; [done |].
    rewrite Hs'. apply in_or_app. right. by left.
  - simpl in E.
    assert (skip_while p (rev s ++ [c]) = skip_while p (rev s) ++ [c]) as ->.
    { clear Hs Hpre pre.
      assert (forall k, forallb p (rev k) = forallb p k) as Hrev.
      { intros k. induction k as [|x k IHk]; [done |].
        simpl. rewrite forallb_app, IHk. simpl. rewrite andb_true_r.
        apply andb_comm. }
      destruct (p c) eqn:Ec; simpl in E.
      - rewrite <- Hrev in E. revert E. generalize (rev s). intros l.
        induction l as [|x l IHl]; [done |].
        simpl. destruct (p x); simpl; [apply IHl | done].
      - generalize (rev s). intros l.
        induction l as [|x l IHl]; simpl; [by rewrite Ec |].
        destruct (p x); [apply IHl | done]. }
    by rewrite rev_unit.
Qed.

(** After the first character, the pattern matches a run of quotation marks
    that reaches the end of the text, and nothing else. *)
Lemma strip_quotes_inside (p : N) (s : list N) :
  replace_go m_edge_quotes [] O (Some p) s = drop_end isEdgeQuote s.
Proof.
  revert p. induction s as [|c s IH]; intros p; [done |].
  rewrite drop_end_cons. cbn [replace_go]. unfold m_edge_quotes at 1.
  destruct (run_length isEdgeQuote (c :: s)) as [|n] eqn:Erun.
  - assert (forallb isEdgeQuote (c :: s) = false) as ->.
    { simpl in *. by destruct (isEdgeQuote c). }
    by rewrite IH.
  - destruct (Nat.eqb_spec (S n) (length (c :: s))) as [Heq | Hne].
    + assert (run_length isEdgeQuote (c :: s) = length (c :: s)) as Hall
        by congruence.
      rewrite (proj1 (run_length_all _ _) Hall).
      cbn [app]. simpl in Heq. assert (n = length s) as -> by lia.
      rewrite replace_go_skipn by lia. by rewrite skipn_all.
    + assert (forallb isEdgeQuote (c :: s) = false) as ->.
      { destruct (forallb isEdgeQuote (c :: s)) eqn:E; [| done].
        apply run_length_all in E. congruence. }
      by rewrite IH.
Qed.

(** X10. Stripping the quotation marks at the ends of a text removes the
    run of quotation marks (straight or low or right double, or apostrophe)
    that the text begins with and the run it ends with, and nothing else:
    the quotation marks inside the text stay. *)
Theorem strip_edge_quotes_takes_the_outer_runs (s : jsstring) :
  strip_edge_quotes s = drop_end isEdgeQuote (skip_while isEdgeQuote s).
Proof.
  unfold strip_edge_quotes, replace_all.
  destruct s as [|c s]; [done |].
  cbn [replace_go]. unfold m_edge_quotes at 1.
  destruct (run_length isEdgeQuote (c :: s)) as [|n] eqn:Erun.
  - assert (isEdgeQuote c = false) as Hc.
    { simpl in Erun. by destruct (isEdgeQuote c). }
    cbn [skip_while]. rewrite Hc, drop_end_cons. cbn [forallb].
    rewrite Hc. cbn [andb]. by rewrite strip_quotes_inside.
  - cbn [app].
    pose proof (run_length_le isEdgeQuote (c :: s)) as Hle.
    rewrite Erun in Hle. simpl in Hle.
    rewrite replace_go_skipn by lia.
    rewrite <- (skipn_run_length isEdgeQuote (c :: s)), Erun. cbn [skipn].
    destruct (char_before (Some c) s n) as [p |] eqn:Ep.
    + apply strip_quotes_inside.
    + destruct n; [done |]. simpl in Ep.
      apply nth_error_None in Ep. lia.
Qed.

(** ** The race of the providers *)

Section Earliest.

Context {A : Type}.

Lemma first_fulfilled_earliest (ps : list (promise A)) (t : nat) (v : A) :
  first_fulfilled ps = Some (t, v) ->
  Fulfilled t v ∈ ps
  /\ forall t' v', Fulfilled t' v' ∈ ps -> (t <= t')%nat.
Proof.
  revert t v. induction ps as [|p ps IH]; intros t v; [done |].
  cbn [first_fulfilled].
  destruct p as [t0 v0 | t0 e0 |].
  - destruct (first_fulfilled ps) as [[t1 v1] |] eqn:E.
    + destruct (IH _ _ eq_refl) as [Hin Hmin].
      destruct (Nat.ltb_spec t1 t0) as [Hlt | Hge]; intros [= <- <-].
      * split; [by apply list_elem_of_further |].
        intros t' v' H. apply elem_of_cons in H as [[= -> ->] | H]; [lia |].
        by apply (Hmin t' v').
      * split; [apply list_elem_of_here |].
        intros t' v' H. apply elem_of_cons in H as [[= -> ->] | H]; [lia |].
        specialize (Hmin t' v' H). lia.
    + intros [= <- <-]. split; [apply list_elem_of_here |].
      intros t' v' H. apply elem_of_cons in H as [[= -> ->] | H]; [lia |].
      exfalso. clear IH. revert E H. clear. induction ps as [|q ps IH]; intros E H;
        [inversion H |].
      cbn [first_fulfilled] in E.
      apply elem_of_cons in H as [<- | H].
      * destruct (first_fulfilled ps) as [[t1 v1] |]; [destruct (t1 <? t')%nat |];
          done.
      * apply IH; [| done].
        destruct q as [t0 v0 | t0 e0 |]; [| done | done].
        destruct (first_fulfilled ps) as [[t1 v1] |]; [destruct (t1 <? t0)%nat |];
          done.
  - intros H. destruct (IH _ _ H) as [Hin Hmin].
    split; [by apply list_elem_of_further |].
    intros t' v' H'. apply elem_of_cons in H' as [[=] | H']. by apply (Hmin t' v').
  - intros H. destruct (IH _ _ H) as [Hin Hmin].
    split; [by apply list_elem_of_further |].
    intros t' v' H'. apply elem_of_cons in H' as [[=] | H']. by apply (Hmin t' v').
Qed.

Lemma first_fulfilled_some (ps : list (promise A)) (t : nat) (v : A) :
  Fulfilled t v ∈ ps -> exists t' v', first_fulfilled ps = Some (t', v').
Proof.
  induction ps as [|p ps IH]; intros H; [inversion H |].
  cbn [first_fulfilled].
  apply elem_of_cons in H as [<- | H].
  - destruct (first_fulfilled ps) as [[t1 v1] |]; [destruct (t1 <? t)%nat |];
      eauto.
  - destruct (IH H) as (t' & v' & ->).
    destruct p as [t0 v0 | t0 e0 |]; [destruct (t' <? t0)%nat |..]; eauto.
Qed.

Lemma withDeadline_in_time (p : promise A) (ms : nat) :
  (fst (withDeadline p ms) <= timer_at ms)%nat.
Proof.
  unfold withDeadline.
  destruct p as [t v | t e |]; [| | done];
    destruct (Nat.ltb_spec t (timer_at ms)); simpl; lia.
Qed.

End Earliest.

(** X11. The race of the providers never lasts longer than the deadline.
    It returns a winner exactly when some provider fulfils before the
    timer of the deadline fires, and the winner is then a provider with the
    earliest fulfilment, the race ending at that time. *)
Theorem race_returns_the_earliest_answer (cfg : config) (w : world) :
  (fst (race cfg w) <= timer_at (DEADLINE_MS cfg))%nat
  /\ (forall win,
        snd (race cfg w) = Return win ->
        exists t,
          Fulfilled t win ∈ racers cfg w
          /\ fst (race cfg w) = t
          /\ (t < timer_at (DEADLINE_MS cfg))%nat
          /\ forall t' win',
               Fulfilled t' win' ∈ racers cfg w -> (t <= t')%nat)
  /\ (forall t win,
        Fulfilled t win ∈ racers cfg w ->
        (t < timer_at (DEADLINE_MS cfg))%nat ->
        exists win', snd (race cfg w) = Return win').
Proof.
  split; [apply withDeadline_in_time |].
  unfold race, Promise_any. split.
  - intros win.
    destruct (first_fulfilled (racers cfg w)) as [[t v] |] eqn:E.
    + destruct (first_fulfilled_earliest _ _ _ E) as [Hin Hmin].
      unfold withDeadline.
      destruct (Nat.ltb_spec t (timer_at (DEADLINE_MS cfg))) as [Hlt | Hge];
        [| done].
      simpl. intros [= <-]. by exists t.
    + destruct (existsb is_pending (racers cfg w)); [done |].
      unfold withDeadline. by destruct (_ <? _)%nat.
  - intros t win Hin Hlt.
    destruct (first_fulfilled_some _ _ _ Hin) as (t' & v' & E).
    rewrite E. destruct (first_fulfilled_earliest _ _ _ E) as [_ Hmin].
    specialize (Hmin t win Hin).
    unfold withDeadline.
    destruct (Nat.ltb_spec t' (timer_at (DEADLINE_MS cfg))) as [Hlt' | Hge];
      [by exists v' | lia].
Qed.

Section EmptyAnswer.

Context (U : Unicode).
Variable cfg : config.

(** X12. An answer of Groq that holds no text wins the race like any other
    answer (an empty answer of OpenAI is a rejection instead): when Groq
    answers with a success status and a blank content before the timer of
    the deadline, and OpenAI has not fulfilled earlier, the greeting and
    text-generation endpoints answer 502 with EMPTY_GENERATION and the
    motivation endpoint answers 502 with EMPTY_MOTIVATION, whatever OpenAI
    would have answered later. *)
Theorem empty_groq_answer_fails_the_request
    (w : world) (t status : nat) (content : option jsstring) :
  GROQ_API_KEY cfg = true ->
  groq_reply w = HttpAnswers t status content ->
  http_ok status = true ->
  content_text content = [] ->
  (t < timer_at (DEADLINE_MS cfg))%nat ->
  (forall t' win',
     openaiChat (openai_reply w) = Fulfilled t' win' -> (t <= t')%nat) ->
  (forall name age st,
     post_generate_greeting U cfg name age w st
     = ({| status := 502; json := Failure (lit "EMPTY_GENERATION") |}, st))
  /\ (MOCK_TEXT cfg = false ->
      forall language level,
        post_generate_text U cfg language level w
        = {| status := 502; json := Failure (lit "EMPTY_GENERATION") |})
  /\ post_motivate U cfg w
     = {| status := 502;
          json := FailureWithFallback (lit "EMPTY_MOTIVATION")
                    MOTIVATION_FALLBACK |}.
Proof.
  intros Hkey Hreply Hok Hblank Hlt Hopenai.
  assert (race cfg w = (t, Return {| provider := lit "groq"; text := [] |}))
    as Hrace.
  { unfold race, racers, Promise_any. rewrite Hkey.
    unfold groqChat at 1. rewrite Hreply, Hok, Hblank.
    cbn [app first_fulfilled].
    assert (first_fulfilled (if openai cfg then [openaiChat (openai_reply w)] else [])
            = None
            \/ exists t' v', first_fulfilled
                 (if openai cfg then [openaiChat (openai_reply w)] else [])
               = Some (t', v') /\ (t <= t')%nat) as [-> | (t' & v' & -> & Hle)].
    { destruct (openai cfg); [| by left].
      cbn [first_fulfilled].
      destruct (openaiChat (openai_reply w)) as [t' v' | |] eqn:E;
        [right | by left | by left].
      exists t', v'. split; [done |]. by apply (Hopenai t' v'). }
    - unfold withDeadline. apply Nat.ltb_lt in Hlt. by rewrite Hlt.
    - destruct (Nat.ltb_spec t' t) as [Hlt' | _]; [lia |].
      unfold withDeadline. apply Nat.ltb_lt in Hlt. by rewrite Hlt. }
  split; [| split].
  - intros name age st.
    unfold post_generate_greeting, generateGreetingV2. by rewrite Hrace.
  - intros Hmock language level. unfold post_generate_text.
    by rewrite Hmock, Hrace.
  - unfold post_motivate, generateMotivation. by rewrite Hrace.
Qed.

End EmptyAnswer.

(** ** The rubric of a motivation *)

Lemma round_reaches (k : Z) (q : Q) :
  (k <= Math_round q)%Z <-> (inject_Z k - (1 # 2) <= q)%Q.
Proof.
  unfold Math_round. split.
  - intros H.
    assert (inject_Z k <= q + (1 # 2))%Q as Hq.
    { eapply Qle_trans; [| apply Qfloor_le]. by rewrite <- Zle_Qle. }
    lra.
  - intros H.
    assert (inject_Z k <= q + (1 # 2))%Q as Hq by lra.
    apply Qfloor_resp_le in Hq. by rewrite Qfloor_Z in Hq.
Qed.

Lemma score_reaches (k : Z) (q : Q) :
  (0 < k <= 100)%Z ->
  (k <=? rubric_score (Finite q))%Z = Qle_bool (inject_Z k - (1 # 2))%Q q.
Proof.
  intros Hk. cbn [rubric_score].
  destruct (Qle_bool (inject_Z k - (1 # 2))%Q q) eqn:E.
  - apply Qle_bool_iff, round_reaches in E. apply Z.leb_le. lia.
  - apply Z.leb_gt.
    assert (~ (k <= Math_round q)%Z) as Hn.
    { intros H. apply round_reaches, Qle_bool_iff in H. congruence. }
    lia.
Qed.

(** X13. The rubric of a motivation by the accuracy that the request gives:
    the best rubric from 94.5 on, the second from 79.5 on, the third from
    59.5 on and the last one below, the accuracy being rounded to the
    nearest integer, halves upwards, before it is compared with 95, 80 and
    60; an accuracy that is not a number gets the last rubric, and the
    clamping to the range from 0 to 100 changes nothing. *)
Theorem rubricByAccuracy_thresholds (q : Q) :
  rubricByAccuracy (Finite q)
  = (if Qle_bool (189 # 2) q then RUBRIC_EXCELLENT
     else if Qle_bool (159 # 2) q then RUBRIC_VERY_GOOD
     else if Qle_bool (119 # 2) q then RUBRIC_GOOD
     else RUBRIC_WARM_UP)
  /\ rubricByAccuracy NaN = RUBRIC_WARM_UP
  /\ rubricByAccuracy MinusInfinity = RUBRIC_WARM_UP
  /\ rubricByAccuracy PlusInfinity = RUBRIC_EXCELLENT.
Proof.
  split; [| by repeat split].
  unfold rubricByAccuracy. cbv zeta.
  rewrite !score_reaches by lia.
  assert (forall a b, (a == b)%Q -> Qle_bool a q = Qle_bool b q) as Hcompat.
  { intros a b Hab. destruct (Qle_bool b q) eqn:E.
    - apply Qle_bool_iff. apply Qle_bool_iff in E. by rewrite Hab.
    - destruct (Qle_bool a q) eqn:E'; [| done].
      apply Qle_bool_iff in E'. rewrite Hab in E'.
      apply Qle_bool_iff in E'. congruence. }
  rewrite (Hcompat (inject_Z 95 - (1 # 2))%Q (189 # 2)%Q) by reflexivity.
  rewrite (Hcompat (inject_Z 80 - (1 # 2))%Q (159 # 2)%Q) by reflexivity.
  rewrite (Hcompat (inject_Z 60 - (1 # 2))%Q (119 # 2)%Q) by reflexivity.
  done.
Qed.

(** ** The gate of the OCR jobs *)

Lemma filter_length_app {X : Type} (f : X -> bool) (l k : list X) :
  length (List.filter f (l ++ k))
  = (length (List.filter f l) + length (List.filter f k))%nat.
Proof. by rewrite List.filter_app, length_app. Qed.

Lemma filter_length_insert {X : Type} (f : X -> bool) (l : list X)
    (i : nat) (old new : X) :
  l !! i = Some old ->
  (length (List.filter f (<[i := new]> l)) + (if f old then 1 else 0))%nat
  = (length (List.filter f l) + (if f new then 1 else 0))%nat.
Proof.
  revert i. induction l as [|x l IH]; intros i Hi; [done |].
  destruct i as [|i]; simpl in *.
  - injection Hi as ->. destruct (f old), (f new); simpl; lia.
  - specialize (IH i Hi). destruct (f x); simpl; lia.
Qed.

Lemma filter_length_lookup {X : Type} (f : X -> bool) (l : list X)
    (i : nat) (x : X) :
  l !! i = Some x -> f x = true -> (1 <= length (List.filter f l))%nat.
Proof.
  revert i. induction l as [|y l IH]; intros i Hi Hx; [done |].
  destruct i as [|i]; simpl in *.
  - injection Hi as ->. rewrite Hx. simpl. lia.
  - specialize (IH i Hi Hx). destruct (f y); simpl; lia.
Qed.

Section GateProps.

Variable MAX_CONCURRENCY : option nat.

Lemma acquire_ok (n : nat) :
  match MAX_CONCURRENCY with Some limit => (n <= limit)%nat | None => True end ->
  (fst (acquire MAX_CONCURRENCY n)
   = n + (if is_working (snd (acquire MAX_CONCURRENCY n)) then 1 else 0))%nat
  /\ snd (acquire MAX_CONCURRENCY n) <> Done
  /\ match MAX_CONCURRENCY with
     | Some limit => (fst (acquire MAX_CONCURRENCY n) <= limit)%nat
     | None => True
     end.
Proof.
  intros Hn. unfold acquire, gate_full.
  destruct MAX_CONCURRENCY as [limit |].
  - destruct (Nat.leb_spec limit n); simpl; repeat split; try done; lia.
  - simpl. repeat split; try done; lia.
Qed.

Lemma step_ok (g : gate) (e : event) : gate_ok MAX_CONCURRENCY g -> gate_ok MAX_CONCURRENCY (step MAX_CONCURRENCY g e).
Proof.
  intros [Hcount Hlimit]. unfold gate_ok, working in *.
  destruct (acquire_ok (inflight g) Hlimit) as (Hn & _ & Hl).
  destruct e as [| i | i]; cbn [step].
  - destruct (acquire MAX_CONCURRENCY (inflight g)) as [n p].
    cbn [fst snd inflight jobs] in *. split; [| done].
    rewrite filter_length_app. simpl. destruct (is_working p); simpl; lia.
  - destruct (jobs g !! i) as [[| |] |] eqn:Ei; try done.
    destruct (acquire MAX_CONCURRENCY (inflight g)) as [n p].
    cbn [fst snd inflight jobs] in *. split; [| done].
    pose proof (filter_length_insert is_working _ i Asleep p Ei) as Hf.
    simpl in Hf. lia.
  - destruct (jobs g !! i) as [[| |] |] eqn:Ei; try done.
    cbn [inflight jobs]. unfold release.
    pose proof (filter_length_insert is_working _ i Working Done Ei) as Hf.
    simpl in Hf. split; [lia |].
    destruct MAX_CONCURRENCY; [lia | done].
Qed.

Lemma gate_after_ok (events : list event) :
  gate_ok MAX_CONCURRENCY (gate_after MAX_CONCURRENCY events).
Proof.
  unfold gate_after.
  assert (gate_ok MAX_CONCURRENCY {| inflight := 0; jobs := [] |}) as Hinit.
  { split; [done |]. destruct MAX_CONCURRENCY; simpl; [lia | done]. }
  revert Hinit. generalize {| inflight := 0; jobs := [] |}.
  induction events as [|e events IH]; intros g Hg; [done |].
  simpl. by apply IH, step_ok.
Qed.


End GateProps.

(** ** The speech proxy *)

(** X15. The speech proxy calls the service only with a key that is not
    empty and a text of 1 to 500 characters that begins with no white space
    and is the beginning of the trimmed text of the request: two services
    that agree on such calls get the same answers from the proxy. *)
Theorem speech_proxy_sends_a_bounded_text
    (ELEVEN_API_KEY ELEVENLABS_API_KEY text voiceId : option jsstring)
    (fetch fetch' : tts_call -> tts_reply) :
  (forall call,
     api_key call <> [] ->
     (1 <= length (spoken call) <= 500)%nat ->
     match spoken call with c :: _ => isSpace c = false | [] => False end ->
     (exists rest,
        trim (match text with Some t => t | None => [] end)
        = spoken call ++ rest) ->
     fetch call = fetch' call) ->
  post_tts ELEVEN_API_KEY ELEVENLABS_API_KEY text voiceId fetch
  = post_tts ELEVEN_API_KEY ELEVENLABS_API_KEY text voiceId fetch'.
Proof.
  intros Hagree. unfold post_tts.
  destruct (env_or ELEVEN_API_KEY ELEVENLABS_API_KEY) as [[|k key] |];
    [done | | done].
  set (t := match text with Some t => t | None => [] end) in *.
  pose proof (trim_head t) as Hhead.
  destruct (firstn 500 (trim t)) as [|c clean] eqn:E; [done |].
  cbn [truthy]. rewrite Hagree; [done | done | | |]; cbn [spoken].
  - rewrite <- E, length_firstn. split; [| lia].
    assert (length (firstn 500 (trim t)) = S (length clean)) as Hl
      by by rewrite E.
    rewrite length_firstn in Hl. lia.
  - destruct (trim t) as [|d rest]; [done |].
    simpl in E. by injection E as <- _.
  - exists (skipn 500 (trim t)). rewrite <- E. by rewrite firstn_skipn.
Qed.

(** ** The words of a transcript *)

Lemma split_go_skipn (m : matcher) (k : nat) (prev : option N)
    (cur s : list N) :
  (k <= length s)%nat ->
  split_go m k prev cur s
  = split_go m O (char_before prev s k) cur (skipn k s).
Proof.
  revert k prev. induction s as [|c s IH]; intros k prev Hk.
  - destruct k; [done | simpl in Hk; lia].
  - destruct k as [|k]; [done |].
    simpl in Hk. cbn [split_go skipn]. rewrite IH by lia.
    destruct k; done.
Qed.

(** One step of [s.split(/\s+/)]: a run of white space ends the piece, any
    other character goes into it. *)
Lemma split_spaces_cons (prev : option N) (cur : list N) (c : N) (t : list N) :
  split_go m_spaces O prev cur (c :: t)
  = if isSpace c
    then cur :: split_go m_spaces O
                  (char_before (Some c) t (run_length isSpace t)) []
                  (skip_while isSpace t)
    else split_go m_spaces O (Some c) (cur ++ [c]) t.
Proof.
  cbn [split_go]. unfold m_spaces at 1. cbn [run_length].
  destruct (isSpace c); [| done].
  rewrite split_go_skipn by apply run_length_le.
  by rewrite skipn_run_length.
Qed.

Lemma split_spaces_pieces (n : nat) (prev : option N) (cur s : list N) :
  (length s <= n)%nat ->
  Forall (fun c => isSpace c = false) cur ->
  List.concat (split_go m_spaces O prev cur s) = cur ++ ink s
  /\ Forall (Forall (fun c => isSpace c = false))
       (split_go m_spaces O prev cur s).
Proof.
  revert prev cur s. induction n as [|n IH]; intros prev cur s Hn Hcur.
  - destruct s; [| simpl in Hn; lia]. simpl. rewrite !app_nil_r.
    split; [done | by repeat constructor].
  - destruct s as [|c t].
    { simpl. rewrite !app_nil_r. split; [done | by repeat constructor]. }
    simpl in Hn. rewrite split_spaces_cons, ink_cons.
    pose proof (skip_while_length isSpace t) as Hl.
    destruct (isSpace c) eqn:Ec.
    + destruct (IH (char_before (Some c) t (run_length isSpace t)) []
                  (skip_while isSpace t)) as [H1 H2]; [lia | constructor |].
      cbn [List.concat]. rewrite H1, ink_skip_while. split; [done |].
      by constructor.
    + destruct (IH (Some c) (cur ++ [c]) t) as [H1 H2]; [lia | |].
      { apply Forall_app. split; [done |]. by repeat constructor. }
      rewrite H1. split; [by rewrite <- app_assoc | done].
Qed.

Lemma fallback_words_pieces (s : jsstring) :
  List.concat (fallback_words s) = ink s
  /\ Forall (fun w => w <> [] /\ Forall (fun c => isSpace c = false) w)
       (fallback_words s).
Proof.
  assert (List.concat (split_re m_spaces s) = ink s
          /\ Forall (Forall (fun c => isSpace c = false)) (split_re m_spaces s))
    as [H1 H2].
  { unfold split_re. destruct s as [|c t]; [by repeat constructor |].
    apply (split_spaces_pieces (length (c :: t))); [done | constructor]. }
  unfold fallback_words, filter_Boolean. split.
  - rewrite <- H1. clear. induction (split_re m_spaces s) as [|w l IH]; [done |].
    simpl. destruct w as [|c w]; simpl; by rewrite IH.
  - apply Forall_and.
    + eapply Forall_impl; [apply filter_holds |]. intros w Hw. by destruct w.
    + by apply filter_Forall.
Qed.

Lemma drop_end_app (p : N -> bool) (a b : list N) :
  drop_end p (a ++ b)
  = if forallb p b then drop_end p a else a ++ drop_end p b.
Proof.
  induction a as [|c a IH]; cbn [app].
  - destruct (forallb p b) eqn:E; [| done].
    unfold drop_end. simpl.
    destruct (skip_while_split p (rev b)) as (pre & Hs & Hpre).
    pose proof (skip_while_head p (rev b)) as Hh.
    destruct (skip_while p (rev b)) as [|d k]; [done |].
    rewrite forallb_forall in E. rewrite (E d) in Hh; [done |].
    apply in_rev. rewrite Hs. apply in_or_app. right. by left.
  - rewrite !drop_end_cons, IH. cbn [forallb]. rewrite forallb_app.
    destruct (forallb p b); [by rewrite andb_true_r |].
    by rewrite andb_false_r, andb_false_r.
Qed.

Lemma trim_drop_end (s : jsstring) :
  trim s = drop_end isSpace (skip_while isSpace s).
Proof. done. Qed.

Lemma drop_end_clean (p : N -> bool) (a : list N) :
  Forall (fun c => p c = false) a -> drop_end p a = a.
Proof.
  induction 1 as [|c a Hc Ha IH]; [done |].
  rewrite drop_end_cons. cbn [forallb]. by rewrite Hc, IH.
Qed.

Lemma join_cons (sep w : jsstring) (ws : list jsstring) :
  join sep (w :: ws)
  = w ++ match ws with [] => [] | _ => sep ++ join sep ws end.
Proof.
  destruct ws as [|x ws]; cbn [join List.map List.concat]; [done |].
  by rewrite <- app_assoc.
Qed.

Lemma join_nil_words (sep : jsstring) (ws : list jsstring) :
  Forall (fun w => w <> []) ws -> join sep ws = [] -> ws = [].
Proof.
  intros Hws H. destruct ws as [|w ws]; [done |].
  apply Forall_cons in Hws as [Hw _]. rewrite join_cons in H.
  by destruct w.
Qed.

(** Joined with single spaces, the pieces of [s.split(/\s+/)] that are not
    empty are the text with its white space collapsed and trimmed. *)
Lemma split_spaces_join (n : nat) (p1 p2 : option N) (cur s : list N) :
  (length s <= n)%nat ->
  Forall (fun c => isSpace c = false) cur ->
  join [32] (filter_Boolean (split_go m_spaces O p1 cur s))
  = trim (cur ++ replace_go m_spaces [32] O p2 s).
Proof.
  revert p1 p2 cur s. induction n as [|n IH]; intros p1 p2 cur s Hn Hcur.
  - destruct s; [| simpl in Hn; lia]. cbn [split_go replace_go m_spaces run_length].
    rewrite app_nil_r, trim_drop_end.
    assert (skip_while isSpace cur = cur) as ->.
    { destruct Hcur as [|c cur Hc _]; [done |]. simpl. by rewrite Hc. }
    rewrite drop_end_clean by done.
    destruct cur; [done |]. simpl. by rewrite app_nil_r.
  - destruct s as [|c t].
    { apply (IH p1 p2 cur []); [simpl; lia | done]. }
    simpl in Hn. rewrite split_spaces_cons, collapse_go_cons.
    pose proof (skip_while_length isSpace t) as Hl.
    destruct (isSpace c) eqn:Ec.
    + set (t' := skip_while isSpace t) in *.
      set (q := char_before (Some c) t (run_length isSpace t)).
      specialize (IH q q [] t' ltac:(lia) ltac:(constructor)).
      rewrite app_nil_l in IH.
      set (X := replace_go m_spaces [32] O q t') in *.
      assert (match X with d :: _ => isSpace d = false | [] => True end) as Hx.
      { destruct (collapse_go_spaced (length t') t' q) as [_ H]; [lia |].
        fold X in H. pose proof (skip_while_head isSpace t) as Hh. fold t' in Hh.
        destruct X as [|d X']; [done |]. destruct t' as [|e t'']; [done |].
        destruct (isSpace d); [| done]. by rewrite H in Hh. }
      assert (trim X = drop_end isSpace X) as HtX.
      { rewrite trim_drop_end. destruct X as [|d X']; [done |].
        simpl. by rewrite Hx. }
      assert (Forall (fun w : jsstring => w <> [])
                (filter_Boolean (split_go m_spaces O q [] t'))) as Hws.
      { unfold filter_Boolean. eapply Forall_impl; [apply filter_holds |].
        intros w Hw. by destruct w. }
      destruct cur as [|a cur].
      * cbn [filter_Boolean List.filter truthy app].
        fold (filter_Boolean (split_go m_spaces O q [] t')). rewrite IH.
        rewrite !trim_drop_end. cbn [skip_while].
        change (isSpace 32) with true. cbn iota. done.
      * cbn [filter_Boolean List.filter truthy].
        fold (filter_Boolean (split_go m_spaces O q [] t')).
        rewrite join_cons, trim_drop_end.
        apply Forall_cons in Hcur as Hcur'. destruct Hcur' as [Ha Hcur'].
        cbn [app skip_while]. rewrite Ha.
        change (a :: cur ++ 32 :: X) with ((a :: cur) ++ 32 :: X).
        rewrite drop_end_app.
        destruct (forallb isSpace (32 :: X)) eqn:Eall.
        -- rewrite drop_end_clean by done.
           assert (trim X = []) as Hnil.
           { apply trim_spaces_nil. by simpl in Eall. }
           rewrite Hnil in IH. apply join_nil_words in IH; [| done].
           rewrite IH. by rewrite app_nil_r.
        -- rewrite drop_end_cons, Eall.
           assert (trim X <> []) as Hne.
           { intros Hnil. apply trim_nil_spaces in Hnil.
             simpl in Eall. by rewrite Hnil in Eall. }
           rewrite <- HtX, <- IH in *.
           destruct (filter_Boolean (split_go m_spaces O q [] t')); done.
    + rewrite (IH (Some c) (Some c) (cur ++ [c]) t); [| lia |].
      * by rewrite <- app_assoc.
      * apply Forall_app. split; [done |]. by repeat constructor.
Qed.

Section Transcript.

Variable num : Type.
Variable zero : num.
Variable add : num -> num -> num.
Variable c04 c08 : num.

Lemma spread_words (t : num) (words : list jsstring) :
  List.map (word num) (spread num add c04 c08 t words) = words.
Proof.
  revert t. induction words as [|w words IH]; intros t; [done |].
  simpl. by rewrite IH.
Qed.

(** X16. When the speech service gives no timings, the words that the
    speech endpoint counts and spreads over time are the runs of characters
    of the recognized text between white space: none is empty, none holds
    white space, concatenated they are the text without its white space,
    and joined with single spaces they are the text with its white space
    collapsed and trimmed; [wordsRead] is their number. *)
Theorem fallback_words_are_the_runs_between_white_space
    (recognizedText : jsstring) :
  Forall (fun w => w <> [] /\ Forall (fun c => isSpace c = false) w)
    (fallback_words recognizedText)
  /\ List.concat (fallback_words recognizedText) = ink recognizedText
  /\ join [32] (fallback_words recognizedText)
     = trim (collapse_spaces recognizedText)
  /\ List.map (word num)
       (fallback_timestamps num zero add c04 c08 recognizedText)
     = fallback_words recognizedText
  /\ wordsRead num (fallback_timestamps num zero add c04 c08 recognizedText)
     = length (fallback_words recognizedText).
Proof.
  destruct (fallback_words_pieces recognizedText) as [H1 H2].
  split; [done |]. split; [done |]. split; [| split].
  - unfold fallback_words, split_re, collapse_spaces, replace_all.
    destruct recognizedText as [|c t]; [done |].
    by rewrite (split_spaces_join (length (c :: t)) None None [] (c :: t)).
  - apply spread_words.
  - unfold wordsRead, fallback_timestamps.
    rewrite <- (spread_words zero (fallback_words recognizedText)) at 2.
    symmetry. apply length_map.
Qed.

End Transcript.

(** ** What a client can be told *)

Lemma racers_providers (cfg : config) (w : world) (t : nat) (win : winner) :
  Fulfilled t win ∈ racers cfg w ->
  provider win = lit "groq" \/ provider win = lit "openai".
Proof.
  unfold racers. intros H. apply elem_of_app in H as [H | H].
  - destruct (GROQ_API_KEY cfg); [| inversion H].
    apply list_elem_of_singleton in H. left.
    unfold groqChat in H. destruct (groq_reply w) as [| t0 e | t0 st content];
      [done | done |].
    destruct (http_ok st); [| done]. by injection H as _ ->.
  - destruct (openai cfg); [| inversion H].
    apply list_elem_of_singleton in H. right.
    unfold openaiChat in H. destruct (openai_reply w) as [| t0 e | t0 content];
      [done | done |].
    destruct (truthy (content_text content)); [| done]. by injection H as _ ->.
Qed.

(** How a race ends: with the answer of a provider, with the error of the
    deadline, or with the aggregate error of [Promise.any]. *)
Lemma race_outcomes (cfg : config) (w : world) :
  match snd (race cfg w) with
  | Return win => provider win = lit "groq" \/ provider win = lit "openai"
  | Throw e =>
      e = Error (lit "DEADLINE_EXCEEDED") \/ exists errors, e = AggregateError errors
  end.
Proof.
  unfold race, Promise_any.
  destruct (first_fulfilled (racers cfg w)) as [[t v] |] eqn:E.
  - destruct (first_fulfilled_earliest _ _ _ E) as [Hin _].
    unfold withDeadline. destruct (_ <? _)%nat; simpl; [| by left].
    by apply (racers_providers cfg w t).
  - destruct (existsb is_pending (racers cfg w)); [by left |].
    unfold withDeadline. destruct (_ <? _)%nat; simpl; [right; eauto | by left].
Qed.

Lemma provider_known (win : winner) :
  provider win = lit "groq" \/ provider win = lit "openai" ->
  or_else (provider win) (lit "unknown") = provider win.
Proof. intros [-> | ->]; reflexivity. Qed.

Section Told.

Context (U : Unicode).
Variable cfg : config.


End Told.

(** ** The greeting sanitizer *)

Lemma ci_starts_with_length (U : Unicode) (p s : list N) :
  ci_starts_with U p s = true -> (length p <= length s)%nat.
Proof.
  revert s. induction p as [|a p IH]; intros s H; [simpl; lia |].
  destruct s as [|b s]; [done |]. simpl in *.
  apply andb_true_iff in H as [_ H]. specialize (IH s H). lia.
Qed.

Lemma skipn_add {X : Type} (a b : nat) (l : list X) :
  skipn (a + b) l = skipn b (skipn a l).
Proof.
  revert l. induction a as [|a IH]; intros l; [done |].
  destruct l as [|x l]; [by rewrite !skipn_nil |]. apply IH.
Qed.

(** What [(?:w1|w2|...)\b tail*] leaves: nothing, or a text that begins with
    a character outside the class of the tail. *)
Lemma m_words_rest (U : Unicode) (ws : list (list N)) (tail : N -> bool)
    (prev : option N) (s : list N) (n : nat) :
  m_words U ws tail prev s = Some n ->
  (n <= length s)%nat
  /\ match skipn n s with c :: _ => tail c = false | [] => True end.
Proof.
  induction ws as [|w ws IH]; [done |]. cbn [m_words].
  destruct (ci_starts_with U w s && boundary U _ _) eqn:E; [| exact IH].
  apply andb_true_iff in E as [E _]. apply ci_starts_with_length in E.
  intros [= <-]. split.
  - pose proof (run_length_le tail (skipn (length w) s)) as H.
    rewrite length_skipn in H. lia.
  - rewrite skipn_add, skipn_run_length. apply skip_while_head.
Qed.

Lemma m_hello_from_rest (U : Unicode) (k : nat) (prev : option N)
    (s : list N) (n : nat) :
  (k <= length s)%nat ->
  m_hello_from U k prev s = Some n ->
  (n <= length s)%nat
  /\ match skipn n s with c :: _ => hello_tail U c = false | [] => True end.
Proof.
  induction k as [|k IH]; intros Hk; cbn [m_hello_from].
  - destruct (m_words U _ _ _ _) as [n' |] eqn:E; [| done].
    intros [= <-]. by apply (m_words_rest U _ _ _ _ _ E).
  - destruct (m_words U _ _ _ _) as [n' |] eqn:E; [| apply IH; lia].
    intros [= <-]. destruct (m_words_rest U _ _ _ _ _ E) as [H1 H2].
    rewrite length_skipn in H1. split; [lia |].
    change (S (k + n')) with (S k + n')%nat. by rewrite skipn_add.
Qed.

Lemma helloRe_rest (U : Unicode) (prev : option N) (s : list N) (n : nat) :
  helloRe U prev s = Some n ->
  (n <= length s)%nat
  /\ match skipn n s with c :: _ => hello_tail U c = false | [] => True end.
Proof. apply m_hello_from_rest, run_length_le. Qed.

Section Sanitizer.

Context (U : Unicode).

(** X18. When the greeting pattern matches at the beginning of a candidate,
    what is removed is the greeting word together with everything up to the
    first character that is not a letter, a mark, white space or one of
    [,!.?] and the dashes; a candidate that holds no other character is
    removed entirely, whatever the name. *)
Theorem hello_removal_takes_the_words_that_follow
    (name raw : jsstring) (n : nat) :
  helloRe U None (decode (trim raw)) = Some n ->
  (n <= length (decode (trim raw)))%nat
  /\ match skipn n (decode (trim raw)) with
     | c :: _ => hello_tail U c = false
     | [] => True
     end
  /\ (forallb (hello_tail U) (decode (trim raw)) = true ->
      sanitizeNoName U name raw = []).
Proof.
  intros Hm. destruct (helloRe_rest U _ _ _ Hm) as [Hn Hrest].
  split; [done |]. split; [done |].
  intros Hall.
  assert (skipn n (decode (trim raw)) = []) as Hnil.
  { destruct (skipn n (decode (trim raw))) as [|c k] eqn:E; [done |].
    rewrite forallb_forall in Hall. rewrite (Hall c) in Hrest; [done |].
    rewrite <- (firstn_skipn n (decode (trim raw))), E.
    apply in_or_app. right. by left. }
  assert (replace_start (helloRe U) [] (decode (trim raw)) = []) as Hwiped.
  { unfold replace_start. by rewrite Hm, Hnil. }
  unfold sanitizeNoName, on_code_points. rewrite Hwiped.
  destruct (truthy name); reflexivity.
Qed.

End Sanitizer.

Lemma decode_bound (s : jsstring) :
  Forall (fun c => c < 65536) s -> Forall (fun c => c < 1114112) (decode s).
Proof.
  assert (forall n s, (length s <= n)%nat ->
            Forall (fun c => c < 65536) s ->
            Forall (fun c => c < 1114112) (decode s))
    as H; [| by apply (H (length s))].
  clear s. intros n. induction n as [|n IH]; intros s Hlen Hs.
  - destruct s; [constructor | simpl in Hlen; lia].
  - destruct s as [|h [|l t]]; [constructor | |].
    + apply Forall_cons in Hs as [Hh _]. simpl. repeat constructor. lia.
    + simpl in Hlen. apply Forall_cons in Hs as [Hh Hs].
      destruct (isHigh h && isLow l) eqn:E.
      * apply andb_true_iff in E as [Eh El]. rewrite decode_pair by done.
        apply Forall_cons in Hs as [_ Hs].
        constructor; [| apply IH; [lia | done]].
        pose proof (pair_is_scalar h l Eh El) as Hsc.
        unfold scalar in Hsc. apply andb_true_iff in Hsc as [_ Hsc].
        by apply N.ltb_lt.
      * rewrite decode_no_pair by done.
        constructor; [lia | apply IH; [simpl; lia | done]].
Qed.

Lemma encode1_units (c : N) :
  c < 1114112 ->
  Forall (fun u => u < 65536) (encode1 c)
  /\ (65536 <= c ->
      exists q r, encode1 c = [55296 + q; r] /\ q < 1024).
Proof.
  intros Hc. unfold encode1. destruct (N.ltb_spec c 65536) as [Hlt | Hge].
  - split; [by repeat constructor | lia].
  - assert ((c - 65536) / 1024 < 1024) as Hq.
    { apply N.Div0.div_lt_upper_bound. lia. }
    assert ((c - 65536) mod 1024 < 1024) as Hr.
    { apply N.mod_lt. lia. }
    revert Hq Hr.
    generalize ((c - 65536) / 1024). generalize ((c - 65536) mod 1024).
    intros r q Hq Hr. split.
    + repeat constructor; lia.
    + intros _. by exists q, (56320 + r).
Qed.

Lemma encode_units (cps : list N) :
  Forall (fun c => c < 1114112) cps -> Forall (fun u => u < 65536) (encode cps).
Proof.
  induction 1 as [|c cps Hc Hcps IH]; [constructor |].
  rewrite encode_cons. apply Forall_app. split; [| done].
  by apply encode1_units.
Qed.

Lemma replace_start_Forall (P : N -> Prop) (m : matcher) (s : list N) :
  Forall P s -> Forall P (replace_start m [] s).
Proof.
  intros H. unfold replace_start. destruct (m None s); [| done].
  by apply skipn_Forall.
Qed.

Lemma lead_strip (cps : list N) :
  replace_start leadRe [] cps = skip_while isLead cps.
Proof.
  unfold replace_start, leadRe.
  destruct (run_length isLead cps) as [|n] eqn:E.
  - destruct cps as [|c k]; [done |]. simpl in *.
    by destruct (isLead c).
  - by rewrite <- E, skipn_run_length.
Qed.

Lemma high_unit_not_lead (q : N) : q < 1024 -> isLead (55296 + q) = false.
Proof.
  intros Hq. unfold isLead, isSpace, inClass. cbn [existsb].
  repeat (rewrite (proj2 (N.eqb_neq (55296 + q) _)) by lia).
  rewrite (proj2 (N.leb_gt (55296 + q) 8202)) by lia.
  by rewrite andb_false_r.
Qed.

Lemma lead_is_space_or_mark (c : N) : isSpace c = true -> isLead c = true.
Proof. intros H. unfold isLead. rewrite H. apply orb_true_r. Qed.

Lemma trim_fixed (s : jsstring) :
  match s with c :: _ => isSpace c = false | [] => True end ->
  match rev s with c :: _ => isSpace c = false | [] => True end ->
  trim s = s.
Proof.
  intros Hh Hl. rewrite trim_drop_end.
  assert (skip_while isSpace s = s) as ->.
  { destruct s as [|c t]; [done |]. simpl. by rewrite Hh. }
  unfold drop_end.
  assert (skip_while isSpace (rev s) = rev s) as ->.
  { destruct (rev s) as [|c t]; [done |]. simpl. by rewrite Hl. }
  apply rev_involutive.
Qed.

Lemma trim_idem (s : jsstring) : trim (trim s) = trim s.
Proof. apply trim_fixed; [apply trim_head | apply trim_last]. Qed.

(** Trimming keeps the first character of a text that begins with no white
    space. *)
Lemma trim_keeps_head (c : N) (s : jsstring) :
  isSpace c = false -> exists k, trim (c :: s) = c :: k.
Proof.
  intros Hc. rewrite trim_drop_end. cbn [skip_while]. rewrite Hc.
  rewrite drop_end_cons. cbn [forallb]. rewrite Hc. cbn [andb]. eauto.
Qed.

Section Shape.

Context (U : Unicode).

Lemma sanitize_units (name raw : jsstring) :
  Forall (fun c => c < 65536) raw ->
  exists s3,
    Forall (fun c => c < 65536) s3
    /\ sanitizeNoName U name raw
       = trim (on_code_points (replace_start leadRe []) s3).
Proof.
  intros Hraw. unfold sanitizeNoName.
  set (s1 := trim raw).
  assert (Forall (fun c => c < 65536) s1) as H1 by by apply trim_Forall.
  set (s2 := trim (on_code_points (replace_start (helloRe U) []) s1)).
  assert (Forall (fun c => c < 65536) s2) as H2.
  { apply trim_Forall. unfold on_code_points.
    by apply encode_units, replace_start_Forall, decode_bound. }
  eexists. split; [| reflexivity].
  destruct (truthy name); [| done].
  apply trim_Forall. unfold on_code_points, replace_all.
  apply encode_units, replace_go_Forall; [constructor |].
  by apply decode_bound.
Qed.

(** X19. On a text made of code units, the result of the greeting sanitizer
    begins with no white space and with none of the marks [,–—-|:;!.], ends
    with no white space, and is not changed by a further trim. *)
Theorem sanitizeNoName_begins_with_no_mark (name raw : jsstring) :
  Forall (fun c => c < 65536) raw ->
  match sanitizeNoName U name raw with
  | c :: _ => isLead c = false
  | [] => True
  end
  /\ match rev (sanitizeNoName U name raw) with
     | c :: _ => isSpace c = false
     | [] => True
     end
  /\ trim (sanitizeNoName U name raw) = sanitizeNoName U name raw.
Proof.
  intros Hraw. destruct (sanitize_units name raw Hraw) as (s3 & H3 & ->).
  split; [| split; [apply trim_last | apply trim_idem]].
  unfold on_code_points. rewrite lead_strip.
  pose proof (skip_while_head isLead (decode s3)) as Hhead.
  assert (Forall (fun c => c < 1114112) (skip_while isLead (decode s3))) as Hb.
  { destruct (skip_while_split isLead (decode s3)) as (pre & Hs & _).
    pose proof (decode_bound s3 H3) as Hd. rewrite Hs in Hd.
    by apply Forall_app in Hd as [_ Hd]. }
  destruct (skip_while isLead (decode s3)) as [|c k]; [done |].
  apply Forall_cons in Hb as [Hc _]. rewrite encode_cons.
  assert (exists u rest, encode1 c ++ encode k = u :: rest /\ isLead u = false)
    as (u & rest & -> & Hu).
  { destruct (N.ltb_spec c 65536) as [Hlt | Hge].
    - exists c, (encode k). unfold encode1.
      apply N.ltb_lt in Hlt. by rewrite Hlt.
    - destruct (proj2 (encode1_units c Hc) Hge) as (q & r & -> & Hq).
      exists (55296 + q), (r :: encode k). split; [done |].
      by apply high_unit_not_lead. }
  assert (isSpace u = false) as Hsp.
  { destruct (isSpace u) eqn:E; [| done].
    apply lead_is_space_or_mark in E. congruence. }
  destruct (trim_keeps_head u rest Hsp) as (k' & ->). done.
Qed.

End Shape.

(** ** A sanitizer only deletes *)

Lemma encode1_pair (h l : N) :
  isHigh h = true -> isLow l = true ->
  encode1 (65536 + (h - 55296) * 1024 + (l - 56320)) = [h; l].
Proof.
  intros Hh Hl.
  assert (55296 <= h < 56320 /\ 56320 <= l < 57344) as [Hh' Hl'] by surrogates.
  unfold encode1.
  assert ((65536 + (h - 55296) * 1024 + (l - 56320) <? 65536) = false) as ->
    by (apply N.ltb_ge; lia).
  replace (65536 + (h - 55296) * 1024 + (l - 56320) - 65536)
    with (1024 * (h - 55296) + (l - 56320)) by lia.
  rewrite <- (N.div_unique (1024 * (h - 55296) + (l - 56320)) 1024
                (h - 55296) (l - 56320)) by lia.
  rewrite <- (N.mod_unique (1024 * (h - 55296) + (l - 56320)) 1024
                (h - 55296) (l - 56320)) by lia.
  f_equal; [lia | f_equal; lia].
Qed.

(** Code units read as code points and written back are the same code
    units. *)
Lemma encode_decode (s : jsstring) :
  Forall (fun c => c < 65536) s -> encode (decode s) = s.
Proof.
  assert (forall n s, (length s <= n)%nat ->
            Forall (fun c => c < 65536) s -> encode (decode s) = s)
    as H; [| by apply (H (length s))].
  clear s. intros n. induction n as [|n IH]; intros s Hlen Hs.
  - destruct s; [done | simpl in Hlen; lia].
  - destruct s as [|h [|l t]]; [done | |].
    + apply Forall_cons in Hs as [Hh _]. cbn. unfold encode1.
      apply N.ltb_lt in Hh. by rewrite Hh.
    + simpl in Hlen. apply Forall_cons in Hs as [Hh Hs].
      destruct (isHigh h && isLow l) eqn:E.
      * apply andb_true_iff in E as [Eh El]. rewrite decode_pair by done.
        apply Forall_cons in Hs as [_ Hs].
        rewrite encode_cons, encode1_pair by done.
        cbn [app]. f_equal. f_equal. apply IH; [lia | done].
      * rewrite decode_no_pair by done. rewrite encode_cons.
        unfold encode1 at 1. apply N.ltb_lt in Hh. rewrite Hh.
        cbn [app]. f_equal. apply IH; [simpl; lia | done].
Qed.

Lemma encode_sublist (k l : list N) :
  k `sublist_of` l -> encode k `sublist_of` encode l.
Proof.
  induction 1 as [| x k l Hkl IH | x k l Hkl IH].
  - done.
  - rewrite !encode_cons. by apply sublist_app.
  - rewrite encode_cons. by apply sublist_inserts_l.
Qed.

Lemma replace_go_sublist (m : matcher) (k : nat) (prev : option N) (s : list N) :
  replace_go m [] k prev s `sublist_of` s.
Proof.
  revert k prev. induction s as [|c s IH]; intros k prev.
  - simpl. destruct k; [| done]. by destruct (m prev []).
  - cbn [replace_go]. destruct k as [|k]; [| apply sublist_cons, IH].
    destruct (m prev (c :: s)) as [[|n] |]; cbn [app].
    + apply sublist_skip, IH.
    + apply sublist_cons, IH.
    + apply sublist_skip, IH.
Qed.

Lemma replace_start_sublist (m : matcher) (s : list N) :
  replace_start m [] s `sublist_of` s.
Proof.
  unfold replace_start. destruct (m None s); [apply sublist_drop | done].
Qed.

Lemma trim_sublist (s : jsstring) : trim s `sublist_of` s.
Proof.
  destruct (trim_split s) as (pre & post & Hs & _).
  rewrite Hs at 2. apply sublist_inserts_l, sublist_inserts_r. done.
Qed.

Lemma on_code_points_sublist (f : list N -> list N) (s : jsstring) :
  (forall cps, f cps `sublist_of` cps) ->
  Forall (fun c => c < 65536) s ->
  on_code_points f s `sublist_of` s.
Proof.
  intros Hf Hs. unfold on_code_points.
  rewrite <- (encode_decode s Hs) at 2. apply encode_sublist, Hf.
Qed.

Lemma sublist_Forall (P : N -> Prop) (k l : list N) :
  k `sublist_of` l -> Forall P l -> Forall P k.
Proof.
  intros Hkl Hl. apply Forall_forall. intros x Hx.
  rewrite Forall_forall in Hl. apply Hl. exact (elem_of_sublist _ _ _ Hx Hkl).
Qed.

Section OnlyDeletes.

Context (U : Unicode).

Lemma sanitizeNoName_sublist (name raw : jsstring) :
  Forall (fun c => c < 65536) raw ->
  sanitizeNoName U name raw `sublist_of` raw.
Proof.
  intros Hraw. unfold sanitizeNoName.
  set (s1 := trim raw).
  assert (s1 `sublist_of` raw) as L1 by apply trim_sublist.
  pose proof (sublist_Forall _ _ _ L1 Hraw) as H1.
  set (s2 := trim (on_code_points (replace_start (helloRe U) []) s1)).
  assert (s2 `sublist_of` s1) as L2.
  { etrans; [apply trim_sublist |].
    apply on_code_points_sublist; [apply replace_start_sublist | done]. }
  pose proof (sublist_Forall _ _ _ L2 H1) as H2.
  set (s3 := if truthy name
             then trim (on_code_points (replace_all (nameRe U name) []) s2)
             else s2).
  assert (s3 `sublist_of` s2) as L3.
  { unfold s3. destruct (truthy name); [| done].
    etrans; [apply trim_sublist |].
    apply on_code_points_sublist; [| done].
    intros cps. apply replace_go_sublist. }
  pose proof (sublist_Forall _ _ _ L3 H2) as H3.
  etrans; [apply trim_sublist |].
  etrans; [apply on_code_points_sublist;
           [apply replace_start_sublist | done] |].
  etrans; [exact L3 |]. etrans; [exact L2 | exact L1].
Qed.

(** X20. The greeting sanitizer only deletes: on a text made of code units
    its result is a subsequence of the text, no character being added,
    changed or moved, and so it is never longer than the text. *)
Theorem sanitizeNoName_only_deletes (name raw : jsstring) :
  Forall (fun c => c < 65536) raw ->
  sanitizeNoName U name raw `sublist_of` raw
  /\ (length (sanitizeNoName U name raw) <= length raw)%nat.
Proof.
  intros Hraw. pose proof (sanitizeNoName_sublist name raw Hraw) as H.
  split; [done | by apply sublist_length].
Qed.

End OnlyDeletes.

(** ** Trimming a prompt twice *)

(** Collapsing changes nothing in a text whose white space is single
    spaces. *)
Lemma collapse_go_fixed (prev : option N) (s : list N) :
  spaced true s = true -> replace_go m_spaces [32] O prev s = s.
Proof.
  revert prev. induction s as [|c t IH]; intros prev Hs; [done |].
  rewrite collapse_go_cons. cbn [spaced] in Hs.
  apply andb_true_iff in Hs as [Hc Ht].
  destruct (isSpace c) eqn:Ec.
  - apply andb_true_iff in Hc as [Hc Hnext]. apply N.eqb_eq in Hc. subst c.
    destruct t as [|d t']; [done |].
    apply negb_true_iff in Hnext. cbn [skip_while run_length]. rewrite Hnext.
    cbn [char_before]. by rewrite IH.
  - by rewrite IH.
Qed.


(** ** Texts that need no cleaning *)

Lemma replace_go_nowhere (m : matcher) (r : list N) (prev : option N)
    (s : list N) :
  matches_nowhere m prev s = true -> replace_go m r O prev s = s.
Proof.
  revert prev. induction s as [|c s IH]; intros prev; cbn [matches_nowhere replace_go].
  - by destruct (m prev []).
  - destruct (m prev (c :: s)); [done |]. intros H. by rewrite IH.
Qed.

Lemma m_words_none (U : Unicode) (ws : list (list N)) (tail : N -> bool)
    (prev : option N) (s : list N) :
  forallb (fun w => negb (ci_starts_with U w s)) ws = true ->
  m_words U ws tail prev s = None.
Proof.
  induction ws as [|w ws IH]; [done |]. cbn [forallb m_words].
  intros H. apply andb_true_iff in H as [Hw Hws].
  apply negb_true_iff in Hw. rewrite Hw. cbn [andb]. by apply IH.
Qed.

Lemma existsb_false_forallb {X : Type} (p : X -> bool) (l : list X) :
  existsb p l = false -> forallb (fun x => negb (p x)) l = true.
Proof.
  induction l as [|x l IH]; [done |]. simpl. intros H.
  apply orb_false_iff in H as [Hx Hl]. by rewrite Hx, IH.
Qed.

Lemma forallb_impl {X : Type} (p q : X -> bool) (l : list X) :
  (forall x, p x = true -> q x = true) ->
  forallb p l = true -> forallb q l = true.
Proof.
  intros Hpq. induction l as [|x l IH]; [done |]. simpl. intros H.
  apply andb_true_iff in H as [Hx Hl]. by rewrite (Hpq x Hx), IH.
Qed.

Lemma head_run_length (p : N -> bool) (s : list N) :
  match s with c :: _ => p c = false | [] => True end -> run_length p s = O.
Proof. destruct s as [|c s]; [done |]. simpl. by intros ->. Qed.

Section Clean.

Context (U : Unicode).

Lemma nameRe_nowhere (name : jsstring) (prev : option N) (s : list N) :
  forallb (fun form => negb (ci_occurs U form s)) (name_forms name) = true ->
  matches_nowhere (nameRe U name) prev s = true.
Proof.
  revert prev. induction s as [|c s IH]; intros prev Hs.
  - cbn [matches_nowhere]. unfold nameRe.
    destruct (boundary U prev (hd_error [])); [| done].
    rewrite m_words_none; [done |].
    eapply forallb_impl; [| exact Hs]. intros form Hf.
    apply negb_true_iff in Hf. apply negb_true_iff.
    cbn [ci_occurs] in Hf. by apply orb_false_iff in Hf as [? _].
  - cbn [matches_nowhere].
    assert (nameRe U name prev (c :: s) = None) as ->.
    { unfold nameRe. destruct (boundary U prev _); [| done].
      apply m_words_none.
      eapply forallb_impl; [| exact Hs]. intros form Hf.
      apply negb_true_iff in Hf. apply negb_true_iff.
      cbn [ci_occurs] in Hf. by apply orb_false_iff in Hf as [? _]. }
    apply IH. eapply forallb_impl; [| exact Hs]. intros form Hf.
    apply negb_true_iff in Hf. apply negb_true_iff.
    cbn [ci_occurs] in Hf. by apply orb_false_iff in Hf as [_ ?].
Qed.

(** X22. The greeting sanitizer leaves a clean candidate alone: a trimmed
    text of code units that begins with none of the greeting words and with
    none of the marks [,–—-|:;!.], and in which none of the six forms of
    the name occurs, whatever the case of the letters, is returned as it
    is. *)
Theorem sanitizeNoName_keeps_a_clean_candidate (name raw : jsstring) :
  Forall (fun c => c < 65536) raw ->
  trim raw = raw ->
  begins_with_hello U raw = false ->
  mentions U name raw = false ->
  match decode raw with c :: _ => isLead c = false | [] => True end ->
  sanitizeNoName U name raw = raw.
Proof.
  intros Hunits Htrim Hhello Hname Hlead.
  assert (run_length isSpace (decode raw) = O) as Hrun.
  { apply head_run_length. destruct (decode raw) as [|c k]; [done |].
    destruct (isSpace c) eqn:E; [| done].
    apply lead_is_space_or_mark in E. congruence. }
  assert (replace_start (helloRe U) [] (decode raw) = decode raw) as H1.
  { unfold replace_start, helloRe. rewrite Hrun. cbn [m_hello_from].
    rewrite m_words_none; [done |].
    unfold begins_with_hello in Hhello.
    apply existsb_false_forallb in Hhello.
    cbn [char_before]. rewrite drop_0.
    clear -Hhello. induction FORBIDDEN_HELLOS as [|w ws IH]; [done |].
    cbn [forallb List.map] in *.
    apply andb_true_iff in Hhello as [Hw Hws]. by rewrite Hw, IH. }
  assert (replace_all (nameRe U name) [] (decode raw) = decode raw) as H2.
  { unfold replace_all. apply replace_go_nowhere, nameRe_nowhere.
    unfold mentions in Hname. by apply existsb_false_forallb in Hname. }
  assert (replace_start leadRe [] (decode raw) = decode raw) as H3.
  { rewrite lead_strip. destruct (decode raw) as [|c k]; [done |].
    simpl. by rewrite Hlead. }
  unfold sanitizeNoName, on_code_points.
  rewrite Htrim, H1, (encode_decode raw Hunits), Htrim.
  destruct (truthy name).
  - by rewrite H2, (encode_decode raw Hunits), Htrim, H3,
      (encode_decode raw Hunits), Htrim.
  - by rewrite H3, (encode_decode raw Hunits), Htrim.
Qed.

End Clean.

Lemma m_quoted_nowhere (prev : option N) (s : list N) :
  forallb (fun c => negb (isQuoting c)) s = true ->
  matches_nowhere m_quoted prev s = true.
Proof.
  revert prev. induction s as [|c s IH]; intros prev; [done |].
  cbn [forallb matches_nowhere m_quoted]. intros H.
  apply andb_true_iff in H as [Hc Hs].
  apply negb_true_iff in Hc. unfold isQuoting in Hc.
  apply orb_false_iff in Hc as [_ Hc]. rewrite Hc. by apply IH.
Qed.

(** The pieces of a single-spaced text split at its sentence gaps, joined
    with single spaces, are the text. *)
Lemma split_gap_join (prev : option N) (cur s : list N) :
  single_spaced s = true ->
  (cur = [] -> isTerminalOpt prev = false) ->
  join [32] (filter_Boolean (split_go m_sentence_gap O prev cur s)) = cur ++ s.
Proof.
  revert prev cur. induction s as [|c t IH]; intros prev cur Hs Hcur.
  - cbn [split_go]. destruct cur; simpl; [done | by rewrite app_nil_r].
  - unfold single_spaced in Hs. cbn [spaced] in Hs.
    apply andb_true_iff in Hs as [Hc Ht].
    cbn [split_go].
    destruct (isTerminalOpt prev && isSpace c) eqn:E.
    + apply andb_true_iff in E as [Hp Ec]. rewrite Ec in Hc.
      apply andb_true_iff in Hc as [Hc Hnext]. apply N.eqb_eq in Hc. subst c.
      destruct t as [|d t']; [done |]. apply negb_true_iff in Hnext.
      assert (m_sentence_gap prev (32 :: d :: t') = Some 1%nat) as ->.
      { unfold m_sentence_gap. destruct prev as [p |]; [| done].
        simpl in Hp. rewrite Hp. unfold m_spaces. cbn [run_length].
        change (isSpace 32) with true. cbn iota. by rewrite Hnext. }
      destruct cur as [|a cur]; [specialize (Hcur eq_refl); congruence |].
      cbn [filter_Boolean List.filter truthy].
      fold (filter_Boolean (split_go m_sentence_gap O (Some 32) [] (d :: t'))).
      specialize (IH (Some 32) [] Ht (fun _ => eq_refl)).
      rewrite app_nil_l in IH. rewrite join_cons, IH.
      destruct (filter_Boolean _) as [|x r] eqn:Ef; [| done].
      by simpl in IH.
    + assert (m_sentence_gap prev (c :: t) = None) as ->.
      { unfold m_sentence_gap. destruct prev as [p |]; [| done].
        simpl in E. destruct (isTerminal p); [| done].
        simpl in E. unfold m_spaces. cbn [run_length]. by rewrite E. }
      rewrite IH; [by rewrite <- app_assoc | done |].
      intros Hnil. by destruct cur.
Qed.

Section Tight.

Context (U : Unicode).

Lemma keep_first_emoji_fixed (seen : nat) (cps : list N) :
  (length (List.filter (isEmoji U) cps) + seen <= 1)%nat ->
  keep_first_emoji U seen cps = cps.
Proof.
  revert seen. induction cps as [|c cps IH]; intros seen H; [done |].
  cbn [keep_first_emoji List.filter] in *.
  destruct (isEmoji U c).
  - simpl in H. destruct seen; [| lia]. f_equal. apply IH. lia.
  - f_equal. by apply IH.
Qed.


End Tight.

(** ** Where the answered texts come from *)

Lemma split_go_sublist (m : matcher) (k : nat) (prev : option N)
    (cur s : list N) :
  Forall (fun piece => piece `sublist_of` cur ++ s) (split_go m k prev cur s).
Proof.
  revert k prev cur. induction s as [|c s IH]; intros k prev cur.
  - simpl. rewrite app_nil_r. by repeat constructor.
  - assert (forall cur' (l : list (list N)),
              cur' ++ s `sublist_of` cur ++ c :: s ->
              Forall (fun piece => piece `sublist_of` cur' ++ s) l ->
              Forall (fun piece => piece `sublist_of` cur ++ c :: s) l) as Hweak.
    { intros cur' l Hsub Hl. eapply Forall_impl; [exact Hl |].
      intros piece Hp. simpl in Hp. by etrans. }
    assert (cur ++ s `sublist_of` cur ++ c :: s) as Hskip.
    { apply sublist_app; [done |]. by apply sublist_cons. }
    assert (s `sublist_of` cur ++ c :: s) as Hrest.
    { apply sublist_inserts_l. by apply sublist_cons. }
    assert ((cur ++ [c]) ++ s `sublist_of` cur ++ c :: s) as Hpush
      by by rewrite <- app_assoc.
    cbn [split_go]. destruct k as [|k].
    + destruct (m prev (c :: s)) as [[|n] |].
      * destruct cur as [|d cur].
        -- apply (Hweak [c]); [done | apply IH].
        -- constructor; [by apply sublist_inserts_r |].
           apply (Hweak [c]); [| apply IH].
           cbn [app]. apply sublist_cons, sublist_inserts_l. done.
      * constructor; [by apply sublist_inserts_r |].
        apply (Hweak []); [done | apply IH].
      * apply (Hweak (cur ++ [c])); [done | apply IH].
    + apply (Hweak cur); [done | apply IH].
Qed.

Lemma split_re_sublist (m : matcher) (s : list N) :
  Forall (fun piece => piece `sublist_of` s) (split_re m s).
Proof.
  unfold split_re. destruct s as [|c s].
  - destruct (m None []); by repeat constructor.
  - apply (split_go_sublist m O None [] (c :: s)).
Qed.

Lemma strip_marker_sublist (l : jsstring) : strip_marker l `sublist_of` l.
Proof. apply replace_start_sublist. Qed.

Section Provenance.

Context (U : Unicode).
Variable cfg : config.

(** Every candidate is a subsequence of the text it is taken from. *)
Lemma candidates_sublist (raw : jsstring) :
  Forall (fun c => c `sublist_of` raw) (candidates U raw).
Proof.
  assert (forall m, Forall (fun c : jsstring => c `sublist_of` raw)
                      (List.map trim (split_re m raw))) as Hlines.
  { intros m. apply Forall_forall. intros x Hx.
    apply list_elem_of_In, in_map_iff in Hx as (piece & <- & Hp).
    pose proof (split_re_sublist m raw) as H. rewrite Forall_forall in H.
    etrans; [apply trim_sublist |]. apply H. by apply list_elem_of_In. }
  unfold candidates. destruct (parseList U raw) as [|x l] eqn:E.
  - destruct (truthy raw); [| constructor].
    unfold filter_Boolean. apply filter_Forall, Hlines.
  - rewrite <- E. apply Forall_forall. intros s Hs.
    unfold parseList, select_candidates in Hs.
    pose proof (elem_of_sublist _ _ _ Hs (sublist_take _ 20)) as Hs'.
    apply filter_elem in Hs' as [Hs' _].
    apply (proj1 (new_Set_elem _ _)) in Hs'.
    unfold parse_items, parse_lines, filter_Boolean in Hs'.
    apply filter_elem in Hs' as [Hs' _].
    apply list_elem_of_In, in_map_iff in Hs' as (line & <- & Hl).
    apply filter_In in Hl as [Hl _].
    specialize (Hlines m_newline). rewrite Forall_forall in Hlines.
    etrans; [apply strip_marker_sublist |].
    apply Hlines. by apply list_elem_of_In.
Qed.

(** X24. No text of its own: when the race is won with a text of code
    units, the greeting that the greeting endpoint answers and stores is a
    subsequence of the text of the winning provider, and so is the text
    that the text-generation endpoint answers outside mock mode. *)
Theorem answers_are_taken_from_the_provider_text
    (name : jsstring) (age : option Z) (language level : jsstring)
    (w : world) (st : gmap jsstring (list jsstring)) (prov raw : jsstring) :
  snd (race cfg w) = Return {| provider := prov; text := raw |} ->
  Forall (fun c => c < 65536) raw ->
  (forall t src,
     fst (post_generate_greeting U cfg name age w st)
     = {| status := 200; json := Generated t src |} ->
     t `sublist_of` raw)
  /\ (MOCK_TEXT cfg = false ->
      forall t src,
        post_generate_text U cfg language level w
        = {| status := 200; json := GeneratedText t level language src |} ->
        t `sublist_of` raw).
Proof.
  intros Hrace Hunits.
  set (win := {| provider := prov; text := raw |}) in Hrace.
  change raw with (text win) in Hunits |- *. clearbody win. split.
  - intros t src. unfold post_generate_greeting, generateGreetingV2.
    rewrite Hrace.
    pose proof (candidates_sublist (text win)) as Hc.
    destruct (candidates U (text win)) as [|c cs] eqn:E.
    { cbn. unfold on_error. by destruct (timedOut _). }
    cbn [fst]. intros [= <- _].
    pose proof (chooseMostNovel_member U c cs
                  (Some (history_of st (profileKey U name age)))) as Hin.
    rewrite Forall_forall in Hc. specialize (Hc _ Hin).
    unfold final_text, or_else.
    destruct (truthy (sanitizeNoName U name _)); [| done].
    etrans; [| exact Hc].
    apply sanitizeNoName_sublist. by apply (sublist_Forall _ _ _ Hc).
  - intros Hmock t src. unfold post_generate_text. rewrite Hmock, Hrace.
    destruct (truthy (trim (strip_edge_quotes (text win)))).
    + intros [= <- _]. etrans; [apply trim_sublist |].
      apply replace_go_sublist.
    + unfold on_error. by destruct (timedOut _).
Qed.

End Provenance.

(** ** The properties above on sample inputs *)

Lemma units_check (s : jsstring) :
  forallb (fun c => c <? 65536) s = true -> Forall (fun c => c < 65536) s.
Proof.
  intros H. apply Forall_forall. intros c Hc.
  rewrite forallb_elem in H. by apply N.ltb_lt, H.
Qed.

Lemma nonempty_check (l : list jsstring) :
  forallb truthy l = true -> Forall (fun c => c <> []) l.
Proof.
  intros H. apply Forall_forall. intros c Hc.
  rewrite forallb_elem in H. specialize (H c Hc). by destruct c.
Qed.

Lemma chooseMostNovel_is_least_similar_witness :
  chooseMostNovel Polish
    [lit "Dziś razem odkryjemy nowy rozdział bajki.";
     lit "Zajrzymy do książki pełnej czarodziejskich słów."]
    (Some [lit "Dziś razem odkryjemy nowy rozdział bajki!"])
  = lit "Zajrzymy do książki pełnej czarodziejskich słów."
  /\ (max_similarity Polish [lit "Dziś razem odkryjemy nowy rozdział bajki!"]
        (chooseMostNovel Polish
           [lit "Dziś razem odkryjemy nowy rozdział bajki.";
            lit "Zajrzymy do książki pełnej czarodziejskich słów."]
           (Some [lit "Dziś razem odkryjemy nowy rozdział bajki!"])) < 1)%Q.
Proof.
  split; [vm_compute; reflexivity |].
  apply (chooseMostNovel_is_least_similar Polish
           [lit "Dziś razem odkryjemy nowy rozdział bajki!"]
           [lit "Dziś razem odkryjemy nowy rozdział bajki.";
            lit "Zajrzymy do książki pełnej czarodziejskich słów."]).
  - discriminate.
  - apply nonempty_check. vm_compute. reflexivity.
  - apply List.Exists_cons_tl, List.Exists_cons_hd. vm_compute. reflexivity.
Defined.

Lemma blank_range (c : N) :
  isBlankOrDot c = true -> c < 65 \/ c = 160 \/ 5760 <= c.
Proof.
  intros Hc.
  destruct (N.lt_ge_cases c 65) as [? | Hge]; [by left |].
  destruct (N.eq_dec c 160) as [? | Hne]; [by right; left |].
  destruct (N.le_gt_cases 5760 c) as [? | Hlt]; [by right; right |].
  exfalso. unfold isBlankOrDot, isSpace, inClass in Hc. cbn [existsb] in Hc.
  repeat (rewrite (proj2 (N.eqb_neq c _)) in Hc by lia).
  rewrite (proj2 (N.leb_gt 8192 c)) in Hc by lia. done.
Qed.

Lemma Polish_lower_blank (s : jsstring) :
  forallb isBlankOrDot s = true -> toLowerCase Polish s = s.
Proof.
  induction s as [|c s IH]; [done |].
  cbn [forallb]. intros H. apply andb_true_iff in H as [Hc Hs].
  change (toLowerCase Polish (c :: s))
    with (PolishTables.lower1 c :: toLowerCase Polish s).
  rewrite (IH Hs). f_equal. clear IH Hs s.
  apply blank_range in Hc.
  unfold PolishTables.lower1, PolishTables.upper_lower. cbn [List.find fst snd].
  assert ((65 <=? c) && (c <=? 90) = false) as ->.
  { apply andb_false_iff.
    destruct Hc as [? | [? | ?]];
      [left; apply N.leb_gt; lia | right; apply N.leb_gt; lia
      | right; apply N.leb_gt; lia]. }
  repeat (rewrite (proj2 (N.eqb_neq _ c)) by lia). done.
Qed.


Lemma empty_groq_answer_fails_the_request_witness :
  post_generate_greeting Polish both_providers (lit "Zosia") (Some 7%Z)
    blank_groq ∅
  = ({| status := 502; json := Failure (lit "EMPTY_GENERATION") |}, ∅).
Proof.
  apply (empty_groq_answer_fails_the_request Polish both_providers blank_groq
           50 200 (Some (lit "   "))).
  - reflexivity.
  - reflexivity.
  - reflexivity.
  - vm_compute. reflexivity.
  - unfold timer_at. simpl. lia.
  - intros t' win' H. vm_compute in H. injection H as <- _. lia.
Defined.

Lemma speech_proxy_sends_a_bounded_text_witness :
  post_tts (Some (lit "key")) None (Some (lit " Ala ma kota. ")) None speaks
  = post_tts (Some (lit "key")) None (Some (lit " Ala ma kota. ")) None
      speaks_briefly.
Proof.
  apply (speech_proxy_sends_a_bounded_text (Some (lit "key")) None
           (Some (lit " Ala ma kota. ")) None speaks speaks_briefly).
  intros call _ [_ Hlen] _ _. unfold speaks, speaks_briefly.
  apply Nat.leb_le in Hlen. by rewrite Hlen.
Defined.

Lemma hello_removal_takes_the_words_that_follow_witness :
  sanitizeNoName Polish (lit "Zosia")
    (lit "Hej Zosia, otwórzmy dziś razem książkę!") = [].
Proof.
  apply (hello_removal_takes_the_words_that_follow Polish (lit "Zosia")
           (lit "Hej Zosia, otwórzmy dziś razem książkę!") 39);
    vm_compute; reflexivity.
Defined.

Lemma sanitizeNoName_begins_with_no_mark_witness :
  match sanitizeNoName Polish (lit "Zosia") (lit "Zosia, - otwórzmy książkę! ") with
  | c :: _ => isLead c = false
  | [] => True
  end.
Proof.
  apply (sanitizeNoName_begins_with_no_mark Polish (lit "Zosia")
           (lit "Zosia, - otwórzmy książkę! ")).
  apply units_check. vm_compute. reflexivity.
Defined.

Lemma sanitizeNoName_only_deletes_witness :
  sanitizeNoName Polish (lit "Zosia") (lit "Zosia, - otwórzmy książkę! ")
    `sublist_of` lit "Zosia, - otwórzmy książkę! "
  /\ (length (sanitizeNoName Polish (lit "Zosia")
                (lit "Zosia, - otwórzmy książkę! "))
      <= length (lit "Zosia, - otwórzmy książkę! "))%nat.
Proof.
  apply (sanitizeNoName_only_deletes Polish (lit "Zosia")
           (lit "Zosia, - otwórzmy książkę! ")).
  apply units_check. vm_compute. reflexivity.
Defined.

Lemma sanitizeNoName_keeps_a_clean_candidate_witness :
  sanitizeNoName Polish (lit "Zosia")
    (lit "Dziś razem odkryjemy nowy rozdział bajki. 📖")
  = lit "Dziś razem odkryjemy nowy rozdział bajki. 📖".
Proof.
  apply (sanitizeNoName_keeps_a_clean_candidate Polish (lit "Zosia")
           (lit "Dziś razem odkryjemy nowy rozdział bajki. 📖")).
  - apply units_check. vm_compute. reflexivity.
  - vm_compute. reflexivity.
  - vm_compute. reflexivity.
  - vm_compute. reflexivity.
  - vm_compute. reflexivity.
Defined.


Lemma answers_are_taken_from_the_provider_text_witness :
  (forall t src,
     fst (post_generate_greeting Polish groq_only (lit "Zosia") (Some 7%Z)
            greets_by_name ∅)
     = {| status := 200; json := Generated t src |} ->
     t `sublist_of` lit "- Hej Zosia, otwórzmy dziś razem książkę!")
  /\ (MOCK_TEXT groq_only = false ->
      forall t src,
        post_generate_text Polish groq_only (lit "pl") (lit "A1") greets_by_name
        = {| status := 200;
             json := GeneratedText t (lit "A1") (lit "pl") src |} ->
        t `sublist_of` lit "- Hej Zosia, otwórzmy dziś razem książkę!").
Proof.
  apply (answers_are_taken_from_the_provider_text Polish groq_only
           (lit "Zosia") (Some 7%Z) (lit "pl") (lit "A1") greets_by_name ∅
           (lit "groq") (lit "- Hej Zosia, otwórzmy dziś razem książkę!")).
  - vm_compute. reflexivity.
  - apply units_check. vm_compute. reflexivity.
Defined.
